(** * reaganPLAYER: the player state machine of [reaganplayer.py]

    A shallow embedding of the main loop of [reaganPLAYER()] (and of
    [play_song]) together with the Python built-ins and the [os.path]
    functions the loop relies on.  The terminal rendering, the metadata
    extraction and the album art are presentational and are not modelled.

    Python [str] values are modelled as [string] (the UTF-8 bytes of the
    text): byte-wise lexicographic order coincides with code-point order and
    an ASCII suffix test is the same on both.  Python [int] is [Z], Python
    [float] is the kernel's binary64 [float]. *)

From Stdlib Require Import ZArith Floats Ascii String List.
From stdpp Require Import gmap strings list sorting.

Local Open Scope string_scope.
Local Open Scope list_scope.
Local Open Scope Z_scope.

(** ** Python built-ins used by the player *)

Module Py.

Definition chars : string → list ascii := list_ascii_of_string.

(** [s.endswith(suffix)] *)
Definition endswith (s suffix : string) : bool :=
  bool_decide (chars suffix `suffix_of` chars s).

(** [s.endswith((e1, ..., en))]: true when some element is a suffix. *)
Definition endswith_any (s : string) (suffixes : list string) : bool :=
  existsb (endswith s) suffixes.

(** [s.startswith(prefix)] *)
Definition startswith (s pre : string) : bool := String.prefix pre s.

(** ASCII part of [str.lower]. *)
Definition lower_char (c : ascii) : ascii :=
  let n := nat_of_ascii c in
  if ((65 <=? n) && (n <=? 90))%nat then ascii_of_nat (n + 32) else c.

Fixpoint lower (s : string) : string :=
  match s with
  | EmptyString => EmptyString
  | String c r => String (lower_char c) (lower r)
  end.

(** ASCII part of the white space removed by [str.strip()]. *)
Definition is_space (c : ascii) : bool :=
  let n := nat_of_ascii c in
  (((9 <=? n) && (n <=? 13)) || ((28 <=? n) && (n <=? 32)))%nat.

Fixpoint lstrip (s : string) : string :=
  match s with
  | EmptyString => EmptyString
  | String c r => if is_space c then lstrip r else s
  end.

Definition strip (s : string) : string :=
  String.rev (lstrip (String.rev (lstrip s))).

(** [int(s)] for a decimal literal: an optional sign, then digits which
    single underscores may separate.  [None] stands for [ValueError]. *)
Fixpoint int_digits (acc : Z) (after_digit : bool) (s : string) : option Z :=
  match s with
  | EmptyString => if after_digit then Some acc else None
  | String c r =>
      match Ascii.is_nat c with
      | Some d => int_digits (10 * acc + Z.of_nat d) true r
      | None =>
          if (Ascii.eqb c "_" && after_digit)%bool
          then int_digits acc false r
          else None
      end
  end.

Definition int (s : string) : option Z :=
  match strip s with
  | String "+" r => int_digits 0 false r
  | String "-" r => Z.opp <$> int_digits 0 false r
  | r => int_digits 0 false r
  end.

(** [l.index(x)]: the first position of [x]; [None] is [ValueError]. *)
Fixpoint index {A} `{EqDecision A} (l : list A) (x : A) : option Z :=
  match l with
  | [] => None
  | y :: r => if decide (y = x) then Some 0 else Z.succ <$> index r x
  end.

(** [l[i]] with Python's negative indices; [None] is [IndexError]. *)
Definition getitem {A} (l : list A) (i : Z) : option A :=
  let n := Z.of_nat (length l) in
  let j := if i <? 0 then i + n else i in
  if (0 <=? j) && (j <? n) then l !! Z.to_nat j else None.

(** [l[start:stop]] *)
Definition slice_bound (n i : Z) : Z :=
  if i <? 0 then Z.max 0 (i + n) else Z.min i n.

Definition slice {A} (l : list A) (start stop : Z) : list A :=
  let n := Z.of_nat (length l) in
  let lo := slice_bound n start in
  let hi := slice_bound n stop in
  take (Z.to_nat (hi - lo)) (drop (Z.to_nat lo) l).

(** [sorted(l)] on a list of [str]: the ascending rearrangement. *)
Definition sorted (l : list string) : list string := merge_sort String.le l.

(** [x[i], x[j] = x[j], x[i]] *)
Definition swap {A} (i j : nat) (x : list A) : list A :=
  match x !! i, x !! j with
  | Some a, Some b => <[j := a]> (<[i := b]> x)
  | _, _ => x
  end.

(** [random.shuffle(x)]:
    [for i in reversed(range(1, len(x))): j = randbelow(i + 1); swap].
    The generator is an oracle: [draws] lists the raw numbers it hands
    out, each reduced into the requested range. *)
Fixpoint shuffle_from {A} (i : nat) (draws : list nat) (x : list A) : list A :=
  match i with
  | O => x
  | S i' =>
      let j := (hd 0 draws `mod` (i + 1))%nat in
      shuffle_from i' (tl draws) (swap i j x)
  end.

Definition shuffle {A} (draws : list nat) (x : list A) : list A :=
  shuffle_from (length x - 1) draws x.

(** Truth value of an optional [str]: [None] and [''] are false. *)
Definition truthy (o : option string) : bool :=
  match o with
  | Some (String _ _) => true
  | _ => false
  end.

(** [min(a, b)] and [max(a, b)] on floats: the first argument wins unless
    the second is strictly smaller (larger). *)
Definition fmin (a b : float) : float := if PrimFloat.ltb b a then b else a.
Definition fmax (a b : float) : float := if PrimFloat.ltb a b then b else a.

End Py.

(** ** [os.path] (POSIX flavour) *)

Module OsPath.

Definition sep : ascii := "/"%char.

(** [os.path.join(a, b)] *)
Definition join (a b : string) : string :=
  if Py.startswith b "/" then b
  else if decide (a = "") then b
  else if Py.endswith a "/" then a +:+ b
  else a +:+ "/" +:+ b.

(** Split at the last separator: [(p[:i], p[i:])] with
    [i = p.rfind('/') + 1]. *)
Fixpoint rsplit (p : string) : string * string :=
  match p with
  | EmptyString => (EmptyString, EmptyString)
  | String c r =>
      let '(h, t) := rsplit r in
      match h with
      | EmptyString =>
          if Ascii.eqb c sep then (String c EmptyString, r)
          else (EmptyString, String c r)
      | _ => (String c h, t)
      end
  end.

(** [os.path.basename(p)] *)
Definition basename (p : string) : string := (rsplit p).2.

Fixpoint all_sep (s : string) : bool :=
  match s with
  | EmptyString => true
  | String c r => Ascii.eqb c sep && all_sep r
  end.

(** [s.rstrip('/')] *)
Fixpoint rstrip_sep (s : string) : string :=
  match s with
  | EmptyString => EmptyString
  | String c r =>
      match rstrip_sep r with
      | EmptyString => if Ascii.eqb c sep then EmptyString else String c EmptyString
      | r' => String c r'
      end
  end.

(** [os.path.dirname(p)] *)
Definition dirname (p : string) : string :=
  let head := (rsplit p).1 in
  if negb (String.eqb head "") && negb (all_sep head)
  then rstrip_sep head else head.

End OsPath.

Example endswith_mp3 : Py.endswith "song.mp3" ".mp3" = true.
Proof. reflexivity. Qed.
Example int_12 : Py.int " 1_2 " = Some 12.
Proof. reflexivity. Qed.
Example int_neg : Py.int "-7" = Some (-7).
Proof. reflexivity. Qed.
Example int_bad : Py.int "1__2" = None.
Proof. reflexivity. Qed.
Example slice_ex : Py.slice [1;2;3;4;5] 1 3 = [2;3].
Proof. reflexivity. Qed.
Example shuffle_ex : Py.shuffle [2;0;1]%nat ["a";"b";"c";"d"] = ["d";"b";"a";"c"].
Proof. vm_compute. reflexivity. Qed.
Example join_ex : OsPath.join "/music" "a.mp3" = "/music/a.mp3".
Proof. reflexivity. Qed.
Example basename_ex : OsPath.basename "/music/rock/a.mp3" = "a.mp3".
Proof. reflexivity. Qed.
Example dirname_ex : OsPath.dirname "/music/rock" = "/music".
Proof. reflexivity. Qed.
Example dirname_root : OsPath.dirname "/music" = "/".
Proof. reflexivity. Qed.

(** ** Data model *)

(** The configuration dictionary ([load_config]'s five keys). *)
Record Config := mkConfig {
  music_folder : string;
  volume : float;
  shuffle_on : bool;
  page_size : Z;
  current_page : Z;
}.

Definition set_volume (v : float) (c : Config) : Config :=
  mkConfig (music_folder c) v (shuffle_on c) (page_size c) (current_page c).
Definition set_shuffle_on (b : bool) (c : Config) : Config :=
  mkConfig (music_folder c) (volume c) b (page_size c) (current_page c).
Definition set_current_page (n : Z) (c : Config) : Config :=
  mkConfig (music_folder c) (volume c) (shuffle_on c) (page_size c) n.

(** The local variables of [reaganPLAYER()] that live across iterations of
    its [while True] loop.  [music_root] is [os.path.abspath(music_folder)],
    which the loop only reads. *)
Record Player := mkPlayer {
  config : Config;
  music_root : string;
  current_path : string;
  now_playing_song : option string;
  is_paused : bool;
  queue : list string;
  current_playlist : list string;
  current_song_index : Z;
}.

Definition set_config (c : Config) (st : Player) : Player :=
  mkPlayer c (music_root st) (current_path st) (now_playing_song st)
    (is_paused st) (queue st) (current_playlist st) (current_song_index st).
Definition set_current_path (p : string) (st : Player) : Player :=
  mkPlayer (config st) (music_root st) p (now_playing_song st)
    (is_paused st) (queue st) (current_playlist st) (current_song_index st).
Definition set_now_playing_song (o : option string) (st : Player) : Player :=
  mkPlayer (config st) (music_root st) (current_path st) o
    (is_paused st) (queue st) (current_playlist st) (current_song_index st).
Definition set_is_paused (b : bool) (st : Player) : Player :=
  mkPlayer (config st) (music_root st) (current_path st) (now_playing_song st)
    b (queue st) (current_playlist st) (current_song_index st).
Definition set_queue (q : list string) (st : Player) : Player :=
  mkPlayer (config st) (music_root st) (current_path st) (now_playing_song st)
    (is_paused st) q (current_playlist st) (current_song_index st).
Definition set_current_playlist (l : list string) (st : Player) : Player :=
  mkPlayer (config st) (music_root st) (current_path st) (now_playing_song st)
    (is_paused st) (queue st) l (current_song_index st).
Definition set_current_song_index (i : Z) (st : Player) : Player :=
  mkPlayer (config st) (music_root st) (current_path st) (now_playing_song st)
    (is_paused st) (queue st) (current_playlist st) i.

(** The state right before the loop is entered (lines 190-220). *)
Definition initial (c : Config) (root : string) : Player :=
  mkPlayer c root root None false [] [] (-1).

(** ** The outside world *)

Inductive EventType := USEREVENT | OTHER_EVENT.

Inductive FileKind := Directory | RegularFile | SpecialFile.

(** Result of [os.listdir]: the names, [FileNotFoundError], or another
    [OSError] (which the loop does not catch). *)
Inductive ListDir :=
| Listed (names : list string)
| FileNotFound
| OtherOSError.

(** What one iteration of the loop observes of its collaborators: the
    pending pygame events, the mixer, the file system, the two prompts and
    the random generator. *)
Record World := mkWorld {
  event_get : list EventType;
  load_ok : string → bool;
  get_busy : bool;
  listdir : string → ListDir;
  stat : string → option FileKind;
  input_choice : string;
  input_add : string;
  randoms : list nat;
}.

Definition isdir (w : World) (p : string) : bool :=
  match stat w p with Some Directory => true | _ => false end.
Definition isfile (w : World) (p : string) : bool :=
  match stat w p with Some RegularFile => true | _ => false end.

(** What the loop does to its collaborators, in order. *)
Inductive Message :=
| ErrorLoadingSong (name : string)
| DirectoryNotFound (path : string)
| AddedToQueue (path : string)
| InvalidSelection
| InvalidAddInput
| QueueCleared
| Exiting
| InvalidNumber
| InvalidInput.

Inductive Effect :=
| MusicLoad (path : string)
| MusicPlay
| MusicPause
| MusicUnpause
| MusicStop
| MixerQuit
| MusicSetVolume (v : float)
| SaveConfig (c : Config)
| Print (m : Message).

(** ** A small monad: state, output and exceptions

    Python mutates its variables in place, so the state changes made before
    an exception is raised survive it. *)

Inductive Exn := ValueError | IndexError | OSError.

Inductive Result (A : Type) :=
| Ok (a : A)
| Raised (e : Exn).
Arguments Ok {A} a.
Arguments Raised {A} e.

Definition M (A : Type) : Type := Player → Player * list Effect * Result A.

Definition M_ret {A} (a : A) : M A := λ st, (st, [], Ok a).

Definition M_bind {A B} (f : A → M B) (m : M A) : M B := λ st,
  match m st with
  | (st1, out1, Ok a) =>
      match f a st1 with
      | (st2, out2, r) => (st2, out1 ++ out2, r)
      end
  | (st1, out1, Raised e) => (st1, out1, Raised e)
  end.

Global Instance M_mret : MRet M := @M_ret.
Global Instance M_mbind : MBind M := @M_bind.

Definition get : M Player := λ st, (st, [], Ok st).
Definition modify (f : Player → Player) : M unit := λ st, (f st, [], Ok tt).
Definition emit (e : Effect) : M unit := λ st, (st, [e], Ok tt).
Definition raise {A} (e : Exn) : M A := λ st, (st, [], Raised e).

(** [try: m  except (ValueError, IndexError): h] *)
Definition try_except {A} (m : M A) (h : M A) : M A := λ st,
  match m st with
  | (st1, out1, Raised ValueError) | (st1, out1, Raised IndexError) =>
      match h st1 with
      | (st2, out2, r) => (st2, out1 ++ out2, r)
      end
  | r => r
  end.

Definition of_option {A} (e : Exn) (o : option A) : M A :=
  match o with
  | Some a => mret a
  | None => raise e
  end.

(** [for x in l: body(x)] *)
Fixpoint for_each {A} (l : list A) (body : A → M unit) : M unit :=
  match l with
  | [] => mret tt
  | x :: r => body x;; for_each r body
  end.

Definition state_of {A} (r : Player * list Effect * Result A) : Player := r.1.1.
Definition output_of {A} (r : Player * list Effect * Result A) : list Effect := r.1.2.
Definition result_of {A} (r : Player * list Effect * Result A) : Result A := r.2.

(** [config[...] = ...] followed, where the source does so, by
    [save_config(config)]. *)
Definition modify_config (f : Config → Config) : M unit :=
  modify (λ st, set_config (f (config st)) st).
Definition save_config : M unit :=
  st ← get; emit (SaveConfig (config st)).

(** ** The player *)

(** Line 222. *)
Definition audio_extensions : list string :=
  [".mp3"; ".wav"; ".ogg"; ".flac"; ".aiff"; ".aif"; ".m4a"; ".aac"].

(** [play_song] (lines 91-99): load, then play; a [pygame.error] is
    reported with the file's base name and answered with [False]. *)
Definition play_song (w : World) (song_path : string) : M bool :=
  emit (MusicLoad song_path);;
  if load_ok w song_path
  then emit MusicPlay;; mret true
  else emit (Print (ErrorLoadingSong (OsPath.basename song_path)));; mret false.

(** The pair of statements that follows every assignment of
    [current_song_index]:
    [play_song(pygame, console, current_playlist[current_song_index])]
    [now_playing_song = current_playlist[current_song_index]]. *)
Definition play_current (w : World) : M unit :=
  st ← get;
  p ← of_option IndexError (Py.getitem (current_playlist st) (current_song_index st));
  play_song w p;;
  modify (set_now_playing_song (Some p)).

(** [next_song = queue.pop(0)] and the three statements after it
    (lines 233-236 and 334-337). *)
Definition play_queue_head (w : World) (next_song : string) (rest : list string) : M unit :=
  modify (set_queue rest);;
  play_song w next_song;;
  modify (set_now_playing_song (Some next_song));;
  modify (set_current_song_index (-1)).

(** The body run for one [pygame.USEREVENT] (lines 231-240). *)
Definition on_userevent (w : World) : M unit :=
  st ← get;
  match queue st with
  | next_song :: rest => play_queue_head w next_song rest
  | [] =>
      match current_playlist st with
      | [] => mret tt
      | _ :: _ =>
          modify (set_current_song_index
                    ((current_song_index st + 1) `mod` Z.of_nat (length (current_playlist st))));;
          play_current w
      end
  end.

(** [for event in pygame.event.get(): ...] (lines 230-240). *)
Definition poll_events (w : World) : M unit :=
  for_each (event_get w)
    (λ e, match e with USEREVENT => on_userevent w | OTHER_EVENT => mret tt end).

(** *** The directory listing (lines 244-257) *)

Definition folders_of (w : World) (cp : string) (all_contents : list string) : list string :=
  List.filter (λ d, isdir w (OsPath.join cp d)) all_contents.

Definition audio_files_of (all_contents : list string) : list string :=
  List.filter (λ f, Py.endswith_any f audio_extensions) all_contents.

Definition view_playlist_of (cp : string) (audio_files : list string) : list string :=
  map (OsPath.join cp) audio_files.

Definition start_index_of (c : Config) : Z := current_page c * page_size c.

Definition paginated_of (c : Config) (audio_files : list string) : list string :=
  Py.slice audio_files (start_index_of c) (start_index_of c + page_size c).

(** *** The menu (lines 265-283): [item_map[item_counter] = ...;
    item_counter += 1] for the parent entry, the folders and the audio files
    of the current page. *)
Definition add_items (entries : list string) (acc : gmap Z string * Z) : gmap Z string * Z :=
  foldl (λ mc x, (<[mc.2 := x]> (mc.1), mc.2 + 1)) acc entries.

Definition item_map_of (st : Player) (folders paginated : list string) : gmap Z string :=
  let cp := current_path st in
  let parent : gmap Z string * Z :=
    if decide (cp = music_root st) then (∅, 1) else (<[1 := ".."]> ∅, 2) in
  (add_items (map (OsPath.join cp) paginated)
     (add_items (map (OsPath.join cp) folders) parent)).1.

(** *** The commands *)

(** ['add'] (lines 296-307). *)
Definition cmd_add (w : World) (item_map : gmap Z string) : M unit :=
  match Py.int (Py.strip (input_add w)) with
  | Some add_choice =>
      match item_map !! add_choice with
      | Some p =>
          if isfile w p
          then modify (λ st, set_queue (queue st ++ [p]) st);;
               emit (Print (AddedToQueue p))
          else emit (Print InvalidSelection)
      | None => emit (Print InvalidSelection)
      end
  | None => emit (Print InvalidAddInput)
  end.

(** ['clear'] (lines 308-312). *)
Definition cmd_clear : M unit :=
  modify (set_queue []);;
  emit (Print QueueCleared).

(** ['+'] and ['-'] (lines 314-323); [0x1.999999999999ap-4] is the binary64
    value of the literal [0.1]. *)
Definition volume_step : float := 0x1.999999999999ap-4%float.

Definition cmd_volume_up : M unit :=
  modify_config (λ c, set_volume (Py.fmin 1%float (volume c + volume_step)%float) c);;
  st ← get;
  emit (MusicSetVolume (volume (config st)));;
  save_config.

Definition cmd_volume_down : M unit :=
  modify_config (λ c, set_volume (Py.fmax 0%float (volume c - volume_step)%float) c);;
  st ← get;
  emit (MusicSetVolume (volume (config st)));;
  save_config.

(** ['pause'] (lines 324-331). *)
Definition cmd_pause (w : World) : M unit :=
  st ← get;
  if get_busy w then emit MusicPause;; modify (set_is_paused true)
  else if is_paused st then emit MusicUnpause;; modify (set_is_paused false)
  else mret tt.

(** ['>'] (lines 332-342). *)
Definition cmd_next (w : World) : M unit :=
  st ← get;
  match queue st with
  | next_song :: rest => play_queue_head w next_song rest
  | [] =>
      match current_playlist st with
      | [] => mret tt
      | _ :: _ =>
          if decide (current_song_index st = -1) then mret tt
          else
            modify (set_current_song_index
                      ((current_song_index st + 1) `mod` Z.of_nat (length (current_playlist st))));;
            play_current w
      end
  end.

(** ['<'] (lines 343-348). *)
Definition cmd_previous (w : World) : M unit :=
  st ← get;
  match current_playlist st with
  | [] => mret tt
  | _ :: _ =>
      if decide (current_song_index st = -1) then mret tt
      else
        let n := Z.of_nat (length (current_playlist st)) in
        modify (set_current_song_index ((current_song_index st - 1 + n) `mod` n));;
        play_current w
  end.

(** ['s'] (lines 349-358). *)
Definition cmd_shuffle_play (w : World) (view_playlist : list string) : M unit :=
  match view_playlist with
  | [] => mret tt
  | _ :: _ =>
      modify_config (set_shuffle_on true);;
      save_config;;
      modify (set_current_playlist (Py.shuffle (randoms w) view_playlist));;
      modify (set_current_song_index 0);;
      play_current w
  end.

(** The rebuilding of [current_playlist] shared by ['t'] and by the
    selection of a file (lines 362-366 and 404-408). *)
Definition rebuild_playlist (w : World) (view_playlist : list string) : M unit :=
  st ← get;
  if shuffle_on (config st)
  then modify (set_current_playlist (Py.shuffle (randoms w) view_playlist))
  else modify (set_current_playlist (Py.sorted view_playlist)).

(** ['t'] (lines 359-372). *)
Definition cmd_toggle_shuffle (w : World) (view_playlist : list string) : M unit :=
  modify_config (λ c, set_shuffle_on (negb (shuffle_on c)) c);;
  save_config;;
  rebuild_playlist w view_playlist;;
  st ← get;
  if Py.truthy (now_playing_song st) && get_busy w
     && negb (bool_decide (current_song_index st = -1))
  then
    match now_playing_song st with
    | Some p =>
        modify (set_current_song_index (default (-1) (Py.index (current_playlist st) p)))
    | None => mret tt
    end
  else mret tt.

(** ['q'] (lines 373-378). *)
Definition cmd_quit (w : World) : M unit :=
  (if get_busy w then emit MusicStop else mret tt);;
  emit MixerQuit;;
  emit (Print Exiting).

(** ['n'] (lines 379-385). *)
Definition cmd_next_page (start_index : Z) (audio_files : list string) : M unit :=
  st ← get;
  (if bool_decide (start_index + page_size (config st) < Z.of_nat (length audio_files))
   then modify_config (λ c, set_current_page (current_page c + 1) c)
   else modify_config (set_current_page 0));;
  save_config.

(** ['p'] (lines 386-389). *)
Definition cmd_previous_page : M unit :=
  modify_config (λ c, set_current_page (Z.max 0 (current_page c - 1)) c);;
  save_config.

(** A number (lines 391-418). *)
Definition cmd_select (w : World) (view_playlist : list string)
    (item_map : gmap Z string) (choice : string) : M unit :=
  try_except
    (choice_num ← of_option ValueError (Py.int choice);
     match item_map !! choice_num with
     | Some selected =>
         if decide (selected = "..") then
           modify (λ st, set_current_path (OsPath.dirname (current_path st)) st);;
           modify_config (set_current_page 0);;
           save_config
         else if isdir w selected then
           modify (set_current_path selected);;
           modify_config (set_current_page 0);;
           save_config
         else if isfile w selected then
           rebuild_playlist w view_playlist;;
           st ← get;
           modify (set_current_song_index
                     (default 0 (Py.index (current_playlist st) selected)));;
           play_current w
         else mret tt
     | None => emit (Print InvalidNumber)
     end)
    (emit (Print InvalidInput)).

(** How an iteration hands control on: [continue] (or falling off the end
    of the body), [break], or [return]. *)
Inductive Flow := Continue | Break | Return.

(** The [if]/[elif] chain on [choice] (lines 296-418). *)
Definition dispatch (w : World) (view_playlist audio_files : list string)
    (start_index : Z) (item_map : gmap Z string) (choice : string) : M Flow :=
  if decide (choice = "add") then cmd_add w item_map;; mret Continue
  else if decide (choice = "clear") then cmd_clear;; mret Continue
  else if decide (choice = "+") then cmd_volume_up;; mret Continue
  else if decide (choice = "-") then cmd_volume_down;; mret Continue
  else if decide (choice = "pause" ∨ choice = " ") then cmd_pause w;; mret Continue
  else if decide (choice = ">") then cmd_next w;; mret Continue
  else if decide (choice = "<") then cmd_previous w;; mret Continue
  else if decide (choice = "s") then cmd_shuffle_play w view_playlist;; mret Continue
  else if decide (choice = "t") then cmd_toggle_shuffle w view_playlist;; mret Continue
  else if decide (choice = "q") then cmd_quit w;; mret Break
  else if decide (choice = "n") then cmd_next_page start_index audio_files;; mret Continue
  else if decide (choice = "p") then cmd_previous_page;; mret Continue
  else cmd_select w view_playlist item_map choice;; mret Continue.

(** One pass through the body of [while True] (lines 226-418). *)
Definition iteration (w : World) : M Flow :=
  poll_events w;;
  st ← get;
  let cp := current_path st in
  match listdir w cp with
  | FileNotFound => emit (Print (DirectoryNotFound cp));; mret Return
  | OtherOSError => raise OSError
  | Listed names =>
      let all_contents := Py.sorted names in
      let folders := folders_of w cp all_contents in
      let audio_files := audio_files_of all_contents in
      let view_playlist := view_playlist_of cp audio_files in
      let paginated_audio_files := paginated_of (config st) audio_files in
      let item_map := item_map_of st folders paginated_audio_files in
      dispatch w view_playlist audio_files (start_index_of (config st)) item_map
        (Py.lower (Py.strip (input_choice w)))
  end.

(** The loop: iterations follow one another while control is handed on with
    [Continue]; [ws] lists what each iteration observes. *)
Fixpoint run (ws : list World) (st : Player) : Player * list Effect * Result Flow :=
  match ws with
  | [] => (st, [], Ok Continue)
  | w :: ws' =>
      match iteration w st with
      | (st1, out1, Ok Continue) =>
          match run ws' st1 with
          | (st2, out2, r) => (st2, out1 ++ out2, r)
          end
      | r => r
      end
  end.

(** * Properties *)

(** ** The built-ins *)

Section builtins.
Context {A : Type}.
Implicit Types (l : list A) (x y : A) (i j : nat).

Lemma insert_cons_Permutation l j x y :
  l !! j = Some y → y :: <[j := x]> l ≡ₚ x :: l.
Proof.
  revert j. induction l as [|z l IH]; intros [|j] Hj; simplify_eq/=.
  - apply perm_swap.
  - rewrite perm_swap, (IH _ Hj). apply perm_swap.
Qed.

Lemma swap_Permutation i j l : Py.swap i j l ≡ₚ l.
Proof.
  unfold Py.swap.
  destruct (l !! i) as [a|] eqn:Hi; [|done].
  destruct (l !! j) as [b|] eqn:Hj; [|done].
  revert i j Hi Hj.
  induction l as [|z l IH]; intros [|i] [|j] Hi Hj; simplify_eq/=.
  - done.
  - by apply insert_cons_Permutation.
  - by apply insert_cons_Permutation.
  - f_equiv. by apply IH.
Qed.

Lemma shuffle_from_Permutation i draws l : Py.shuffle_from i draws l ≡ₚ l.
Proof.
  revert draws l. induction i as [|i IH]; intros draws l; simpl; [done|].
  by rewrite IH, swap_Permutation.
Qed.

(** [random.shuffle] rearranges: nothing is lost, added or duplicated. *)
Lemma shuffle_Permutation draws l : Py.shuffle draws l ≡ₚ l.
Proof. apply shuffle_from_Permutation. Qed.

Lemma shuffle_nil_inv draws l : Py.shuffle draws l = [] → l = [].
Proof.
  intros Hnil. apply Permutation_nil_r. rewrite <-Hnil.
  symmetry. apply shuffle_Permutation.
Qed.

Context `{!EqDecision A}.

(** [l.index(x)] answers the first position of [x], and raises exactly
    when [x] does not occur. *)
Lemma index_Some l x k :
  Py.index l x = Some k →
  0 ≤ k < Z.of_nat (length l) ∧ l !! Z.to_nat k = Some x
  ∧ ∀ j, (j < Z.to_nat k)%nat → l !! j ≠ Some x.
Proof.
  revert k. induction l as [|y l IH]; intros k; simpl; [done|].
  case_decide as Hy.
  - intros [= <-]. subst. simpl. split; [lia|]. split; [done|]. lia.
  - destruct (Py.index l x) as [k'|] eqn:Hk; simpl; [|done].
    intros [= <-]. destruct (IH _ eq_refl) as (Hr & Hl & Hf).
    split; [lia|]. rewrite Z2Nat.inj_succ by lia. split; [done|].
    intros [|j] Hj; simpl; [congruence|]. apply Hf. lia.
Qed.

Lemma index_None l x : Py.index l x = None ↔ x ∉ l.
Proof.
  induction l as [|y l IH]; simpl.
  - split; [intros _; apply not_elem_of_nil|done].
  - case_decide as Hy.
    + subst. split; [done|]. intros []. left.
    + rewrite not_elem_of_cons. destruct (Py.index l x); simpl.
      * split; [done|]. intros [_ Hx]. by apply IH in Hx.
      * split; [|done]. intros _. split; [congruence|]. by apply IH.
Qed.

Lemma getitem_in_range l k :
  0 ≤ k < Z.of_nat (length l) → is_Some (Py.getitem l k).
Proof.
  intros Hk. unfold Py.getitem.
  destruct (Z.ltb_spec k 0); [lia|].
  destruct (Z.leb_spec 0 k); [|lia].
  destruct (Z.ltb_spec k (Z.of_nat (length l))); [|lia]. simpl.
  apply lookup_lt_is_Some. lia.
Qed.

Lemma getitem_elem_of l k x : Py.getitem l k = Some x → x ∈ l.
Proof.
  unfold Py.getitem. case_match; [|done].
  intros Hx. by eapply list_elem_of_lookup_2.
Qed.

Lemma getitem_index l x k : Py.index l x = Some k → Py.getitem l k = Some x.
Proof.
  intros (Hr & Hl & _)%index_Some. unfold Py.getitem.
  destruct (Z.ltb_spec k 0); [lia|].
  destruct (Z.leb_spec 0 k); [|lia].
  destruct (Z.ltb_spec k (Z.of_nat (length l))); [|lia]. done.
Qed.

Lemma slice_subseteq l a b : Py.slice l a b ⊆ l.
Proof.
  unfold Py.slice. etrans; [apply subseteq_take|apply subseteq_drop].
Qed.
End builtins.

(** [sorted] rearranges into ascending order. *)
Lemma sorted_Permutation l : Py.sorted l ≡ₚ l.
Proof. apply merge_sort_Permutation. Qed.

Lemma sorted_StronglySorted l : StronglySorted String.le (Py.sorted l).
Proof. apply (StronglySorted_merge_sort _). Qed.

Lemma filter_StronglySorted {A} (R : relation A) (f : A → bool) l :
  StronglySorted R l → StronglySorted R (List.filter f l).
Proof.
  induction 1 as [|x l Hl IH Hx]; simpl; [constructor|].
  destruct (f x); [|done]. constructor; [done|].
  rewrite Forall_forall in Hx |- *.
  intros y [Hy _]%list_elem_of_In%filter_In. by apply Hx, list_elem_of_In.
Qed.

(** ** Running the handlers *)

Ltac munfold :=
  repeat progress
    (unfold modify_config, save_config, of_option, mbind, M_mbind, M_bind,
       mret, M_mret, M_ret, get, modify, emit, raise in *;
     cbn beta iota in *).

Ltac unfold_setters :=
  unfold set_config, set_current_path, set_now_playing_song, set_is_paused,
    set_queue, set_current_playlist, set_current_song_index in *;
  cbn [config music_root current_path now_playing_song is_paused queue
       current_playlist current_song_index] in *.

(** What [play_song] sends to the mixer and the console. *)
Definition play_output (w : World) (p : string) : list Effect :=
  MusicLoad p ::
  (if load_ok w p then [MusicPlay]
   else [Print (ErrorLoadingSong (OsPath.basename p))]).

Lemma play_song_run w p st :
  play_song w p st = (st, play_output w p, Ok (load_ok w p)).
Proof.
  unfold play_song, play_output. munfold. simpl.
  by destruct (load_ok w p).
Qed.

Lemma play_queue_head_run w p rest st :
  play_queue_head w p rest st =
    (mkPlayer (config st) (music_root st) (current_path st) (Some p)
       (is_paused st) rest (current_playlist st) (-1),
     play_output w p, Ok tt).
Proof.
  unfold play_queue_head. munfold. rewrite play_song_run.
  cbn [app]. by rewrite app_nil_r.
Qed.

Lemma play_current_run w p st :
  Py.getitem (current_playlist st) (current_song_index st) = Some p →
  play_current w st = (set_now_playing_song (Some p) st, play_output w p, Ok tt).
Proof.
  intros Hp. unfold play_current. munfold. rewrite Hp. munfold.
  rewrite play_song_run. cbn [app]. by rewrite app_nil_r.
Qed.

Lemma play_current_raise w st :
  Py.getitem (current_playlist st) (current_song_index st) = None →
  play_current w st = (st, [], Raised IndexError).
Proof. intros Hp. unfold play_current. munfold. by rewrite Hp. Qed.

(** A step modulo the length lands inside a non-empty playlist. *)
Lemma getitem_mod {A} (l : list A) (k : Z) :
  l ≠ [] → is_Some (Py.getitem l (k `mod` Z.of_nat (length l))).
Proof.
  intros Hl. apply getitem_in_range. apply Z.mod_pos_bound.
  destruct l; [done|]. simpl. lia.
Qed.

(** Moving [current_song_index] to [i] and playing what is there. *)
Definition moved_to (i : Z) (p : string) (st : Player) : Player :=
  mkPlayer (config st) (music_root st) (current_path st) (Some p)
    (is_paused st) (queue st) (current_playlist st) i.

(** Sample collaborators for the examples below: a mixer that loads only
    the files accepted by [ok], no pending event, an empty directory. *)
Definition world_of (ok : string → bool) (busy : bool) : World :=
  mkWorld [] ok busy (λ _, Listed []) (λ _, None) "" "" [].

Definition sample_config : Config :=
  mkConfig "audio" 0.5%float false 10 0.

(** ** Queue priority *)

Lemma on_userevent_queue_head w st x rest :
  queue st = x :: rest →
  on_userevent w st
  = (mkPlayer (config st) (music_root st) (current_path st) (Some x)
       (is_paused st) rest (current_playlist st) (-1),
     play_output w x, Ok tt).
Proof.
  intros Hq. unfold on_userevent. munfold. rewrite Hq.
  by rewrite play_queue_head_run.
Qed.

Lemma cmd_next_queue_head w st x rest :
  queue st = x :: rest →
  cmd_next w st
  = (mkPlayer (config st) (music_root st) (current_path st) (Some x)
       (is_paused st) rest (current_playlist st) (-1),
     play_output w x, Ok tt).
Proof.
  intros Hq. unfold cmd_next. munfold. rewrite Hq.
  by rewrite play_queue_head_run.
Qed.

(** C2: with a non-empty queue, both the completion handler and ['>'] pop
    the head, play it, record it as now playing and set the index to -1;
    the active playlist is neither read nor changed. *)
Theorem queue_takes_priority (w : World) (st : Player) (next_song : string)
    (rest : list string) :
  queue st = next_song :: rest →
  let st' := mkPlayer (config st) (music_root st) (current_path st)
               (Some next_song) (is_paused st) rest (current_playlist st) (-1) in
  on_userevent w st = (st', play_output w next_song, Ok tt)
  ∧ cmd_next w st = (st', play_output w next_song, Ok tt)
  ∧ ∀ view_playlist audio_files start_index item_map,
      dispatch w view_playlist audio_files start_index item_map ">" st
      = (st', play_output w next_song, Ok Continue).
Proof.
  intros Hq st'.
  assert (Hnext : cmd_next w st = (st', play_output w next_song, Ok tt))
    by by apply cmd_next_queue_head.
  split; [|split; [done|]].
  - by apply on_userevent_queue_head.
  - intros. unfold dispatch. simpl. munfold. rewrite Hnext.
    by rewrite app_nil_r.
Qed.

Lemma queue_takes_priority_witness :
  let w := world_of (λ _, true) true in
  let st := mkPlayer sample_config "/m" "/m" (Some "/m/a.mp3") false
              ["/m/q.mp3"; "/m/r.mp3"] ["/m/a.mp3"; "/m/b.mp3"] 0 in
  let st' := mkPlayer sample_config "/m" "/m" (Some "/m/q.mp3") false
               ["/m/r.mp3"] ["/m/a.mp3"; "/m/b.mp3"] (-1) in
  on_userevent w st = (st', [MusicLoad "/m/q.mp3"; MusicPlay], Ok tt)
  ∧ cmd_next w st = (st', [MusicLoad "/m/q.mp3"; MusicPlay], Ok tt).
Proof.
  intros w st st'.
  destruct (queue_takes_priority w st "/m/q.mp3" ["/m/r.mp3"] eq_refl)
    as (He & Hn & _).
  split; [exact He|exact Hn].
Defined.

(** ** Next and previous *)

Lemma previous_index_mod (i n : Z) : (i - 1 + n) `mod` n = (i - 1) `mod` n.
Proof. rewrite <-(Z.mul_1_l n) at 1. apply Z_mod_plus_full. Qed.

Lemma cmd_next_playlist w st p :
  queue st = [] → current_playlist st ≠ [] → current_song_index st ≠ -1 →
  let i := (current_song_index st + 1) `mod` Z.of_nat (length (current_playlist st)) in
  Py.getitem (current_playlist st) i = Some p →
  cmd_next w st = (moved_to i p st, play_output w p, Ok tt).
Proof.
  intros Hq Hpl Hi i Hp. unfold cmd_next. munfold. rewrite Hq.
  destruct (current_playlist st) as [|x l] eqn:Hl; [done|].
  rewrite decide_False by done. munfold.
  rewrite (play_current_run _ p); [done|]. simpl. by rewrite Hl.
Qed.

Lemma cmd_previous_playlist w st p :
  current_playlist st ≠ [] → current_song_index st ≠ -1 →
  let i := (current_song_index st - 1) `mod` Z.of_nat (length (current_playlist st)) in
  Py.getitem (current_playlist st) i = Some p →
  cmd_previous w st = (moved_to i p st, play_output w p, Ok tt).
Proof.
  intros Hpl Hi i Hp. unfold cmd_previous. munfold.
  destruct (current_playlist st) as [|x l] eqn:Hl; [done|].
  rewrite decide_False by done. munfold. rewrite previous_index_mod.
  rewrite (play_current_run _ p); [done|]. simpl. by rewrite Hl.
Qed.

Lemma cmd_next_idle w st :
  queue st = [] → current_playlist st = [] ∨ current_song_index st = -1 →
  cmd_next w st = (st, [], Ok tt).
Proof.
  intros Hq Hidle. unfold cmd_next. munfold. rewrite Hq.
  destruct (current_playlist st) as [|x l]; [done|].
  destruct Hidle as [|Hi]; [done|]. by rewrite decide_True.
Qed.

Lemma cmd_previous_idle w st :
  current_playlist st = [] ∨ current_song_index st = -1 →
  cmd_previous w st = (st, [], Ok tt).
Proof.
  intros Hidle. unfold cmd_previous. munfold.
  destruct (current_playlist st) as [|x l]; [done|].
  destruct Hidle as [|Hi]; [done|]. by rewrite decide_True.
Qed.

(** C6: with an empty queue, ['>'] moves the index to [(i + 1) mod n] and
    ['<'] to [(i - 1) mod n], each playing the track found there; both do
    nothing when the playlist is empty or the index is -1.  With three
    tracks, next from 2 gives 0 and previous from 0 gives 2. *)
Theorem next_previous_wrap (w : World) (st : Player) :
  queue st = [] →
  let pl := current_playlist st in
  let n := Z.of_nat (length pl) in
  let i := current_song_index st in
  (pl ≠ [] → i ≠ -1 →
     ∃ p q,
       Py.getitem pl ((i + 1) `mod` n) = Some p
       ∧ Py.getitem pl ((i - 1) `mod` n) = Some q
       ∧ cmd_next w st = (moved_to ((i + 1) `mod` n) p st, play_output w p, Ok tt)
       ∧ cmd_previous w st = (moved_to ((i - 1) `mod` n) q st, play_output w q, Ok tt))
  ∧ (pl = [] ∨ i = -1 →
     cmd_next w st = (st, [], Ok tt) ∧ cmd_previous w st = (st, [], Ok tt))
  ∧ (length pl = 3%nat →
     (i = 2 → current_song_index (state_of (cmd_next w st)) = 0)
     ∧ (i = 0 → current_song_index (state_of (cmd_previous w st)) = 2)).
Proof.
  intros Hq pl n i.
  assert (Hmove : pl ≠ [] → i ≠ -1 →
     ∃ p q,
       Py.getitem pl ((i + 1) `mod` n) = Some p
       ∧ Py.getitem pl ((i - 1) `mod` n) = Some q
       ∧ cmd_next w st = (moved_to ((i + 1) `mod` n) p st, play_output w p, Ok tt)
       ∧ cmd_previous w st = (moved_to ((i - 1) `mod` n) q st, play_output w q, Ok tt)).
  { intros Hpl Hi.
    destruct (getitem_mod pl (i + 1) Hpl) as [p Hp].
    destruct (getitem_mod pl (i - 1) Hpl) as [q Hq'].
    exists p, q. split; [done|]. split; [done|]. split.
    - by apply cmd_next_playlist.
    - by apply cmd_previous_playlist. }
  split; [done|]. split.
  - intros Hidle. split; [by apply cmd_next_idle|by apply cmd_previous_idle].
  - intros Hlen.
    assert (pl ≠ []) as Hpl by (intros Hnil; by rewrite Hnil in Hlen).
    assert (n = 3) as Hn by (unfold n; by rewrite Hlen).
    split; intros Hi;
      (destruct Hmove as (p & q & _ & _ & Hnext & Hprev); [done|lia|]).
    + rewrite Hnext. simpl. by rewrite Hn, Hi.
    + rewrite Hprev. simpl. by rewrite Hn, Hi.
Qed.

Definition three_tracks (i : Z) (now : string) : Player :=
  mkPlayer sample_config "/m" "/m" (Some now) false []
    ["/m/a.mp3"; "/m/b.mp3"; "/m/c.mp3"] i.

Lemma next_previous_wrap_witness :
  let w := world_of (λ _, true) true in
  cmd_next w (three_tracks 2 "/m/c.mp3")
    = (three_tracks 0 "/m/a.mp3", [MusicLoad "/m/a.mp3"; MusicPlay], Ok tt)
  ∧ cmd_previous w (three_tracks 0 "/m/a.mp3")
    = (three_tracks 2 "/m/c.mp3", [MusicLoad "/m/c.mp3"; MusicPlay], Ok tt).
Proof.
  intros w. split.
  - destruct (next_previous_wrap w (three_tracks 2 "/m/c.mp3") eq_refl)
      as (Hmove & _).
    destruct Hmove as (p & q & Hp & _ & Hnext & _); [done|done|].
    injection Hp as <-. exact Hnext.
  - destruct (next_previous_wrap w (three_tracks 0 "/m/a.mp3") eq_refl)
      as (Hmove & _).
    destruct Hmove as (p & q & _ & Hq & _ & Hprev); [done|done|].
    injection Hq as <-. exact Hprev.
Defined.

(** ** A failed load *)

Lemma play_current_cases w st :
  (∃ p, Py.getitem (current_playlist st) (current_song_index st) = Some p
        ∧ play_current w st
          = (set_now_playing_song (Some p) st, play_output w p, Ok tt))
  ∨ play_current w st = (st, [], Raised IndexError).
Proof.
  destruct (Py.getitem (current_playlist st) (current_song_index st)) as [p|] eqn:Hp.
  - left. exists p. split; [done|]. by apply play_current_run.
  - right. by apply play_current_raise.
Qed.

(** Effects other than those of [play_song]. *)
Definition quiet (e : Effect) : Prop :=
  match e with
  | MusicLoad _ | MusicPlay | Print (ErrorLoadingSong _) => False
  | _ => True
  end.

(** What a handler that may start a track does: it never touches the pause
    flag, and either it calls [play_song] once, as its last effect, and
    records that track as now playing, or it does not call it at all. *)
Definition starts_at_most_one (w : World) (st : Player)
    (r : Player * list Effect * Result unit) : Prop :=
  is_paused (state_of r) = is_paused st
  ∧ ((∃ pre p, output_of r = pre ++ play_output w p ∧ Forall quiet pre
               ∧ now_playing_song (state_of r) = Some p)
     ∨ Forall quiet (output_of r)).

Lemma starts_play_current w st0 st pre :
  is_paused st = is_paused st0 → Forall quiet pre →
  ∀ r, r = play_current w st →
  starts_at_most_one w st0 (state_of r, pre ++ output_of r, result_of r).
Proof.
  intros Hpause Hpre r ->.
  destruct (play_current_cases w st) as [(p & _ & ->)| ->]; split; simpl; try done.
  - left. by exists pre, p.
  - right. by rewrite app_nil_r.
Qed.

Lemma on_userevent_starts w st : starts_at_most_one w st (on_userevent w st).
Proof.
  unfold on_userevent. munfold. destruct (queue st) as [|x rest].
  - destruct (current_playlist st) as [|y l] eqn:Hl.
    + split; [done|]. right. constructor.
    + munfold.
      match goal with |- context [play_current w ?s] =>
        pose proof (starts_play_current w st s [] eq_refl (List.Forall_nil quiet) _ eq_refl) as Hs;
        destruct (play_current w s) as [[s' o] []] end; exact Hs.
  - rewrite play_queue_head_run. split; [done|]. left. by exists [], x.
Qed.

Lemma cmd_next_starts w st : starts_at_most_one w st (cmd_next w st).
Proof.
  unfold cmd_next. munfold. destruct (queue st) as [|x rest].
  - destruct (current_playlist st) as [|y l] eqn:Hl.
    + split; [done|]. right. constructor.
    + case_decide; munfold; [split; [done|]; right; constructor|].
      match goal with |- context [play_current w ?s] =>
        pose proof (starts_play_current w st s [] eq_refl (List.Forall_nil quiet) _ eq_refl) as Hs;
        destruct (play_current w s) as [[s' o] []] end; exact Hs.
  - rewrite play_queue_head_run. split; [done|]. left. by exists [], x.
Qed.

Lemma cmd_shuffle_play_starts w vp st :
  starts_at_most_one w st (cmd_shuffle_play w vp st).
Proof.
  unfold cmd_shuffle_play. destruct vp as [|y l].
  - split; [done|]. right. constructor.
  - munfold.
    match goal with |- context [play_current w ?s] =>
      pose proof (starts_play_current w st s
        [SaveConfig (set_shuffle_on true (config st))] eq_refl
        ltac:(by repeat constructor) _ eq_refl) as Hs;
      destruct (play_current w s) as [[s' o] []] end; exact Hs.
Qed.

Lemma cmd_select_starts w vp im choice st :
  starts_at_most_one w st (cmd_select w vp im choice st).
Proof.
  unfold cmd_select, try_except. munfold.
  destruct (Py.int choice) as [k|]; munfold;
    [|split; [done|]; right; by repeat constructor].
  destruct (im !! k) as [selected|]; munfold;
    [|split; [done|]; right; by repeat constructor].
  case_decide; munfold; [split; [done|]; right; by repeat constructor|].
  destruct (isdir w selected); munfold;
    [split; [done|]; right; by repeat constructor|].
  destruct (isfile w selected); munfold;
    [|split; [done|]; right; by repeat constructor].
  unfold rebuild_playlist. munfold.
  destruct (shuffle_on (config st)); munfold;
    match goal with |- context [play_current w ?s] =>
      destruct (play_current_cases w s) as [(p & _ & ->)| ->]
    end; (split; [done|]); simpl;
    first [ left; by exists [], p | right; by repeat constructor ].
Qed.

(** The handlers behind the four ways of starting a track: the completion
    signal, ['>'], ['s'] and the selection of a file by its number. *)
Definition start_triggers (w : World) (view_playlist : list string)
    (item_map : gmap Z string) (choice : string) : list (M unit) :=
  [on_userevent w; cmd_next w; cmd_shuffle_play w view_playlist;
   cmd_select w view_playlist item_map choice].

Lemma start_triggers_start w vp im choice h st :
  h ∈ start_triggers w vp im choice → starts_at_most_one w st (h st).
Proof.
  unfold start_triggers. rewrite !elem_of_cons, elem_of_nil.
  intros [->|[->|[->|[->|[]]]]].
  - apply on_userevent_starts.
  - apply cmd_next_starts.
  - apply cmd_shuffle_play_starts.
  - apply cmd_select_starts.
Qed.

Lemma play_output_failed w p :
  load_ok w p = false →
  play_output w p = [MusicLoad p; Print (ErrorLoadingSong (OsPath.basename p))].
Proof. intros Hp. unfold play_output. by rewrite Hp. Qed.

Lemma quiet_not_load pre p : Forall quiet pre → MusicLoad p ∉ pre.
Proof. rewrite Forall_forall. intros Hpre Hin. exact (Hpre _ Hin). Qed.

Lemma quiet_not_play pre : Forall quiet pre → MusicPlay ∉ pre.
Proof. rewrite Forall_forall. intros Hpre Hin. exact (Hpre _ Hin). Qed.

Lemma load_in_play_output w p q : MusicLoad p ∈ play_output w q → p = q.
Proof.
  unfold play_output. rewrite elem_of_cons. intros [[= ->]|Hin]; [done|].
  destruct (load_ok w q); apply list_elem_of_singleton in Hin; done.
Qed.

(** C1, as the code has it: when the load of the track a handler starts
    fails, [play_song] itself changes nothing and reports the failure with
    the file's base name, nothing is played and the pause flag is kept; the
    handler nevertheless records the attempted track as now playing, exactly
    as after a successful load. *)
Theorem failed_load_outcome (w : World) (view_playlist : list string)
    (item_map : gmap Z string) (choice : string) (h : M unit)
    (st : Player) (p : string) :
  h ∈ start_triggers w view_playlist item_map choice →
  load_ok w p = false →
  MusicLoad p ∈ output_of (h st) →
  play_song w p st
    = (st, [MusicLoad p; Print (ErrorLoadingSong (OsPath.basename p))], Ok false)
  ∧ Print (ErrorLoadingSong (OsPath.basename p)) ∈ output_of (h st)
  ∧ (MusicPlay ∉ output_of (h st))
  ∧ is_paused (state_of (h st)) = is_paused st
  ∧ now_playing_song (state_of (h st)) = Some p.
Proof.
  intros Hh Hfail Hload.
  split; [by rewrite play_song_run, play_output_failed, Hfail|].
  destruct (start_triggers_start w _ _ _ h st Hh) as [Hpause [Hone|Hnone]].
  - destruct Hone as (pre & q & Hout & Hpre & Hnow).
    rewrite Hout in Hload |- *. apply elem_of_app in Hload as [Hin|Hin].
    { by apply quiet_not_load in Hin. }
    apply load_in_play_output in Hin as <-.
    rewrite play_output_failed by done.
    split; [|split; [|done]].
    + apply elem_of_app. right. apply elem_of_cons. right. apply elem_of_cons. by left.
    + rewrite elem_of_app. intros [Hin|Hin]; [by apply quiet_not_play in Hin|].
      apply elem_of_cons in Hin as [|Hin]; [done|].
      by apply list_elem_of_singleton in Hin.
  - by apply quiet_not_load in Hload.
Qed.

Definition deaf_world (choice : string) : World :=
  mkWorld [] (λ _, false) false (λ _, Listed []) (λ _, None) choice "" [].

Definition bad_queued : Player :=
  mkPlayer sample_config "/m" "/m" None false ["/m/bad.mp3"] [] (-1).

Lemma failed_load_outcome_witness :
  let w := deaf_world ">" in
  Print (ErrorLoadingSong "bad.mp3") ∈ output_of (cmd_next w bad_queued)
  ∧ is_paused (state_of (cmd_next w bad_queued)) = false
  ∧ now_playing_song (state_of (cmd_next w bad_queued)) = Some "/m/bad.mp3".
Proof.
  intros w.
  assert (Hh : cmd_next w ∈ start_triggers w [] ∅ ">").
  { apply elem_of_cons. right. apply elem_of_cons. by left. }
  assert (Hload : MusicLoad "/m/bad.mp3" ∈ output_of (cmd_next w bad_queued)).
  { apply elem_of_cons. by left. }
  destruct (failed_load_outcome w [] ∅ ">" (cmd_next w) bad_queued "/m/bad.mp3"
              Hh eq_refl Hload) as (_ & Hprint & _ & Hpause & Hnow).
  split; [exact Hprint|]. split; [exact Hpause|exact Hnow].
Defined.

(** C1 as stated fails: ['>'] with a queued file that does not load leaves
    [now_playing_song] changed from [None] to that file. *)
Lemma failed_load_changes_now_playing :
  iteration (deaf_world ">") bad_queued
    = (mkPlayer sample_config "/m" "/m" (Some "/m/bad.mp3") false [] [] (-1),
       [MusicLoad "/m/bad.mp3"; Print (ErrorLoadingSong "bad.mp3")],
       Ok Continue)
  ∧ now_playing_song (state_of (iteration (deaf_world ">") bad_queued))
    ≠ now_playing_song bad_queued.
Proof. split; [by vm_compute|]. by vm_compute. Qed.

(** ** Shuffle and play *)

(** C4 as stated fails: in a directory without audio files ['s'] changes
    nothing; in particular [shuffle_on] stays off and nothing is played. *)
Lemma shuffle_play_without_audio :
  let w := mkWorld [] (λ _, true) false (λ _, Listed ["notes.txt"])
             (λ _, Some RegularFile) "s" "" [] in
  let st := initial sample_config "/m" in
  iteration w st = (st, [], Ok Continue)
  ∧ shuffle_on (config (state_of (iteration w st))) ≠ true
  ∧ current_song_index (state_of (iteration w st)) ≠ 0.
Proof. split; [by vm_compute|]. split; by vm_compute. Qed.

(** C4, as the code has it: when the directory shows at least one audio
    file, ['s'] turns [shuffle_on] on and saves it, makes the playlist a
    shuffled copy of the view playlist, sets the index to 0 and plays the
    track found there. *)
Theorem shuffle_play_nonempty (w : World) (view_playlist : list string)
    (st : Player) :
  view_playlist ≠ [] →
  let c' := set_shuffle_on true (config st) in
  let pl := Py.shuffle (randoms w) view_playlist in
  pl ≡ₚ view_playlist
  ∧ ∃ p, pl !! 0%nat = Some p
    ∧ let st' := mkPlayer c' (music_root st) (current_path st) (Some p)
                   (is_paused st) (queue st) pl 0 in
      cmd_shuffle_play w view_playlist st
        = (st', SaveConfig c' :: play_output w p, Ok tt)
      ∧ ∀ audio_files start_index item_map,
          dispatch w view_playlist audio_files start_index item_map "s" st
          = (st', SaveConfig c' :: play_output w p, Ok Continue).
Proof.
  intros Hvp c'. cbv zeta. split; [apply shuffle_Permutation|].
  destruct (Py.shuffle (randoms w) view_playlist) as [|p pl'] eqn:Hpl.
  { by apply shuffle_nil_inv in Hpl. }
  exists p. split; [done|]. set (st' := mkPlayer _ _ _ _ _ _ _ _).
  assert (Hs : cmd_shuffle_play w view_playlist st
               = (st', SaveConfig c' :: play_output w p, Ok tt)).
  { unfold cmd_shuffle_play. destruct view_playlist as [|v vs]; [done|].
    munfold. rewrite (play_current_run _ p); [|simpl; by rewrite Hpl].
    simpl. by rewrite Hpl. }
  split; [done|]. intros. unfold dispatch. simpl. munfold. rewrite Hs.
  by rewrite app_nil_r.
Qed.

Lemma shuffle_play_nonempty_witness :
  let w := mkWorld [] (λ _, true) false (λ _, Listed []) (λ _, None) "s" "" [1; 0]%nat in
  let st := initial sample_config "/m" in
  cmd_shuffle_play w ["/m/a.mp3"; "/m/b.mp3"; "/m/c.mp3"] st
  = (mkPlayer (set_shuffle_on true sample_config) "/m" "/m" (Some "/m/c.mp3")
       false [] ["/m/c.mp3"; "/m/a.mp3"; "/m/b.mp3"] 0,
     [SaveConfig (set_shuffle_on true sample_config); MusicLoad "/m/c.mp3"; MusicPlay],
     Ok tt).
Proof.
  intros w st.
  destruct (shuffle_play_nonempty w ["/m/a.mp3"; "/m/b.mp3"; "/m/c.mp3"] st)
    as (_ & p & Hp & Hrun & _); [done|].
  injection Hp as <-. exact Hrun.
Defined.

(** ** Toggling shuffle *)

(** The test of line 367: a track is recorded, the mixer is busy and the
    index is not -1. *)
Definition relocates (w : World) (st : Player) : bool :=
  Py.truthy (now_playing_song st) && get_busy w
  && negb (bool_decide (current_song_index st = -1)).

(** C3: ['t'] flips [shuffle_on] and saves it, rebuilds the playlist from
    the view playlist (shuffled when the flag is now on, sorted when off)
    and, exactly when a track is playing and the index is not -1, moves the
    index to the position of that track in the new playlist, or to -1 when
    it is not there; the mixer is not touched. *)
Theorem toggle_shuffle_rebuilds (w : World) (view_playlist : list string)
    (st : Player) :
  let flag := negb (shuffle_on (config st)) in
  let c' := set_shuffle_on flag (config st) in
  let pl := if flag then Py.shuffle (randoms w) view_playlist
            else Py.sorted view_playlist in
  let st' := state_of (cmd_toggle_shuffle w view_playlist st) in
  cmd_toggle_shuffle w view_playlist st
    = (mkPlayer c' (music_root st) (current_path st) (now_playing_song st)
         (is_paused st) (queue st) pl (current_song_index st'),
       [SaveConfig c'], Ok tt)
  ∧ pl ≡ₚ view_playlist
  ∧ (flag = false → StronglySorted String.le pl)
  ∧ (relocates w st = false → current_song_index st' = current_song_index st)
  ∧ (relocates w st = true →
     ∃ p, now_playing_song st = Some p
          ∧ ((p ∈ pl ∧ 0 ≤ current_song_index st'
              ∧ pl !! Z.to_nat (current_song_index st') = Some p)
             ∨ ((p ∉ pl) ∧ current_song_index st' = -1))).
Proof.
  intros flag c' pl st'.
  assert (Hrun : ∃ i,
    cmd_toggle_shuffle w view_playlist st
      = (mkPlayer c' (music_root st) (current_path st) (now_playing_song st)
           (is_paused st) (queue st) pl i, [SaveConfig c'], Ok tt)
    ∧ i = if relocates w st
          then match now_playing_song st with
               | Some p => default (-1) (Py.index pl p)
               | None => current_song_index st
               end
          else current_song_index st).
  { unfold cmd_toggle_shuffle, rebuild_playlist, relocates. munfold. simpl.
    subst pl c' flag.
    destruct (negb (shuffle_on (config st))); munfold; simpl;
      destruct (Py.truthy (now_playing_song st) && get_busy w
                && negb (bool_decide (current_song_index st = -1)));
      munfold; destruct (now_playing_song st) eqn:Hnow; munfold; unfold_setters;
      rewrite ?Hnow; (eexists; split; reflexivity). }
  destruct Hrun as (i & Hrun & Hi).
  assert (current_song_index st' = i) as Hst' by (unfold st'; by rewrite Hrun).
  rewrite Hst'. split; [done|]. split.
  { unfold pl. destruct flag; [apply shuffle_Permutation|apply sorted_Permutation]. }
  split.
  { intros Hflag. unfold pl. rewrite Hflag. apply sorted_StronglySorted. }
  split.
  { intros Hrel. by rewrite Hrel in Hi. }
  intros Hrel. rewrite Hrel in Hi.
  destruct (now_playing_song st) as [p|] eqn:Hnow.
  2:{ unfold relocates in Hrel. by rewrite Hnow in Hrel. }
  exists p. split; [done|].
  destruct (Py.index pl p) as [k|] eqn:Hk; simpl in Hi; subst i.
  - left. destruct (index_Some _ _ _ Hk) as (Hr & Hl & _).
    split; [by eapply list_elem_of_lookup_2|]. split; [lia|done].
  - right. split; [by apply index_None|done].
Qed.

Lemma toggle_shuffle_rebuilds_witness :
  let w := mkWorld [] (λ _, true) true (λ _, Listed []) (λ _, None) "t" "" [1; 0]%nat in
  let view := ["/m/a.mp3"; "/m/b.mp3"; "/m/c.mp3"] in
  let st := mkPlayer sample_config "/m" "/m" (Some "/m/b.mp3") false [] view 1 in
  cmd_toggle_shuffle w view st
  = (mkPlayer (set_shuffle_on true sample_config) "/m" "/m" (Some "/m/b.mp3")
       false [] ["/m/c.mp3"; "/m/a.mp3"; "/m/b.mp3"] 2,
     [SaveConfig (set_shuffle_on true sample_config)], Ok tt)
  ∧ relocates w st = true.
Proof.
  intros w view st.
  destruct (toggle_shuffle_rebuilds w view st) as (Hrun & _ & _ & _ & Hrel).
  split; [exact Hrun|].
  destruct (relocates w st) eqn:Hr; [reflexivity|discriminate Hr].
Defined.

(** The track is gone from the directory now shown: the index becomes -1. *)
Example toggle_shuffle_track_absent :
  let w := mkWorld [] (λ _, true) true (λ _, Listed []) (λ _, None) "t" "" [] in
  let st := mkPlayer (set_shuffle_on true sample_config) "/m" "/m/other"
              (Some "/m/b.mp3") false [] ["/m/b.mp3"; "/m/a.mp3"] 0 in
  state_of (cmd_toggle_shuffle w ["/m/other/y.mp3"; "/m/other/x.mp3"] st)
  = mkPlayer sample_config "/m" "/m/other" (Some "/m/b.mp3") false []
      ["/m/other/x.mp3"; "/m/other/y.mp3"] (-1).
Proof. by vm_compute. Qed.

(** ** Pagination *)

(** C7: ['n'] adds one to [current_page] exactly when
    [current_page * page_size + page_size] is below the number of audio
    files and otherwise resets it to 0; ['p'] subtracts one but never goes
    below 0; both save the configuration.  With pages of 10 and 25 audio
    files ['n'] goes 0, 1, 2, 0, and ['p'] at page 0 stays there. *)
Theorem pagination (st : Player) (audio_files : list string) :
  let c := config st in
  let len := Z.of_nat (length audio_files) in
  let next := if bool_decide (current_page c * page_size c + page_size c < len)
              then current_page c + 1 else 0 in
  let prev := Z.max 0 (current_page c - 1) in
  cmd_next_page (start_index_of c) audio_files st
    = (set_config (set_current_page next c) st,
       [SaveConfig (set_current_page next c)], Ok tt)
  ∧ cmd_previous_page st
    = (set_config (set_current_page prev c) st,
       [SaveConfig (set_current_page prev c)], Ok tt)
  ∧ 0 ≤ prev
  ∧ (1 ≤ current_page c → prev = current_page c - 1)
  ∧ (current_page c = 0 → prev = 0)
  ∧ (page_size c = 10 → len = 25 →
     (current_page c = 0 → next = 1)
     ∧ (current_page c = 1 → next = 2)
     ∧ (current_page c = 2 → next = 0)).
Proof.
  intros c len next prev. split.
  { unfold cmd_next_page, start_index_of. munfold. fold c len.
    subst next. by case_bool_decide. }
  split.
  { unfold cmd_previous_page. by munfold. }
  split; [lia|]. split; [lia|]. split; [lia|].
  intros Hps Hlen. subst next. rewrite Hps, Hlen.
  repeat split; intros ->; by case_bool_decide.
Qed.

(** A directory with 25 audio files, [a.mp3] to [y.mp3]. *)
Definition track_name (n : nat) : string :=
  String (ascii_of_nat (97 + n)) ".mp3".
Definition big_directory : list string := track_name <$> seq 0 25.

Definition big_world (choice : string) : World :=
  mkWorld [] (λ _, true) false (λ _, Listed big_directory)
    (λ _, Some RegularFile) choice "" [].

Definition on_page (n : Z) : Player :=
  initial (set_current_page n sample_config) "/m".

Lemma pagination_witness :
  cmd_next_page 0 big_directory (on_page 0)
    = (on_page 1, [SaveConfig (set_current_page 1 sample_config)], Ok tt)
  ∧ cmd_next_page 10 big_directory (on_page 1)
    = (on_page 2, [SaveConfig (set_current_page 2 sample_config)], Ok tt)
  ∧ cmd_next_page 20 big_directory (on_page 2)
    = (on_page 0, [SaveConfig (set_current_page 0 sample_config)], Ok tt)
  ∧ cmd_previous_page (on_page 0)
    = (on_page 0, [SaveConfig (set_current_page 0 sample_config)], Ok tt).
Proof.
  destruct (pagination (on_page 0) big_directory) as (Hn0 & Hp0 & _).
  destruct (pagination (on_page 1) big_directory) as (Hn1 & _).
  destruct (pagination (on_page 2) big_directory) as (Hn2 & _).
  split; [exact Hn0|]. split; [exact Hn1|]. split; [exact Hn2|exact Hp0].
Defined.

(** The same walk through the whole loop body: three ['n'] and one ['p']. *)
Example pagination_cycle :
  state_of (run [big_world "n"] (on_page 0)) = on_page 1
  ∧ state_of (run [big_world "n"; big_world "n"] (on_page 0)) = on_page 2
  ∧ state_of (run [big_world "n"; big_world "n"; big_world "n"] (on_page 0))
    = on_page 0
  ∧ state_of (run [big_world "p"] (on_page 0)) = on_page 0.
Proof. repeat split; by vm_compute. Qed.

(** ** Invariants of monadic code

    [respects I Q m]: started in a state satisfying [I], [m] ends (normally
    or by raising) in a state satisfying [I], and all its effects satisfy
    [Q]. *)

Section respects.
Context (I : Player → Prop) (Q : Effect → Prop).

Definition respects_from {A} (m : M A) (st : Player) : Prop :=
  I (state_of (m st)) ∧ Forall Q (output_of (m st)).

Definition respects {A} (m : M A) : Prop :=
  ∀ st, I st → respects_from m st.

Lemma respects_ret {A} (a : A) : respects (mret a).
Proof. intros st Hst. split; [done|constructor]. Qed.

Lemma respects_raise {A} (e : Exn) : respects (@raise A e).
Proof. intros st Hst. split; [done|constructor]. Qed.

Lemma respects_emit (e : Effect) : Q e → respects (emit e).
Proof. intros He st Hst. split; [done|]. by repeat constructor. Qed.

Lemma respects_modify (g : Player → Player) :
  (∀ st, I st → I (g st)) → respects (modify g).
Proof. intros Hg st Hst. split; [by apply Hg|constructor]. Qed.

Lemma respects_bind {A B} (m : M A) (f : A → M B) :
  respects m → (∀ a, respects (f a)) → respects (m ≫= f).
Proof.
  intros Hm Hf st Hst. destruct (Hm st Hst) as [Hs Ho].
  unfold respects_from in *. munfold.
  destruct (m st) as [[st1 out1] [a|e]]; [|done].
  destruct (Hf a st1 Hs) as [Hs2 Ho2].
  destruct (f a st1) as [[st2 out2] r]. split; [done|].
  apply Forall_app. by split.
Qed.

(** Reading the state: the continuation may rely on what was read. *)
Lemma respects_get {A} (f : Player → M A) :
  (∀ st, I st → respects_from (f st) st) → respects (get ≫= f).
Proof.
  intros Hf st Hst. destruct (Hf st Hst) as [Hs Ho].
  unfold respects_from in *. munfold.
  by destruct (f st st) as [[st2 out2] r].
Qed.

Lemma respects_try_except {A} (m h : M A) :
  respects m → respects h → respects (try_except m h).
Proof.
  intros Hm Hh st Hst. destruct (Hm st Hst) as [Hs Ho].
  unfold respects_from, try_except in *.
  destruct (m st) as [[st1 out1] [a|[]]]; try done;
    destruct (Hh st1 Hs) as [Hs2 Ho2];
    destruct (h st1) as [[st2 out2] r]; (split; [done|]);
    apply Forall_app; by split.
Qed.

Lemma respects_for_each {A} (l : list A) (body : A → M unit) :
  (∀ x, respects (body x)) → respects (for_each l body).
Proof.
  intros Hbody. induction l as [|x l IH]; simpl.
  - apply respects_ret.
  - apply respects_bind; [apply Hbody|done].
Qed.

Lemma respects_if {A} (b : bool) (m1 m2 : M A) :
  respects m1 → respects m2 → respects (if b then m1 else m2).
Proof. by destruct b. Qed.

Lemma respects_decide {A} (P : Prop) `{!Decision P} (m1 m2 : M A) :
  respects m1 → respects m2 → respects (if decide P then m1 else m2).
Proof. by case_decide. Qed.

(** A possibly failing lookup: the continuation runs on its value only. *)
Lemma respects_of_option {A B} (e : Exn) (o : option A) (f : A → M B) :
  (∀ a, o = Some a → respects (f a)) → respects (of_option e o ≫= f).
Proof.
  intros Hf. destruct o as [a|]; simpl.
  - intros st Hst. destruct (Hf a eq_refl st Hst) as [Hs Ho].
    unfold respects_from in *. munfold.
    by destruct (f a st) as [[st2 out2] r].
  - intros st Hst. split; [done|constructor].
Qed.

Lemma respects_save_config : (∀ c, Q (SaveConfig c)) → respects save_config.
Proof.
  intros HQ. apply respects_get. intros st Hst. by apply respects_emit.
Qed.
End respects.

Lemma respects_from_intro {A} I Q (m : M A) st :
  respects I Q m → I st → respects_from I Q m st.
Proof. intros Hm Hst. by apply Hm. Qed.

Ltac respects_step :=
  lazymatch goal with
  | |- respects _ _ (get ≫= _) => apply respects_get; intros ? ?
  | |- respects _ _ (of_option _ _ ≫= _) => apply respects_of_option; intros ? ?
  | |- respects _ _ (_ ≫= _) => apply respects_bind; [|intros ?]
  | |- respects _ _ (mret _) => apply respects_ret
  | |- respects _ _ (raise _) => apply respects_raise
  | |- respects _ _ (emit _) => apply respects_emit
  | |- respects _ _ (modify _) => apply respects_modify; intros ? ?
  | |- respects _ _ (modify_config _) => apply respects_modify; intros ? ?
  | |- respects _ _ save_config => apply respects_save_config; intros ?
  | |- respects _ _ (if decide _ then _ else _) => apply respects_decide
  | |- respects _ _ (if _ then _ else _) => apply respects_if
  | |- respects _ _ (try_except _ _) => apply respects_try_except
  | |- respects_from _ _ _ _ => apply respects_from_intro; [|assumption]
  end.

(** *** Handlers that leave the queue alone

    [T] singles out the tracks that may be recorded and loaded; [I] is any
    invariant that the bookkeeping variables do not disturb and that admits
    such tracks as [now_playing_song] and in [current_playlist]. *)

Section tracks.
Context (I : Player → Prop) (Q : Effect → Prop) (T : string → Prop).
Hypothesis I_config : ∀ c st, I st → I (set_config c st).
Hypothesis I_path : ∀ p st, I st → I (set_current_path p st).
Hypothesis I_paused : ∀ b st, I st → I (set_is_paused b st).
Hypothesis I_index : ∀ i st, I st → I (set_current_song_index i st).
Hypothesis I_now : ∀ p st, I st → T p → I (set_now_playing_song (Some p) st).
Hypothesis I_playlist : ∀ l st, I st → Forall T l → I (set_current_playlist l st).
Hypothesis I_listed : ∀ p st, I st → p ∈ current_playlist st → T p.
Hypothesis Q_load : ∀ p, T p → Q (MusicLoad p).
Hypothesis Q_other : ∀ e, (∀ p, e ≠ MusicLoad p) → Q e.

Local Hint Resolve I_config I_path I_paused I_index I_now I_playlist : core.

Local Ltac other := apply Q_other; intros ?; discriminate.

Lemma play_song_respects w p : T p → respects I Q (play_song w p).
Proof.
  intros Hp. unfold play_song. repeat respects_step; auto; other.
Qed.

Lemma play_current_respects w : respects I Q (play_current w).
Proof.
  unfold play_current. do 3 respects_step.
  assert (T a) by eauto using getitem_elem_of.
  repeat respects_step; auto using play_song_respects.
Qed.

Lemma cmd_volume_up_respects : respects I Q cmd_volume_up.
Proof. unfold cmd_volume_up. repeat respects_step; auto; other. Qed.

Lemma cmd_volume_down_respects : respects I Q cmd_volume_down.
Proof. unfold cmd_volume_down. repeat respects_step; auto; other. Qed.

Lemma cmd_pause_respects w : respects I Q (cmd_pause w).
Proof. unfold cmd_pause. repeat respects_step; auto; other. Qed.

Lemma cmd_previous_respects w : respects I Q (cmd_previous w).
Proof.
  unfold cmd_previous. respects_step.
  destruct (current_playlist _); repeat respects_step;
    auto using play_current_respects.
Qed.

Lemma shuffle_Forall draws l : Forall T l → Forall T (Py.shuffle draws l).
Proof. intros Hl. by rewrite shuffle_Permutation. Qed.

Lemma sorted_Forall l : Forall T l → Forall T (Py.sorted l).
Proof. intros Hl. by rewrite sorted_Permutation. Qed.

Lemma cmd_shuffle_play_respects w vp :
  Forall T vp → respects I Q (cmd_shuffle_play w vp).
Proof.
  intros Hvp. unfold cmd_shuffle_play.
  destruct vp as [|v vs]; repeat respects_step;
    auto using play_current_respects, shuffle_Forall; other.
Qed.

Lemma rebuild_playlist_respects w vp :
  Forall T vp → respects I Q (rebuild_playlist w vp).
Proof.
  intros Hvp. unfold rebuild_playlist.
  repeat respects_step; auto using shuffle_Forall, sorted_Forall.
Qed.

Lemma cmd_toggle_shuffle_respects w vp :
  Forall T vp → respects I Q (cmd_toggle_shuffle w vp).
Proof.
  intros Hvp. unfold cmd_toggle_shuffle.
  apply respects_bind; [respects_step; auto|intros _].
  apply respects_bind; [respects_step; other|intros _].
  apply respects_bind; [by apply rebuild_playlist_respects|intros _].
  do 3 respects_step; [|respects_step].
  destruct (now_playing_song _); repeat respects_step; auto.
Qed.

Lemma cmd_quit_respects w : respects I Q (cmd_quit w).
Proof. unfold cmd_quit. repeat respects_step; auto; other. Qed.

Lemma cmd_next_page_respects s af : respects I Q (cmd_next_page s af).
Proof. unfold cmd_next_page. repeat respects_step; auto; other. Qed.

Lemma cmd_previous_page_respects : respects I Q cmd_previous_page.
Proof. unfold cmd_previous_page. repeat respects_step; auto; other. Qed.

Lemma cmd_select_respects w vp im choice :
  Forall T vp → respects I Q (cmd_select w vp im choice).
Proof.
  intros Hvp. unfold cmd_select. respects_step; [|respects_step; other].
  respects_step.
  destruct (im !! _) as [selected|]; [|respects_step; other].
  repeat respects_step;
    auto using rebuild_playlist_respects, play_current_respects; other.
Qed.

(** The part of the playlist step shared by the completion handler and
    ['>']. *)
Lemma advance_respects w i :
  respects I Q (modify (set_current_song_index i);; play_current w).
Proof. repeat respects_step; auto using play_current_respects. Qed.
End tracks.

(** ** The queue *)

Lemma bind_run {A B} (m : M A) (f : A → M B) st st1 out1 a st2 out2 r :
  m st = (st1, out1, Ok a) → f a st1 = (st2, out2, r) →
  (m ≫= f) st = (st2, out1 ++ out2, r).
Proof. intros Hm Hf. munfold. by rewrite Hm, Hf. Qed.

Lemma state_of_get_bind {A} (f : Player → M A) st :
  state_of ((get ≫= f) st) = state_of (f st st).
Proof. munfold. by destruct (f st st) as [[st2 out2] r]. Qed.

Lemma output_of_get_bind {A} (f : Player → M A) st :
  output_of ((get ≫= f) st) = output_of (f st st).
Proof. munfold. by destruct (f st st) as [[st2 out2] r]. Qed.

(** The answer to the ['add'] prompt names a menu entry that is a file. *)
Definition enqueued (w : World) (item_map : gmap Z string) (p : string) : Prop :=
  ∃ k, Py.int (Py.strip (input_add w)) = Some k
       ∧ item_map !! k = Some p ∧ isfile w p = true.

Lemma cmd_add_run w im p st :
  enqueued w im p →
  cmd_add w im st = (set_queue (queue st ++ [p]) st, [Print (AddedToQueue p)], Ok tt).
Proof.
  intros (k & Hk & Hp & Hfile). unfold cmd_add. rewrite Hk, Hp, Hfile.
  by munfold.
Qed.

Lemma cmd_add_cases w im st :
  (∃ p, enqueued w im p ∧ queue (state_of (cmd_add w im st)) = queue st ++ [p])
  ∨ state_of (cmd_add w im st) = st.
Proof.
  unfold cmd_add.
  destruct (Py.int _) as [k|] eqn:Hk; [|by right].
  destruct (im !! k) as [p|] eqn:Hp; [|by right].
  destruct (isfile w p) eqn:Hfile; [|by right].
  left. exists p. split; [by exists k|done].
Qed.

(** Every handler but ['add'], ['clear'], ['>'] and the completion handler
    leaves the queue as it is. *)
Section queue_kept.
Context (q : list string).
Let I (st : Player) : Prop := queue st = q.
Let Q (e : Effect) : Prop := True.
Let T (p : string) : Prop := True.

Local Ltac kept lem :=
  intros; first [apply (lem I Q T)|apply (lem I Q)]; done.

Lemma advance_keeps_queue w i :
  respects I Q (modify (set_current_song_index i);; play_current w).
Proof. kept advance_respects. Qed.

Lemma other_commands_keep_queue w vp af si im choice :
  choice ≠ "add" → choice ≠ "clear" → choice ≠ ">" →
  respects I Q (dispatch w vp af si im choice).
Proof.
  intros Hadd Hclear Hnext. unfold dispatch.
  rewrite (decide_False (P := choice = "add")) by done.
  rewrite (decide_False (P := choice = "clear")) by done.
  rewrite (decide_False (P := choice = ">")) by done.
  repeat (apply respects_decide;
          [apply respects_bind; [|intros; by apply respects_ret]|]);
    [..|apply respects_bind; [|intros; by apply respects_ret]].
  - kept cmd_volume_up_respects.
  - kept cmd_volume_down_respects.
  - kept cmd_pause_respects.
  - kept cmd_previous_respects.
  - apply (cmd_shuffle_play_respects I Q T); try done. by apply Forall_true.
  - apply (cmd_toggle_shuffle_respects I Q T); try done. by apply Forall_true.
  - kept cmd_quit_respects.
  - kept cmd_next_page_respects.
  - kept cmd_previous_page_respects.
  - apply (cmd_select_respects I Q T); try done. by apply Forall_true.
Qed.
End queue_kept.

(** What a pop for playback does to the queue. *)
Definition popped (st : Player) (r : Player * list Effect * Result unit) : Prop :=
  match queue st with
  | [] => queue (state_of r) = []
  | x :: rest => queue (state_of r) = rest ∧ MusicLoad x ∈ output_of r
  end.

Lemma on_userevent_popped w st : popped st (on_userevent w st).
Proof.
  unfold popped, on_userevent.
  rewrite state_of_get_bind, output_of_get_bind.
  destruct (queue st) as [|x rest] eqn:Hq.
  - destruct (current_playlist st) as [|y l]; [done|].
    by apply (advance_keeps_queue [] w _ st).
  - rewrite play_queue_head_run. split; [done|]. apply elem_of_cons. by left.
Qed.

Lemma cmd_next_popped w st : popped st (cmd_next w st).
Proof.
  unfold popped, cmd_next.
  rewrite state_of_get_bind, output_of_get_bind.
  destruct (queue st) as [|x rest] eqn:Hq.
  - destruct (current_playlist st) as [|y l]; [done|].
    case_decide; [done|]. by apply (advance_keeps_queue [] w _ st).
  - rewrite play_queue_head_run. split; [done|]. apply elem_of_cons. by left.
Qed.

Lemma state_of_then {A B} (m : M A) (b : B) st :
  state_of ((m;; mret b) st) = state_of (m st).
Proof. munfold. by destruct (m st) as [[st1 out1] [a|e]]. Qed.

Lemma output_of_then {A B} (m : M A) (b : B) st :
  output_of ((m;; mret b) st) = output_of (m st).
Proof.
  munfold. destruct (m st) as [[st1 out1] [a|e]]; [|done].
  simpl. by rewrite app_nil_r.
Qed.

Lemma dispatch_add w vp af si im :
  dispatch w vp af si im "add" = (cmd_add w im;; mret Continue).
Proof. reflexivity. Qed.

Lemma dispatch_clear w vp af si im :
  dispatch w vp af si im "clear" = (cmd_clear;; mret Continue).
Proof. reflexivity. Qed.

Lemma dispatch_next w vp af si im :
  dispatch w vp af si im ">" = (cmd_next w;; mret Continue).
Proof. reflexivity. Qed.

(** Two files queued on an empty queue, then two pops by [pop], which is
    ['>'] or the completion handler. *)
Lemma add_add_pop_pop (pop : World → M unit) wA wB w1 w2 imA imB A B st :
  (∀ w s x rest, queue s = x :: rest →
     pop w s = (mkPlayer (config s) (music_root s) (current_path s) (Some x)
                  (is_paused s) rest (current_playlist s) (-1),
                play_output w x, Ok tt)) →
  queue st = [] → enqueued wA imA A → enqueued wB imB B →
  (cmd_add wA imA;; cmd_add wB imB;; pop w1;; pop w2) st
  = (mkPlayer (config st) (music_root st) (current_path st) (Some B)
       (is_paused st) [] (current_playlist st) (-1),
     [Print (AddedToQueue A); Print (AddedToQueue B)]
       ++ play_output w1 A ++ play_output w2 B,
     Ok tt).
Proof.
  intros Hpop Hq HA HB.
  etrans.
  { eapply bind_run; [by apply cmd_add_run|].
    eapply bind_run; [by apply cmd_add_run|].
    eapply bind_run; [apply (Hpop _ _ A [B]); simpl; by rewrite Hq|].
    by apply (Hpop _ _ B []). }
  done.
Qed.

(** C9: the queue is first in, first out.  The completion handler and ['>']
    only take the head (to play it), ['add'] only appends one file at the
    tail, ['clear'] empties it and no other command changes it; two files
    queued on an empty queue are played in the order they were queued. *)
Theorem queue_is_fifo :
  (∀ w st, popped st (on_userevent w st))
  ∧ (∀ w vp af si im choice st,
       let r := dispatch w vp af si im choice st in
       queue (state_of r) = queue st
       ∨ (choice = "add"
          ∧ ∃ p, enqueued w im p ∧ queue (state_of r) = queue st ++ [p])
       ∨ (choice = ">"
          ∧ ∃ x, queue st = x :: queue (state_of r) ∧ MusicLoad x ∈ output_of r)
       ∨ (choice = "clear" ∧ queue (state_of r) = []))
  ∧ (∀ wA wB w1 w2 imA imB A B st,
       queue st = [] → enqueued wA imA A → enqueued wB imB B →
       queue (state_of ((cmd_add wA imA;; cmd_add wB imB) st)) = [A; B]
       ∧ ∀ pop, pop = cmd_next ∨ pop = on_userevent →
           let r := (cmd_add wA imA;; cmd_add wB imB;; pop w1;; pop w2) st in
           output_of r = [Print (AddedToQueue A); Print (AddedToQueue B)]
                           ++ play_output w1 A ++ play_output w2 B
           ∧ queue (state_of r) = []
           ∧ now_playing_song (state_of r) = Some B).
Proof.
  split; [apply on_userevent_popped|]. split.
  - intros w vp af si im choice st r.
    destruct (decide (choice = "add")) as [->|Hadd].
    { subst r. rewrite dispatch_add, state_of_then.
      destruct (cmd_add_cases w im st) as [Hp| ->]; [|by left].
      right. by left. }
    destruct (decide (choice = "clear")) as [->|Hclear].
    { right. right. right. split; [done|]. subst r.
      by rewrite dispatch_clear, state_of_then. }
    destruct (decide (choice = ">")) as [->|Hnext].
    { subst r. rewrite dispatch_next, state_of_then, output_of_then.
      pose proof (cmd_next_popped w st) as Hpop. unfold popped in Hpop.
      destruct (queue st) as [|x rest] eqn:Hq; [by left|].
      right. right. left. split; [done|]. exists x.
      destruct Hpop as [-> Hload]. by split. }
    left. by apply (other_commands_keep_queue (queue st) w vp af si im choice).
  - intros wA wB w1 w2 imA imB A B st Hq HA HB. split.
    { rewrite (bind_run _ _ _ _ _ _ _ _ _
                 (cmd_add_run wA imA A st HA) (cmd_add_run wB imB B _ HB)).
      simpl. by rewrite Hq. }
    intros pop Hpop r. subst r.
    rewrite (add_add_pop_pop pop wA wB w1 w2 imA imB A B st); [done| |done..].
    intros w s x rest Hs.
    destruct Hpop as [-> | ->];
      [by apply cmd_next_queue_head|by apply on_userevent_queue_head].
Qed.

Lemma queue_is_fifo_witness :
  let wA := mkWorld [] (λ _, true) false (λ _, Listed []) (λ _, Some RegularFile)
              "add" "1" [] in
  let wB := mkWorld [] (λ _, true) false (λ _, Listed []) (λ _, Some RegularFile)
              "add" " 2 " [] in
  let w := world_of (λ _, true) true in
  let im : gmap Z string := <[2 := "/m/b.mp3"]> (<[1 := "/m/a.mp3"]> ∅) in
  output_of ((cmd_add wA im;; cmd_add wB im;; cmd_next w;; cmd_next w)
               (initial sample_config "/m"))
  = [Print (AddedToQueue "/m/a.mp3"); Print (AddedToQueue "/m/b.mp3");
     MusicLoad "/m/a.mp3"; MusicPlay; MusicLoad "/m/b.mp3"; MusicPlay].
Proof.
  intros wA wB w im.
  assert (HA : enqueued wA im "/m/a.mp3").
  { exists 1. split; [reflexivity|]. split; [|reflexivity].
    unfold im. rewrite lookup_insert_ne by discriminate. apply lookup_insert_eq. }
  assert (HB : enqueued wB im "/m/b.mp3").
  { exists 2. split; [reflexivity|]. split; [|reflexivity].
    unfold im. apply lookup_insert_eq. }
  destruct queue_is_fifo as (_ & _ & Hfifo).
  destruct (Hfifo wA wB w w im im "/m/a.mp3" "/m/b.mp3"
              (initial sample_config "/m") eq_refl HA HB) as (_ & Hpop).
  destruct (Hpop cmd_next (or_introl eq_refl)) as (Hout & _).
  exact Hout.
Defined.

(** ** Strings and paths *)

Lemma chars_app s1 s2 : Py.chars (s1 +:+ s2) = Py.chars s1 ++ Py.chars s2.
Proof. induction s1 as [|c s1 IH]; simpl; [done|]. by rewrite <-IH. Qed.

Lemma chars_inj s1 s2 : Py.chars s1 = Py.chars s2 → s1 = s2.
Proof.
  intros Heq. rewrite <-(string_of_list_ascii_of_string s1),
    <-(string_of_list_ascii_of_string s2). unfold Py.chars in Heq. by rewrite Heq.
Qed.

Lemma endswith_suffix s e :
  Py.endswith s e = true ↔ Py.chars e `suffix_of` Py.chars s.
Proof. unfold Py.endswith. apply bool_decide_eq_true. Qed.

(** [s.endswith(e)] holds exactly when [s] is some text followed by [e]. *)
Lemma endswith_spec s e : Py.endswith s e = true ↔ ∃ base, s = base +:+ e.
Proof.
  rewrite endswith_suffix. split.
  - intros [k Hk]. exists (string_of_list_ascii k). apply chars_inj.
    rewrite chars_app. unfold Py.chars at 2.
    by rewrite list_ascii_of_string_of_list_ascii.
  - intros [base ->]. exists (Py.chars base). apply chars_app.
Qed.

Lemma endswith_any_spec s exts :
  Py.endswith_any s exts = true ↔ ∃ e, e ∈ exts ∧ Py.endswith s e = true.
Proof.
  unfold Py.endswith_any. rewrite existsb_exists.
  by setoid_rewrite list_elem_of_In.
Qed.

(** The joined path ends with the name it was joined with. *)
Lemma join_suffix a b : Py.chars b `suffix_of` Py.chars (OsPath.join a b).
Proof.
  unfold OsPath.join.
  destruct (Py.startswith b "/"); [reflexivity|].
  case_decide; [reflexivity|].
  destruct (Py.endswith a "/").
  - exists (Py.chars a). apply chars_app.
  - exists (Py.chars a ++ Py.chars "/"). by rewrite !chars_app, (assoc_L (++)).
Qed.

Lemma endswith_join a b e :
  Py.endswith b e = true → Py.endswith (OsPath.join a b) e = true.
Proof.
  rewrite !endswith_suffix. intros Hb. etrans; [exact Hb|apply join_suffix].
Qed.

Lemma endswith_any_join a b exts :
  Py.endswith_any b exts = true → Py.endswith_any (OsPath.join a b) exts = true.
Proof.
  rewrite !endswith_any_spec. intros (e & He & Hb).
  exists e. split; [done|]. by apply endswith_join.
Qed.

(** ** The directory listing *)

Lemma elem_of_filter_bool {A} (f : A → bool) (l : list A) x :
  x ∈ List.filter f l ↔ x ∈ l ∧ f x = true.
Proof. rewrite !list_elem_of_In. apply filter_In. Qed.

Lemma elem_of_sorted x l : x ∈ Py.sorted l ↔ x ∈ l.
Proof. by rewrite sorted_Permutation. Qed.

(** A directory whose name carries an audio extension. *)
Definition live_world : World :=
  mkWorld [] (λ _, true) false
    (λ _, Listed ["b.mp3"; "live.mp3"; "a"])
    (λ p, if decide (p = "/m/b.mp3") then Some RegularFile else Some Directory)
    "" "" [].

(** C5 as stated fails: the directory [live.mp3] is listed both as a
    subfolder and as an audio file, although it is not a regular file. *)
Lemma listing_overlap :
  let all_contents := Py.sorted ["b.mp3"; "live.mp3"; "a"] in
  folders_of live_world "/m" all_contents = ["a"; "live.mp3"]
  ∧ audio_files_of all_contents = ["b.mp3"; "live.mp3"]
  ∧ isfile live_world (OsPath.join "/m" "live.mp3") = false
  ∧ ¬ (∀ x, x ∈ folders_of live_world "/m" all_contents →
            x ∉ audio_files_of all_contents).
Proof.
  intros all_contents.
  assert (Hf : folders_of live_world "/m" all_contents = ["a"; "live.mp3"])
    by by vm_compute.
  assert (Ha : audio_files_of all_contents = ["b.mp3"; "live.mp3"])
    by by vm_compute.
  split; [done|]. split; [done|]. split; [by vm_compute|].
  rewrite Hf, Ha. intros Hdisjoint.
  apply (Hdisjoint "live.mp3"); apply elem_of_cons; right; apply elem_of_cons; by left.
Qed.

(** C5, as the code has it: of the names [os.listdir] answers, the
    subfolders are exactly those that are directories and the audio files
    are exactly those that end with a recognised extension, whatever kind of
    entry they are; both lists are in ascending order.  They share no name
    when no directory carries an audio extension, and then, provided the
    entries with an audio extension are regular files, the audio files are
    exactly the regular files with a recognised extension. *)
Theorem listing_partition (w : World) (cp : string) (names : list string) :
  let all_contents := Py.sorted names in
  let folders := folders_of w cp all_contents in
  let audio_files := audio_files_of all_contents in
  (∀ d, d ∈ folders ↔ d ∈ names ∧ isdir w (OsPath.join cp d) = true)
  ∧ (∀ f, f ∈ audio_files ↔
          f ∈ names ∧ ∃ e base, e ∈ audio_extensions ∧ f = base +:+ e)
  ∧ StronglySorted String.le folders
  ∧ StronglySorted String.le audio_files
  ∧ (NoDup names → NoDup folders ∧ NoDup audio_files)
  ∧ ((∀ f, f ∈ audio_files → isfile w (OsPath.join cp f) = true) →
     (∀ x, x ∈ folders → x ∉ audio_files)
     ∧ (∀ f, f ∈ audio_files ↔
             f ∈ names ∧ isfile w (OsPath.join cp f) = true
             ∧ Py.endswith_any f audio_extensions = true)).
Proof.
  intros all_contents folders audio_files.
  assert (Hfold : ∀ d, d ∈ folders ↔ d ∈ names ∧ isdir w (OsPath.join cp d) = true).
  { intros d. unfold folders, folders_of. rewrite elem_of_filter_bool.
    unfold all_contents. by rewrite elem_of_sorted. }
  assert (Haud : ∀ f, f ∈ audio_files ↔
                      f ∈ names ∧ Py.endswith_any f audio_extensions = true).
  { intros f. unfold audio_files, audio_files_of. rewrite elem_of_filter_bool.
    unfold all_contents. by rewrite elem_of_sorted. }
  split; [done|]. split.
  { intros f. rewrite Haud, endswith_any_spec. split.
    - intros (Hn & e & He & [base ->]%endswith_spec). eauto.
    - intros (Hn & e & base & He & ->). split; [done|].
      exists e. split; [done|]. apply endswith_spec. eauto. }
  split; [apply filter_StronglySorted, sorted_StronglySorted|].
  split; [apply filter_StronglySorted, sorted_StronglySorted|].
  split.
  { intros Hnd.
    assert (NoDup all_contents) as Hnd'
      by (unfold all_contents; by rewrite sorted_Permutation).
    split; apply NoDup_ListNoDup, List.NoDup_filter; by apply NoDup_ListNoDup. }
  intros Hfiles. split.
  - intros x [_ Hdir]%Hfold Hx. apply Hfiles in Hx.
    unfold isdir, isfile in *. by destruct (stat w (OsPath.join cp x)) as [[]|].
  - intros f. rewrite Haud. split; [|by intros (Hn & _ & He)].
    intros [Hn He]. split; [done|]. split; [|done].
    apply Hfiles, Haud. by split.
Qed.

(** The directory of section 8 of the specification, shown at the root:
    two subfolders and two audio files. *)
Definition album_world (choice add : string) : World :=
  mkWorld [] (λ _, true) false
    (λ _, Listed ["2.mp3"; "B"; "1.mp3"; "A"; "cover.jpg"])
    (λ p, if Py.endswith p ".mp3" || Py.endswith p ".jpg"
          then Some RegularFile else Some Directory)
    choice add [].

Lemma listing_partition_witness :
  let all_contents := Py.sorted ["2.mp3"; "B"; "1.mp3"; "A"; "cover.jpg"] in
  ("1.mp3" ∈ audio_files_of all_contents
   ↔ "1.mp3" ∈ ["2.mp3"; "B"; "1.mp3"; "A"; "cover.jpg"]
     ∧ isfile (album_world "" "") (OsPath.join "/m" "1.mp3") = true
     ∧ Py.endswith_any "1.mp3" audio_extensions = true)
  ∧ NoDup (audio_files_of all_contents).
Proof.
  intros all_contents.
  destruct (listing_partition (album_world "" "") "/m"
              ["2.mp3"; "B"; "1.mp3"; "A"; "cover.jpg"])
    as (_ & _ & _ & _ & Hnd & Hfiles).
  split.
  - apply Hfiles. intros f Hf.
    repeat (apply elem_of_cons in Hf as [->|Hf]; [reflexivity|]).
    by apply elem_of_nil in Hf.
  - apply Hnd. apply NoDup_ListNoDup.
    repeat (constructor; [simpl; intuition discriminate|]). constructor.
Defined.

Example album_listing :
  let all_contents := Py.sorted ["2.mp3"; "B"; "1.mp3"; "A"; "cover.jpg"] in
  let st := initial sample_config "/m" in
  folders_of (album_world "" "") "/m" all_contents = ["A"; "B"]
  ∧ audio_files_of all_contents = ["1.mp3"; "2.mp3"]
  ∧ (λ k, item_map_of st ["A"; "B"] ["1.mp3"; "2.mp3"] !! k) <$> [0; 1; 2; 3; 4; 5]
    = [None; Some "/m/A"; Some "/m/B"; Some "/m/1.mp3"; Some "/m/2.mp3"; None].
Proof.
  intros all_contents st. split; [by vm_compute|]. split; [by vm_compute|].
  by vm_compute.
Qed.

(** ** Case of the extension *)

(** [s] ends with an upper-case or mixed-case spelling [v] of a recognised
    extension [e]: the same letters, not all of them in lower case. *)
Definition ends_with_variant (s : string) : Prop :=
  ∃ e base v, e ∈ audio_extensions ∧ s = base +:+ v ∧ Py.lower v = e ∧ v ≠ e.

Lemma chars_lower s : Py.chars (Py.lower s) = Py.lower_char <$> Py.chars s.
Proof. induction s as [|c s IH]; [done|]. cbn. f_equal. exact IH. Qed.

Lemma fmap_fixed {A} (f : A → A) (l : list A) :
  Forall (λ x, f x = x) l → f <$> l = l.
Proof. induction 1 as [|x l Hx _ IH]; [done|]. cbn. by f_equal. Qed.

Lemma suffix_fmap {A B} (f : A → B) (l1 l2 : list A) :
  l1 `suffix_of` l2 → (f <$> l1) `suffix_of` (f <$> l2).
Proof. intros [k ->]. exists (f <$> k). apply fmap_app. Qed.

Lemma suffix_Forall {A} (P : A → Prop) (l1 l2 : list A) :
  l1 `suffix_of` l2 → Forall P l2 → Forall P l1.
Proof. intros [k ->] Hl. by apply Forall_app in Hl as [_ Hl]. Qed.

(** The recognised extensions are written in lower case, none is the end of
    another, and each has at least four characters. *)
Lemma extensions_lower :
  Forall (λ e, Forall (λ c, Py.lower_char c = c) (Py.chars e)) audio_extensions.
Proof. apply (bool_decide_unpack _). by vm_compute. Qed.

Lemma extensions_no_suffix :
  Forall (λ e', Forall (λ e, Py.chars e' `suffix_of` Py.chars e → e' = e)
                  audio_extensions) audio_extensions.
Proof. apply (bool_decide_unpack _). by vm_compute. Qed.

Lemma extensions_length :
  Forall (λ e, (4 ≤ length (Py.chars e))%nat) audio_extensions.
Proof. apply (bool_decide_unpack _). by vm_compute. Qed.

Lemma variant_length v e :
  Py.lower v = e → length (Py.chars v) = length (Py.chars e).
Proof. intros <-. by rewrite chars_lower, length_fmap. Qed.

(** A name spelt with such a variant does not pass the test of line 251. *)
Lemma variant_not_audio s :
  ends_with_variant s → Py.endswith_any s audio_extensions = false.
Proof.
  intros (e & base & v & He & -> & Hlow & Hne).
  destruct (Py.endswith_any _ _) eqn:Hany; [exfalso|done].
  apply endswith_any_spec in Hany as (e' & He' & Hs%endswith_suffix).
  rewrite chars_app in Hs.
  assert (Hv : Py.chars v `suffix_of` Py.chars base ++ Py.chars v)
    by by exists (Py.chars base).
  pose proof extensions_lower as Hlower. rewrite Forall_forall in Hlower.
  destruct (suffix_weak_total _ _ _ Hs Hv) as [Hev|Hve].
  - apply (suffix_fmap Py.lower_char) in Hev as Hev'.
    rewrite <-(chars_lower v), Hlow, (fmap_fixed _ _ (Hlower e' He')) in Hev'.
    pose proof extensions_no_suffix as Hno. rewrite Forall_forall in Hno.
    specialize (Hno e' He'). rewrite Forall_forall in Hno.
    apply (Hno e He) in Hev'. subst e'.
    apply Hne. symmetry. apply chars_inj, suffix_length_eq; [done|].
    by rewrite (variant_length v e).
  - apply Hne. rewrite <-Hlow. apply chars_inj. rewrite chars_lower.
    symmetry. apply fmap_fixed. eapply suffix_Forall; [exact Hve|by apply Hlower].
Qed.

Lemma variant_join cp name :
  ends_with_variant name → ends_with_variant (OsPath.join cp name).
Proof.
  intros (e & base & v & He & -> & Hlow & Hne).
  destruct (join_suffix cp (base +:+ v)) as [k Hk].
  exists e, (string_of_list_ascii k +:+ base), v. split; [done|].
  split; [|done]. apply chars_inj.
  rewrite Hk, !chars_app. unfold Py.chars at 3.
  by rewrite list_ascii_of_string_of_list_ascii, (assoc_L (++)).
Qed.

Lemma variant_not_parent s : ends_with_variant s → s ≠ "..".
Proof.
  intros (e & base & v & He & -> & Hlow & Hne) Heq.
  pose proof extensions_length as Hlen. rewrite Forall_forall in Hlen.
  specialize (Hlen e He). rewrite <-(variant_length v e Hlow) in Hlen.
  apply (f_equal (λ s, length (Py.chars s))) in Heq.
  rewrite chars_app, length_app in Heq. simpl in Heq. lia.
Qed.

(** ** What the player ever records or loads *)

(** The paths that can come off the menu as something to queue or play: an
    entry of the audio listing, or the parent marker (which ['add'] would
    queue if [".."] were a regular file). *)
Definition menu_track (p : string) : Prop :=
  Py.endswith_any p audio_extensions = true ∨ p = "..".

Definition sources (st : Player) : list string :=
  queue st ++ current_playlist st ++ option_list (now_playing_song st).

Definition tracked (st : Player) : Prop := Forall menu_track (sources st).

Definition loads_tracked (e : Effect) : Prop :=
  ∀ p, e = MusicLoad p → menu_track p.

Lemma tracked_parts st :
  tracked st ↔
  Forall menu_track (queue st) ∧ Forall menu_track (current_playlist st)
  ∧ ∀ p, now_playing_song st = Some p → menu_track p.
Proof.
  unfold tracked, sources. rewrite !Forall_app.
  destruct (now_playing_song st) as [q|]; simpl.
  - rewrite Forall_singleton. split.
    + intros (Hq & Hl & Hn). split; [done|]. split; [done|]. by intros p [= <-].
    + intros (Hq & Hl & Hn). split; [done|]. split; [done|]. by apply Hn.
  - split.
    + intros (Hq & Hl & _). by split.
    + intros (Hq & Hl & _). split; [done|]. split; [done|]. constructor.
Qed.

Section tracked.
Local Ltac parts := rewrite tracked_parts in *; unfold_setters; simpl in *.

Lemma tracked_config c st : tracked st → tracked (set_config c st).
Proof. done. Qed.
Lemma tracked_path p st : tracked st → tracked (set_current_path p st).
Proof. done. Qed.
Lemma tracked_paused b st : tracked st → tracked (set_is_paused b st).
Proof. done. Qed.
Lemma tracked_index i st : tracked st → tracked (set_current_song_index i st).
Proof. done. Qed.
Lemma tracked_now p st :
  tracked st → menu_track p → tracked (set_now_playing_song (Some p) st).
Proof.
  intros Hst Hp. parts. destruct Hst as (Hq & Hl & _).
  split; [done|]. split; [done|]. by intros ? [= <-].
Qed.
Lemma tracked_playlist l st :
  tracked st → Forall menu_track l → tracked (set_current_playlist l st).
Proof. intros Hst Hl. parts. destruct Hst as (Hq & _ & Hn). by split. Qed.
Lemma tracked_listed p st : tracked st → p ∈ current_playlist st → menu_track p.
Proof.
  intros Hst Hp. parts. destruct Hst as (_ & Hl & _).
  rewrite Forall_forall in Hl. by apply Hl.
Qed.
Lemma tracked_queue q st :
  tracked st → Forall menu_track q → tracked (set_queue q st).
Proof. intros Hst Hq. parts. destruct Hst as (_ & Hl & Hn). by split. Qed.
Lemma tracked_queue_head x rest st :
  tracked st → queue st = x :: rest → menu_track x ∧ Forall menu_track rest.
Proof.
  intros Hst Hx. parts. destruct Hst as (Hq & _). rewrite Hx in Hq.
  by apply Forall_cons in Hq.
Qed.

Lemma loads_tracked_load p : menu_track p → loads_tracked (MusicLoad p).
Proof. by intros Hp ? [= <-]. Qed.
Lemma loads_tracked_other e : (∀ p, e ≠ MusicLoad p) → loads_tracked e.
Proof. intros He p ->. by destruct (He p). Qed.
End tracked.

(** The menu (lines 265-283) holds the parent marker, the folders and the
    audio files of the current page, and nothing else. *)
Lemma add_items_lookup entries acc k p :
  (add_items entries acc).1 !! k = Some p → acc.1 !! k = Some p ∨ p ∈ entries.
Proof.
  revert acc. induction entries as [|x entries IH]; intros acc; simpl; [by left|].
  intros [Hacc|Hin]%IH; [|right; by apply elem_of_cons; right].
  simpl in Hacc. apply lookup_insert_Some in Hacc as [[_ <-]|[_ Hacc]].
  - right. apply elem_of_cons. by left.
  - by left.
Qed.

Lemma item_map_of_lookup st folders paginated k p :
  item_map_of st folders paginated !! k = Some p →
  p = ".."
  ∨ (∃ d, d ∈ folders ∧ p = OsPath.join (current_path st) d)
  ∨ (∃ f, f ∈ paginated ∧ p = OsPath.join (current_path st) f).
Proof.
  unfold item_map_of. intros [[Hparent|Hd]%add_items_lookup|Hf]%add_items_lookup.
  - left. case_decide; simpl in Hparent.
    + by rewrite lookup_empty in Hparent.
    + apply lookup_insert_Some in Hparent as [[_ <-]|[_ Hparent]]; [done|].
      by rewrite lookup_empty in Hparent.
  - right. left. apply list_elem_of_fmap in Hd as (d & -> & Hd). eauto.
  - right. right. apply list_elem_of_fmap in Hf as (f & -> & Hf). eauto.
Qed.

Lemma view_playlist_tracks cp all_contents :
  Forall menu_track (view_playlist_of cp (audio_files_of all_contents)).
Proof.
  rewrite Forall_forall. intros p (f & -> & Hf)%list_elem_of_fmap.
  apply elem_of_filter_bool in Hf as [_ Hf]. left. by apply endswith_any_join.
Qed.

(** Whatever ['add'] can queue from the menu of a listing is a menu track:
    a folder entry is a directory, hence not a file. *)
Lemma menu_files_track w st all_contents k p :
  item_map_of st (folders_of w (current_path st) all_contents)
    (paginated_of (config st) (audio_files_of all_contents)) !! k = Some p →
  isfile w p = true → menu_track p.
Proof.
  intros [->|[(d & Hd & ->)|(f & Hf & ->)]]%item_map_of_lookup Hfile.
  - by right.
  - apply elem_of_filter_bool in Hd as [_ Hd]. unfold isdir, isfile in *.
    by destruct (stat w _) as [[]|].
  - apply slice_subseteq, elem_of_filter_bool in Hf as [_ Hf].
    left. by apply endswith_any_join.
Qed.

Section loop_tracked.
Local Abbreviation ok := (respects tracked loads_tracked).

Local Ltac instance lem :=
  first [ apply (lem tracked loads_tracked menu_track)
        | apply (lem tracked loads_tracked) ];
  try first
    [ exact tracked_config | exact tracked_path | exact tracked_paused
    | exact tracked_index | exact tracked_now | exact tracked_playlist
    | exact tracked_listed | exact loads_tracked_load
    | exact loads_tracked_other | assumption ].

Lemma play_queue_head_tracked w st x rest :
  tracked st → queue st = x :: rest →
  respects_from tracked loads_tracked (play_queue_head w x rest) st.
Proof.
  intros Hst Hq. destruct (tracked_queue_head _ _ _ Hst Hq) as [Hx Hrest].
  unfold respects_from. rewrite play_queue_head_run. split.
  - apply tracked_parts in Hst as (_ & Hl & _). apply tracked_parts. simpl.
    split; [done|]. split; [done|]. by intros ? [= <-].
  - unfold play_output. constructor; [by apply loads_tracked_load|].
    destruct (load_ok w x); apply Forall_singleton; by apply loads_tracked_other.
Qed.

Lemma on_userevent_tracked w : ok (on_userevent w).
Proof.
  unfold on_userevent. respects_step.
  destruct (queue _) as [|x rest] eqn:Hq; [|by apply play_queue_head_tracked].
  respects_step. destruct (current_playlist _); [respects_step|].
  instance advance_respects.
Qed.

Lemma poll_events_tracked w : ok (poll_events w).
Proof.
  unfold poll_events. apply respects_for_each.
  intros [|]; [apply on_userevent_tracked|respects_step].
Qed.

Lemma cmd_next_tracked w : ok (cmd_next w).
Proof.
  unfold cmd_next. respects_step.
  destruct (queue _) as [|x rest] eqn:Hq; [|by apply play_queue_head_tracked].
  respects_step. destruct (current_playlist _); [respects_step|].
  respects_step; [respects_step|]. instance advance_respects.
Qed.

Lemma cmd_add_tracked w im :
  (∀ k p, im !! k = Some p → isfile w p = true → menu_track p) →
  ok (cmd_add w im).
Proof.
  intros Him. unfold cmd_add.
  destruct (Py.int _) as [k|];
    [|respects_step; by apply loads_tracked_other].
  destruct (im !! k) as [p|] eqn:Hp;
    [|respects_step; by apply loads_tracked_other].
  destruct (isfile w p) eqn:Hfile;
    [|respects_step; by apply loads_tracked_other].
  repeat respects_step; [|by apply loads_tracked_other].
  apply tracked_queue; [done|]. apply Forall_app. split.
  - match goal with
    | Hst : tracked _ |- _ => by apply tracked_parts in Hst as (Hq & _)
    end.
  - apply Forall_singleton. by eapply Him.
Qed.

Lemma cmd_clear_tracked : ok cmd_clear.
Proof.
  unfold cmd_clear. repeat respects_step; [|by apply loads_tracked_other].
  by apply tracked_queue.
Qed.

Lemma dispatch_tracked w vp af si im choice :
  Forall menu_track vp →
  (∀ k p, im !! k = Some p → isfile w p = true → menu_track p) →
  ok (dispatch w vp af si im choice).
Proof.
  intros Hvp Him. unfold dispatch.
  repeat (apply respects_decide;
          [apply respects_bind; [|intros; by apply respects_ret]|]);
    [..|apply respects_bind; [|intros; by apply respects_ret]].
  - by apply cmd_add_tracked.
  - apply cmd_clear_tracked.
  - instance cmd_volume_up_respects.
  - instance cmd_volume_down_respects.
  - instance cmd_pause_respects.
  - apply cmd_next_tracked.
  - instance cmd_previous_respects.
  - instance cmd_shuffle_play_respects.
  - instance cmd_toggle_shuffle_respects.
  - instance cmd_quit_respects.
  - instance cmd_next_page_respects.
  - instance cmd_previous_page_respects.
  - instance cmd_select_respects.
Qed.

Lemma iteration_tracked w : ok (iteration w).
Proof.
  unfold iteration. apply respects_bind; [apply poll_events_tracked|intros _].
  do 2 respects_step.
  destruct (listdir w _) as [names| |].
  - apply dispatch_tracked; [apply view_playlist_tracks|].
    intros k p. apply menu_files_track.
  - repeat respects_step. by apply loads_tracked_other.
  - respects_step.
Qed.

Lemma run_tracked ws : ok (run ws).
Proof.
  induction ws as [|w ws IH]; intros st Hst; simpl.
  - split; [done|constructor].
  - destruct (iteration_tracked w st Hst) as [Hs Ho].
    unfold respects_from in *.
    destruct (iteration w st) as [[st1 out1] [[| |]|e]]; try done.
    destruct (IH st1 Hs) as [Hs2 Ho2].
    destruct (run ws st1) as [[st2 out2] r]. split; [done|].
    apply Forall_app. by split.
Qed.
End loop_tracked.

Lemma variant_not_menu_track p : ends_with_variant p → ¬ menu_track p.
Proof.
  intros Hp [Hext| ->].
  - by rewrite (variant_not_audio p Hp) in Hext.
  - by apply variant_not_parent in Hp.
Qed.

Lemma initial_tracked c root : tracked (initial c root).
Proof. constructor. Qed.

(** C10: the extension test is case sensitive.  A name that ends with an
    upper-case or mixed-case spelling of a recognised extension fails the
    test, is in no audio listing and in no view playlist, is on the menu
    only if it is a directory (as a folder entry), and, whatever the user
    and the collaborators do from the start of the loop on, its path is
    never queued, never in the playlist, never now playing and never handed
    to the mixer. *)
Theorem variant_extension_never_played (name : string) :
  ends_with_variant name →
  Py.endswith_any name audio_extensions = false
  ∧ (∀ all_contents, name ∉ audio_files_of all_contents)
  ∧ (∀ dir cp all_contents,
       OsPath.join dir name ∉ view_playlist_of cp (audio_files_of all_contents))
  ∧ (∀ dir w st all_contents k,
       item_map_of st (folders_of w (current_path st) all_contents)
         (paginated_of (config st) (audio_files_of all_contents)) !! k
       = Some (OsPath.join dir name) →
       isdir w (OsPath.join dir name) = true
       ∧ isfile w (OsPath.join dir name) = false)
  ∧ (∀ dir c root ws,
       let r := run ws (initial c root) in
       let p := OsPath.join dir name in
       (p ∉ queue (state_of r))
       ∧ (p ∉ current_playlist (state_of r))
       ∧ now_playing_song (state_of r) ≠ Some p
       ∧ (MusicLoad p ∉ output_of r)).
Proof.
  intros Hname.
  assert (Hpath : ∀ dir, ¬ menu_track (OsPath.join dir name)).
  { intros dir. by apply variant_not_menu_track, variant_join. }
  split; [by apply variant_not_audio|]. split.
  { intros all_contents [_ Hext]%elem_of_filter_bool.
    by rewrite (variant_not_audio name Hname) in Hext. }
  split.
  { intros dir cp all_contents Hin. apply (Hpath dir).
    pose proof (view_playlist_tracks cp all_contents) as Hvp.
    rewrite Forall_forall in Hvp. by apply Hvp. }
  split.
  { intros dir w st all_contents k Hk.
    assert (Hdir : isdir w (OsPath.join dir name) = true).
    { apply item_map_of_lookup in Hk as [Hp|[(d & Hd & Hp)|(f & Hf & Hp)]].
      - destruct (Hpath dir). by right.
      - rewrite Hp. by apply elem_of_filter_bool in Hd as [_ Hd].
      - destruct (Hpath dir). left. rewrite Hp.
        apply slice_subseteq, elem_of_filter_bool in Hf as [_ Hf].
        by apply endswith_any_join. }
    split; [done|]. unfold isdir, isfile in *.
    by destruct (stat w _) as [[]|]. }
  intros dir c root ws r p.
  destruct (run_tracked ws (initial c root) (initial_tracked c root))
    as [Hst Hout].
  fold r in Hst, Hout. apply tracked_parts in Hst as (Hq & Hl & Hn).
  rewrite Forall_forall in Hq. rewrite Forall_forall in Hl.
  rewrite Forall_forall in Hout.
  split; [intros Hin; by apply (Hpath dir), Hq|].
  split; [intros Hin; by apply (Hpath dir), Hl|].
  split; [intros Hin; by apply (Hpath dir), Hn|].
  intros Hin. by apply (Hpath dir), (Hout _ Hin).
Qed.

(** A session in a directory that holds [SONG.MP3] next to [a.mp3], with a
    completion signal pending at every turn: the user queues entry 1 (the
    signal of the next turn plays it), asks for entry 2, which is not on
    the menu, asks for the next track and shuffles. *)
Definition caps_world (choice add : string) : World :=
  mkWorld [USEREVENT] (λ _, true) true
    (λ _, Listed ["SONG.MP3"; "a.mp3"]) (λ _, Some RegularFile)
    choice add [0%nat].

Definition caps_session : list World :=
  [caps_world "add" "1"; caps_world "2" ""; caps_world ">" ""; caps_world "s" ""].

Lemma variant_extension_never_played_witness :
  Py.endswith_any "SONG.MP3" audio_extensions = false
  ∧ (MusicLoad "/m/SONG.MP3" ∉ output_of (run caps_session (initial sample_config "/m"))).
Proof.
  assert (Hname : ends_with_variant "SONG.MP3").
  { exists ".mp3", "SONG", ".MP3". split; [apply elem_of_cons; by left|].
    split; [reflexivity|]. split; [reflexivity|discriminate]. }
  destruct (variant_extension_never_played "SONG.MP3" Hname)
    as (Hext & _ & _ & _ & Hrun).
  split; [exact Hext|].
  destruct (Hrun "/m" sample_config "/m" caps_session) as (_ & _ & _ & Hload).
  exact Hload.
Defined.

Example caps_session_run :
  let r := run caps_session (initial sample_config "/m") in
  output_of r
  = [Print (AddedToQueue "/m/a.mp3");
     MusicLoad "/m/a.mp3"; MusicPlay; Print InvalidNumber;
     SaveConfig (set_shuffle_on true sample_config);
     MusicLoad "/m/a.mp3"; MusicPlay]
  ∧ current_playlist (state_of r) = ["/m/a.mp3"].
Proof. split; by vm_compute. Qed.

(** ** Volume

    The volume is a binary64 number and the step is the binary64 value next
    to one tenth, so a step is a rounded addition.  The examples run the two
    handlers at some volumes: [0x1.3333333333333p-1] is what Python prints
    as [0.6], [0x1.6666666666666p-1] as [0.7], [0x1.999999999999ap-1] as
    [0.8] and [0x1.9999999999999p-1] as [0.7999999999999999]. *)

Definition at_volume (v : float) : Player :=
  initial (set_volume v sample_config) "/m".

Example volume_up_from_half :
  cmd_volume_up (at_volume 0.5%float)
  = (at_volume 0x1.3333333333333p-1%float,
     [MusicSetVolume 0x1.3333333333333p-1%float;
      SaveConfig (set_volume 0x1.3333333333333p-1%float sample_config)],
     Ok tt).
Proof. by vm_compute. Qed.

Example volume_up_at_top :
  state_of (cmd_volume_up (at_volume 1%float)) = at_volume 1%float.
Proof. by vm_compute. Qed.

Example volume_down_at_bottom :
  state_of (cmd_volume_down (at_volume 0%float)) = at_volume 0%float.
Proof. by vm_compute. Qed.

Example volume_up_rounds :
  state_of (cmd_volume_up (at_volume 0x1.6666666666666p-1%float))
  = at_volume 0x1.9999999999999p-1%float
  ∧ PrimFloat.eqb 0x1.9999999999999p-1%float 0x1.999999999999ap-1%float = false.
Proof. split; by vm_compute. Qed.

(** * Further properties of the loop *)

Lemma then_run {A B} (m : M A) (b : B) st st1 out a :
  m st = (st1, out, Ok a) → (m;; mret b) st = (st1, out, Ok b).
Proof. intros Hm. munfold. rewrite Hm. by rewrite app_nil_r. Qed.

Lemma poll_no_events w st : event_get w = [] → poll_events w st = (st, [], Ok tt).
Proof. intros Hev. unfold poll_events. by rewrite Hev. Qed.

(** What the loop body computes from the listing before it reads the
    command (lines 245-283). *)
Definition menu_of (w : World) (st : Player) (names : list string) : gmap Z string :=
  item_map_of st (folders_of w (current_path st) (Py.sorted names))
    (paginated_of (config st) (audio_files_of (Py.sorted names))).

Definition choice_of (w : World) : string := Py.lower (Py.strip (input_choice w)).

(** With no pygame event pending and a readable directory, the body is the
    dispatch of the command on the unchanged state. *)
Lemma iteration_listed w st names :
  event_get w = [] → listdir w (current_path st) = Listed names →
  iteration w st
  = dispatch w
      (view_playlist_of (current_path st) (audio_files_of (Py.sorted names)))
      (audio_files_of (Py.sorted names)) (start_index_of (config st))
      (menu_of w st names) (choice_of w) st.
Proof.
  intros Hev Hls. unfold iteration. munfold. rewrite (poll_no_events w st Hev).
  cbn beta iota. rewrite Hls. unfold menu_of, choice_of.
  by destruct (dispatch _ _ _ _ _ _ _) as [[st2 out2] r].
Qed.

(** ** Pause *)

(** X6: After ['pause'] the pause flag says whether the mixer was busy: a busy
    mixer is paused, an idle one is resumed if it was paused, and nothing
    else of the player changes. *)
Theorem pause_follows_busy (w : World) (st : Player) :
  let r := cmd_pause w st in
  is_paused (state_of r) = get_busy w
  ∧ output_of r = (if get_busy w then [MusicPause]
                   else if is_paused st then [MusicUnpause] else [])
  ∧ result_of r = Ok tt
  ∧ config (state_of r) = config st
  ∧ current_path (state_of r) = current_path st
  ∧ now_playing_song (state_of r) = now_playing_song st
  ∧ queue (state_of r) = queue st
  ∧ current_playlist (state_of r) = current_playlist st
  ∧ current_song_index (state_of r) = current_song_index st.
Proof.
  unfold cmd_pause. munfold.
  destruct (get_busy w); [done|].
  by destruct (is_paused st) eqn:Hp.
Qed.

(** ** The menu *)

(** The entries of the menu in the order they are numbered: the parent
    marker unless the root is shown, the folders, the audio files of the
    current page. *)
Definition menu_entries (st : Player) (folders paginated : list string) : list string :=
  (if decide (current_path st = music_root st) then [] else [".."])
  ++ map (OsPath.join (current_path st)) folders
  ++ map (OsPath.join (current_path st)) paginated.

Lemma add_items_spec entries m c :
  (add_items entries (m, c)).2 = c + Z.of_nat (length entries)
  ∧ ∀ k, (add_items entries (m, c)).1 !! k
         = if decide (c ≤ k < c + Z.of_nat (length entries))
           then entries !! Z.to_nat (k - c) else m !! k.
Proof.
  revert m c. induction entries as [|x entries IH]; intros m c.
  - split; [simpl; lia|]. intros k. simpl. case_decide; [lia|done].
  - destruct (IH (<[c := x]> m) (c + 1)) as [Hc Hk]. split.
    + simpl in *. rewrite Hc. lia.
    + intros k. simpl in *. rewrite Hk.
      destruct (decide (k = c)) as [->|Hne].
      * rewrite decide_False by lia. rewrite decide_True by lia.
        rewrite lookup_insert_eq. by rewrite Z.sub_diag.
      * rewrite lookup_insert_ne by done.
        repeat case_decide; try lia; try done.
        replace (Z.to_nat (k - c)) with (S (Z.to_nat (k - (c + 1)))) by lia.
        done.
Qed.

(** X1: The menu numbers its entries from 1 without gaps, in the order they are
    shown; no other number is on it. *)
Theorem menu_numbering (st : Player) (folders paginated : list string) (k : Z) :
  item_map_of st folders paginated !! k
  = if decide (1 ≤ k) then menu_entries st folders paginated !! Z.to_nat (k - 1)
    else None.
Proof.
  unfold item_map_of, menu_entries.
  set (cp := current_path st).
  set (fs := map (OsPath.join cp) folders).
  set (ps := map (OsPath.join cp) paginated).
  destruct (decide (cp = music_root st)) as [Hroot|Hroot]; simpl.
  - destruct (add_items_spec fs ∅ 1) as [Hc1 Hk1].
    destruct (add_items fs (∅, 1)) as [m1 c1] eqn:H1. simpl in *. subst c1.
    destruct (add_items_spec ps m1 (1 + Z.of_nat (length fs))) as [_ Hk2].
    rewrite Hk2, Hk1, lookup_empty.
    repeat case_decide; try lia; try done.
    + rewrite lookup_app_r by lia. f_equal. lia.
    + by rewrite lookup_app_l by lia.
    + symmetry. apply lookup_ge_None. rewrite length_app. lia.
  - destruct (add_items_spec fs (<[1 := ".."]> ∅) 2) as [Hc1 Hk1].
    destruct (add_items fs (<[1 := ".."]> ∅, 2)) as [m1 c1] eqn:H1.
    simpl in *. subst c1.
    destruct (add_items_spec ps m1 (2 + Z.of_nat (length fs))) as [_ Hk2].
    rewrite Hk2, Hk1.
    destruct (decide (k = 1)) as [->|Hk].
    { rewrite !decide_False by lia. by rewrite lookup_insert_eq. }
    rewrite lookup_insert_ne, lookup_empty by done.
    repeat case_decide; try lia; try done.
    + replace (Z.to_nat (k - 1)) with (S (Z.to_nat (k - 2))) by lia. simpl.
      rewrite lookup_app_r by lia. f_equal. lia.
    + replace (Z.to_nat (k - 1)) with (S (Z.to_nat (k - 2))) by lia. simpl.
      by rewrite lookup_app_l by lia.
    + replace (Z.to_nat (k - 1)) with (S (Z.to_nat (k - 2))) by lia. simpl.
      symmetry. apply lookup_ge_None. rewrite length_app. lia.
Qed.

(** ** Numbers and other input *)

(** The words the [if]/[elif] chain compares [choice] with. *)
Definition command_words : list string :=
  ["add"; "clear"; "+"; "-"; "pause"; " "; ">"; "<"; "s"; "t"; "q"; "n"; "p"].

Lemma dispatch_other w vp af si im choice :
  choice ∉ command_words →
  dispatch w vp af si im choice = (cmd_select w vp im choice;; mret Continue).
Proof.
  intros Hc. unfold command_words in Hc.
  rewrite !not_elem_of_cons in Hc.
  destruct Hc as (?&?&?&?&?&?&?&?&?&?&?&?&?&_).
  unfold dispatch. by rewrite !decide_False by first [done|by intros [|]].
Qed.

Lemma number_not_command choice k :
  Py.int choice = Some k → choice ∉ command_words.
Proof.
  intros Hk Hin. unfold command_words in Hin.
  repeat (apply elem_of_cons in Hin as [->|Hin]; [by vm_compute in Hk|]).
  by apply elem_of_nil in Hin.
Qed.

Lemma cmd_select_not_number w vp im choice st :
  Py.int choice = None →
  cmd_select w vp im choice st = (st, [Print InvalidInput], Ok tt).
Proof. intros Hk. unfold cmd_select, try_except. munfold. by rewrite Hk. Qed.


Lemma cmd_select_parent w vp im choice k st :
  Py.int choice = Some k → im !! k = Some ".." →
  let c' := set_current_page 0 (config st) in
  cmd_select w vp im choice st
  = (set_config c' (set_current_path (OsPath.dirname (current_path st)) st),
     [SaveConfig c'], Ok tt).
Proof.
  intros Hk Him. unfold cmd_select, try_except. munfold. rewrite Hk.
  munfold. by rewrite Him.
Qed.

Lemma cmd_select_folder w vp im choice k p st :
  Py.int choice = Some k → im !! k = Some p → p ≠ ".." → isdir w p = true →
  let c' := set_current_page 0 (config st) in
  cmd_select w vp im choice st
  = (set_config c' (set_current_path p st), [SaveConfig c'], Ok tt).
Proof.
  intros Hk Him Hp Hdir. unfold cmd_select, try_except. munfold. rewrite Hk.
  munfold. rewrite Him, decide_False by done. rewrite Hdir. by munfold.
Qed.

Lemma isfile_not_dir w p : isfile w p = true → isdir w p = false.
Proof. unfold isfile, isdir. by destruct (stat w p) as [[]|]. Qed.

(** The playlist a new session gets (lines 404-408). *)
Definition session_playlist (w : World) (st : Player) (vp : list string) : list string :=
  if shuffle_on (config st) then Py.shuffle (randoms w) vp else Py.sorted vp.

Lemma session_playlist_Permutation w st vp : session_playlist w st vp ≡ₚ vp.
Proof.
  unfold session_playlist.
  destruct (shuffle_on _); [apply shuffle_Permutation|apply sorted_Permutation].
Qed.

Lemma cmd_select_file w vp im choice k p st :
  Py.int choice = Some k → im !! k = Some p → p ≠ ".." →
  isfile w p = true → p ∈ vp →
  ∃ i, Py.index (session_playlist w st vp) p = Some i
       ∧ cmd_select w vp im choice st
         = (mkPlayer (config st) (music_root st) (current_path st) (Some p)
              (is_paused st) (queue st) (session_playlist w st vp) i,
            play_output w p, Ok tt).
Proof.
  intros Hk Him Hp Hfile Hin.
  assert (Hpl : p ∈ session_playlist w st vp)
    by by rewrite session_playlist_Permutation.
  destruct (Py.index (session_playlist w st vp) p) as [i|] eqn:Hi;
    [|by apply index_None in Hi].
  exists i. split; [done|].
  pose proof (getitem_index _ _ _ Hi) as Hget.
  unfold cmd_select, try_except. munfold. rewrite Hk. munfold.
  rewrite Him, decide_False by done.
  rewrite (isfile_not_dir _ _ Hfile), Hfile.
  unfold rebuild_playlist, session_playlist in *. munfold.
  destruct (shuffle_on (config st)); munfold; unfold_setters; rewrite Hi; simpl;
    (rewrite (play_current_run _ p); [done|done]).
Qed.



(** X2: Starting a session from the menu: the file chosen by its number is the
    one that plays.  The new playlist is a rearrangement of the view
    playlist (its sorted copy when shuffle is off), the index points at the
    chosen file, and neither the queue nor the configuration changes. *)
Theorem select_song_plays_it (w : World) (st : Player) (names : list string)
    (k : Z) (p : string) :
  event_get w = [] → listdir w (current_path st) = Listed names →
  Py.int (choice_of w) = Some k → menu_of w st names !! k = Some p →
  p ≠ ".." → isfile w p = true →
  let vp := view_playlist_of (current_path st) (audio_files_of (Py.sorted names)) in
  let r := iteration w st in
  now_playing_song (state_of r) = Some p
  ∧ Py.getitem (current_playlist (state_of r)) (current_song_index (state_of r))
    = Some p
  ∧ current_playlist (state_of r) = session_playlist w st vp
  ∧ current_playlist (state_of r) ≡ₚ vp
  ∧ output_of r = play_output w p
  ∧ result_of r = Ok Continue
  ∧ queue (state_of r) = queue st
  ∧ config (state_of r) = config st
  ∧ is_paused (state_of r) = is_paused st.
Proof.
  intros Hev Hls Hk Hmenu Hp Hfile vp r.
  assert (Hin : p ∈ vp).
  { unfold menu_of in Hmenu.
    apply item_map_of_lookup in Hmenu as [?|[(d & Hd & ->)|(f & Hf & ->)]]; [done|..].
    - apply elem_of_filter_bool in Hd as [_ Hd].
      by rewrite (isfile_not_dir _ _ Hfile) in Hd.
    - apply list_elem_of_fmap. exists f. split; [done|].
      by apply slice_subseteq in Hf. }
  destruct (cmd_select_file w vp _ _ k p st Hk Hmenu Hp Hfile Hin) as (i & Hi & Hrun).
  subst r vp. rewrite (iteration_listed w st names Hev Hls).
  rewrite dispatch_other by by eapply number_not_command.
  rewrite (then_run _ Continue _ _ _ _ Hrun). simpl.
  split; [done|]. split; [by apply getitem_index|]. split; [done|].
  split; [apply session_playlist_Permutation|done].
Qed.

Lemma select_song_plays_it_witness :
  let w := album_world "4" "" in
  let st := initial sample_config "/m" in
  now_playing_song (state_of (iteration w st)) = Some "/m/2.mp3"
  ∧ current_playlist (state_of (iteration w st)) = ["/m/1.mp3"; "/m/2.mp3"]
  ∧ current_song_index (state_of (iteration w st)) = 1.
Proof.
  intros w st.
  assert (Hmenu : menu_of w st ["2.mp3"; "B"; "1.mp3"; "A"; "cover.jpg"] !! 4
                  = Some "/m/2.mp3") by by vm_compute.
  destruct (select_song_plays_it w st ["2.mp3"; "B"; "1.mp3"; "A"; "cover.jpg"]
              4 "/m/2.mp3" eq_refl eq_refl eq_refl Hmenu)
    as (Hnow & _ & Hpl & _); [discriminate|reflexivity|].
  split; [exact Hnow|]. split; [exact Hpl|]. by vm_compute.
Defined.

(** X3: Moving through the directories: choosing the parent entry goes to
    [dirname] of the current path, choosing a folder goes into it; either
    way the page is reset to 0 and saved, and playback (queue, playlist,
    index, now playing, pause flag) is left alone. *)
Theorem navigation_resets_page (w : World) (st : Player) (names : list string)
    (k : Z) (p : string) :
  event_get w = [] → listdir w (current_path st) = Listed names →
  Py.int (choice_of w) = Some k → menu_of w st names !! k = Some p →
  p = ".." ∨ isdir w p = true →
  let c' := set_current_page 0 (config st) in
  let target := if decide (p = "..") then OsPath.dirname (current_path st) else p in
  iteration w st
  = (mkPlayer c' (music_root st) target (now_playing_song st) (is_paused st)
       (queue st) (current_playlist st) (current_song_index st),
     [SaveConfig c'], Ok Continue).
Proof.
  intros Hev Hls Hk Hmenu Hkind c' target.
  rewrite (iteration_listed w st names Hev Hls).
  rewrite dispatch_other by by eapply number_not_command.
  apply then_run with tt. subst target. case_decide as Hp.
  - subst p. by apply (cmd_select_parent _ _ _ _ k).
  - destruct Hkind as [?|Hdir]; [done|]. by apply (cmd_select_folder _ _ _ _ k).
Qed.

Definition in_subfolder : Player :=
  mkPlayer (set_current_page 2 sample_config) "/m" "/m/rock" (Some "/m/a.mp3")
    false ["/m/q.mp3"] ["/m/a.mp3"] 0.

Lemma navigation_resets_page_witness :
  iteration (album_world "1" "") in_subfolder
  = (mkPlayer sample_config "/m" "/m" (Some "/m/a.mp3") false ["/m/q.mp3"]
       ["/m/a.mp3"] 0,
     [SaveConfig sample_config], Ok Continue).
Proof.
  assert (Hmenu : menu_of (album_world "1" "") in_subfolder
                    ["2.mp3"; "B"; "1.mp3"; "A"; "cover.jpg"] !! 1 = Some "..")
    by by vm_compute.
  exact (navigation_resets_page (album_world "1" "") in_subfolder
           ["2.mp3"; "B"; "1.mp3"; "A"; "cover.jpg"] 1 ".."
           eq_refl eq_refl eq_refl Hmenu (or_introl eq_refl)).
Defined.

(** ** White space *)

Lemma lstrip_head s c r : Py.lstrip s = String c r → Py.is_space c = false.
Proof.
  induction s as [|d s IH]; simpl; [done|].
  destruct (Py.is_space d) eqn:Hd; [done|]. by intros [= <- _].
Qed.

Lemma rev_app_length s acc :
  String.length (String.rev_app s acc) = (String.length s + String.length acc)%nat.
Proof.
  revert acc. induction s as [|c s IH]; intros acc; simpl; [done|].
  rewrite IH. simpl. lia.
Qed.

Lemma rev_single s c : String.rev s = String c EmptyString → s = String c EmptyString.
Proof.
  intros Hrev. pose proof (rev_app_length s EmptyString) as Hlen.
  fold (String.rev s) in Hlen. rewrite Hrev in Hlen. simpl in Hlen.
  destruct s as [|d [|e s]]; simpl in Hlen; try lia.
  by injection Hrev as ->.
Qed.

Lemma strip_not_space s : Py.strip s ≠ " ".
Proof.
  unfold Py.strip. intros Hs%rev_single.
  by apply lstrip_head in Hs.
Qed.

Lemma lower_space s : Py.lower s = " " → s = " ".
Proof.
  destruct s as [|c [|d s]]; simpl; try done.
  intros [= Hc]. f_equal. unfold Py.lower_char in Hc.
  case_match eqn:Hrange; [|done].
  apply (f_equal nat_of_ascii) in Hc.
  apply andb_prop in Hrange as [Hlo%Nat.leb_le Hhi%Nat.leb_le].
  rewrite nat_ascii_embedding in Hc by lia.
  change (nat_of_ascii " ") with 32%nat in Hc. lia.
Qed.

Lemma lstrip_blank s :
  Forall (λ c, Py.is_space c = true) (Py.chars s) → Py.lstrip s = "".
Proof.
  induction s as [|c s IH]; simpl; [done|].
  intros [Hc Hs]%Forall_cons. rewrite Hc. by apply IH.
Qed.

(** X5: The command is stripped before it is compared, so it never equals the
    one-space alias of ['pause']: only the word [pause] pauses.  A line of
    white space alone is read as the empty command, reported as invalid
    input, and changes nothing. *)
Theorem space_never_pauses (w : World) (st : Player) (names : list string) :
  choice_of w ≠ " "
  ∧ (event_get w = [] → listdir w (current_path st) = Listed names →
     Forall (λ c, Py.is_space c = true) (Py.chars (input_choice w)) →
     iteration w st = (st, [Print InvalidInput], Ok Continue)).
Proof.
  split.
  - unfold choice_of. intros Hc%lower_space. by apply strip_not_space in Hc.
  - intros Hev Hls Hblank.
    assert (Hchoice : choice_of w = "").
    { unfold choice_of, Py.strip. by rewrite (lstrip_blank _ Hblank). }
    rewrite (iteration_listed w st names Hev Hls), Hchoice.
    rewrite dispatch_other.
    + by apply then_run with tt, cmd_select_not_number.
    + unfold command_words. rewrite !not_elem_of_cons.
      repeat split; try discriminate. apply not_elem_of_nil.
Qed.

Lemma space_never_pauses_witness :
  let w := album_world " " "" in
  let st := three_tracks 1 "/m/b.mp3" in
  iteration w st = (st, [Print InvalidInput], Ok Continue).
Proof.
  intros w st.
  destruct (space_never_pauses w st ["2.mp3"; "B"; "1.mp3"; "A"; "cover.jpg"])
    as [_ Hblank].
  apply Hblank; [reflexivity|reflexivity|].
  apply Forall_singleton. reflexivity.
Defined.

(** ** Walking the playlist *)

Lemma on_userevent_playlist w st p :
  queue st = [] → current_playlist st ≠ [] →
  let i := (current_song_index st + 1) `mod` Z.of_nat (length (current_playlist st)) in
  Py.getitem (current_playlist st) i = Some p →
  on_userevent w st = (moved_to i p st, play_output w p, Ok tt).
Proof.
  intros Hq Hpl i Hp. unfold on_userevent. munfold. rewrite Hq.
  destruct (current_playlist st) as [|x l] eqn:Hl; [done|]. munfold.
  rewrite (play_current_run _ p); [done|]. simpl. by rewrite Hl.
Qed.

(** X12: The completion signal does not look at the index, ['>'] and ['<'] do:
    once the index is -1 (a queued track was played, or the track was lost
    by a shuffle toggle) and the queue is empty, the end of the track
    starts the playlist at its first track, while ['>'] and ['<'] do
    nothing. *)
Theorem completion_restarts_playlist (w : World) (st : Player) (x : string)
    (l : list string) :
  queue st = [] → current_playlist st = x :: l → current_song_index st = -1 →
  on_userevent w st = (moved_to 0 x st, play_output w x, Ok tt)
  ∧ cmd_next w st = (st, [], Ok tt)
  ∧ cmd_previous w st = (st, [], Ok tt).
Proof.
  intros Hq Hl Hi. split; [|split].
  - assert (Hz : (current_song_index st + 1)
                 `mod` Z.of_nat (length (current_playlist st)) = 0).
    { rewrite Hi, Hl. simpl. by rewrite Z.mod_0_l by lia. }
    rewrite <-Hz. apply on_userevent_playlist; [done|by rewrite Hl|].
    rewrite Hz. by rewrite Hl.
  - apply cmd_next_idle; [done|by right].
  - apply cmd_previous_idle. by right.
Qed.

Lemma completion_restarts_playlist_witness :
  let w := world_of (λ _, true) false in
  let st := mkPlayer sample_config "/m" "/m" (Some "/m/q.mp3") false []
              ["/m/a.mp3"; "/m/b.mp3"] (-1) in
  on_userevent w st
  = (mkPlayer sample_config "/m" "/m" (Some "/m/a.mp3") false []
       ["/m/a.mp3"; "/m/b.mp3"] 0,
     [MusicLoad "/m/a.mp3"; MusicPlay], Ok tt)
  ∧ cmd_next w st = (st, [], Ok tt).
Proof.
  intros w st.
  destruct (completion_restarts_playlist w st "/m/a.mp3" ["/m/b.mp3"]
              eq_refl eq_refl eq_refl) as (Hev & Hnext & _).
  split; [exact Hev|exact Hnext].
Defined.

Lemma step_back_mod (i n : Z) :
  0 ≤ i < n → ((i + 1) `mod` n - 1) `mod` n = i.
Proof.
  intros Hi. rewrite Zminus_mod_idemp_l.
  replace (i + 1 - 1) with i by lia. by apply Z.mod_small.
Qed.

Lemma step_forth_mod (i n : Z) :
  0 ≤ i < n → ((i - 1) `mod` n + 1) `mod` n = i.
Proof.
  intros Hi. rewrite Zplus_mod_idemp_l.
  replace (i - 1 + 1) with i by lia. by apply Z.mod_small.
Qed.

(** X10: With an empty queue and the index inside the playlist, ['>'] followed
    by ['<'], and ['<'] followed by ['>'], come back to the track they
    started from (and play it again). *)
Theorem next_previous_round_trip (w1 w2 : World) (st : Player) :
  queue st = [] →
  let pl := current_playlist st in
  let n := Z.of_nat (length pl) in
  let i := current_song_index st in
  0 ≤ i < n →
  ∃ p q b,
    Py.getitem pl i = Some p
    ∧ Py.getitem pl ((i + 1) `mod` n) = Some q
    ∧ Py.getitem pl ((i - 1) `mod` n) = Some b
    ∧ (cmd_next w1;; cmd_previous w2) st
      = (moved_to i p st, play_output w1 q ++ play_output w2 p, Ok tt)
    ∧ (cmd_previous w1;; cmd_next w2) st
      = (moved_to i p st, play_output w1 b ++ play_output w2 p, Ok tt).
Proof.
  intros Hq pl n i Hi. subst pl n i.
  assert (Hpl : current_playlist st ≠ []).
  { intros Hnil. rewrite Hnil in Hi. simpl in Hi. lia. }
  destruct (getitem_in_range _ _ Hi) as [p Hp].
  destruct (getitem_mod _ (current_song_index st + 1) Hpl) as [q Hq'].
  destruct (getitem_mod _ (current_song_index st - 1) Hpl) as [b Hb].
  exists p, q, b. split; [done|]. split; [done|]. split; [done|]. split.
  - eapply bind_run.
    + apply cmd_next_playlist; [done|done|lia|exact Hq'].
    + pose proof (Z.mod_pos_bound (current_song_index st + 1)
                    (Z.of_nat (length (current_playlist st)))) as Hge.
      etrans; [apply (cmd_previous_playlist w2 _ p); simpl|].
      * done.
      * lia.
      * by rewrite step_back_mod.
      * simpl. by rewrite step_back_mod.
  - eapply bind_run.
    + apply cmd_previous_playlist; [done|lia|exact Hb].
    + pose proof (Z.mod_pos_bound (current_song_index st - 1)
                    (Z.of_nat (length (current_playlist st)))) as Hge.
      etrans; [apply (cmd_next_playlist w2 _ p); simpl|].
      * done.
      * done.
      * lia.
      * by rewrite step_forth_mod.
      * simpl. by rewrite step_forth_mod.
Qed.

Lemma next_previous_round_trip_witness :
  let w := world_of (λ _, true) true in
  (cmd_next w;; cmd_previous w) (three_tracks 2 "/m/c.mp3")
  = (three_tracks 2 "/m/c.mp3",
     [MusicLoad "/m/a.mp3"; MusicPlay; MusicLoad "/m/c.mp3"; MusicPlay], Ok tt).
Proof.
  intros w.
  destruct (next_previous_round_trip w w (three_tracks 2 "/m/c.mp3") eq_refl)
    as (p & q & b & Hp & Hq & _ & Hrun & _); [simpl; lia|].
  injection Hp as <-. injection Hq as <-. exact Hrun.
Defined.

Lemma state_of_bind {A B} (m : M A) (f : A → M B) st st1 out1 a :
  m st = (st1, out1, Ok a) → state_of ((m ≫= f) st) = state_of (f a st1).
Proof. intros Hm. munfold. rewrite Hm. by destruct (f a st1) as [[st2 out2] r]. Qed.

Lemma result_of_bind {A B} (m : M A) (f : A → M B) st st1 out1 a :
  m st = (st1, out1, Ok a) → result_of ((m ≫= f) st) = result_of (f a st1).
Proof. intros Hm. munfold. rewrite Hm. by destruct (f a st1) as [[st2 out2] r]. Qed.

Lemma completions_run w k st :
  queue st = [] → current_playlist st ≠ [] →
  let n := Z.of_nat (length (current_playlist st)) in
  let j := (current_song_index st + Z.of_nat (S k)) `mod` n in
  let r := for_each (replicate (S k) USEREVENT)
             (λ e, match e with USEREVENT => on_userevent w | OTHER_EVENT => mret tt end)
             st in
  result_of r = Ok tt
  ∧ ∃ p, Py.getitem (current_playlist st) j = Some p
         ∧ state_of r = moved_to j p st.
Proof.
  revert st. induction k as [|k IH]; intros st Hq Hpl n j r.
  - destruct (getitem_mod (current_playlist st) (current_song_index st + 1) Hpl)
      as [p Hp].
    pose proof (on_userevent_playlist w st p Hq Hpl Hp) as Hrun.
    subst r. simpl. split.
    + by rewrite (result_of_bind _ _ _ _ _ _ Hrun).
    + exists p. split; [done|]. by rewrite (state_of_bind _ _ _ _ _ _ Hrun).
  - destruct (getitem_mod (current_playlist st) (current_song_index st + 1) Hpl)
      as [p Hp].
    pose proof (on_userevent_playlist w st p Hq Hpl Hp) as Hrun.
    set (st1 := moved_to _ p st) in Hrun.
    destruct (IH st1) as (Hres & q & Hq' & Hst); [done|done|].
    subst r. change (replicate (S (S k)) USEREVENT)
      with (USEREVENT :: replicate (S k) USEREVENT).
    cbn [for_each]. split.
    + by rewrite (result_of_bind _ _ _ _ _ _ Hrun).
    + assert (Hj : (current_song_index st1 + Z.of_nat (S k))
                   `mod` Z.of_nat (length (current_playlist st1)) = j).
      { subst j n st1. simpl current_song_index. simpl current_playlist.
        rewrite Zplus_mod_idemp_l. f_equal. lia. }
      rewrite Hj in Hq', Hst. exists q. split; [done|].
      by rewrite (state_of_bind _ _ _ _ _ _ Hrun), Hst.
Qed.

(** X11: Completion signals walk the playlist round and round: with an empty
    queue, [k] signals handled in one pass leave the index [k] steps
    further, modulo the length, on the track now playing; as many signals
    as the playlist has tracks come back to the starting track. *)
Theorem completions_cycle (w : World) (st : Player) (k : nat) :
  event_get w = replicate (S k) USEREVENT →
  queue st = [] → current_playlist st ≠ [] →
  let n := Z.of_nat (length (current_playlist st)) in
  let j := (current_song_index st + Z.of_nat (S k)) `mod` n in
  let r := poll_events w st in
  result_of r = Ok tt
  ∧ (∃ p, Py.getitem (current_playlist st) j = Some p
          ∧ state_of r = moved_to j p st)
  ∧ (S k = length (current_playlist st) → 0 ≤ current_song_index st < n →
     current_song_index (state_of r) = current_song_index st).
Proof.
  intros Hev Hq Hpl n j r. subst r. unfold poll_events. rewrite Hev.
  destruct (completions_run w k st Hq Hpl) as (Hres & p & Hp & Hst).
  split; [done|]. split; [by exists p|].
  intros Hk Hi. rewrite Hst. simpl. subst j n. rewrite Hk.
  rewrite <-(Z.mul_1_l (Z.of_nat (length (current_playlist st)))) at 1.
  rewrite Z_mod_plus_full. by apply Z.mod_small.
Qed.

Lemma completions_cycle_witness :
  let w := mkWorld [USEREVENT; USEREVENT; USEREVENT] (λ _, true) true
             (λ _, Listed []) (λ _, None) "" "" [] in
  state_of (poll_events w (three_tracks 1 "/m/b.mp3")) = three_tracks 1 "/m/b.mp3".
Proof.
  intros w.
  destruct (completions_cycle w (three_tracks 1 "/m/b.mp3") 2 eq_refl eq_refl)
    as (_ & (p & Hp & Hst) & _); [done|].
  injection Hp as <-. exact Hst.
Defined.

(** ** What the loop keeps *)

(** The settings the loop never writes ([music_folder], [page_size], the
    root), the lower bound of the index, and a lower bound [z] of the
    page. *)
Section settled.
Context (a : string) (b : Z) (root : string) (z : Z).
Hypothesis z_nonpos : z ≤ 0.

Definition settled (st : Player) : Prop :=
  music_folder (config st) = a ∧ page_size (config st) = b
  ∧ music_root st = root ∧ -1 ≤ current_song_index st
  ∧ z ≤ current_page (config st).

Let anything (e : Effect) : Prop := True.

Local Abbreviation ok := (respects settled anything).

Local Ltac settle_state :=
  match goal with
  | Hst : settled _ |- settled _ =>
      unfold settled in *; unfold_setters; simpl in *;
      destruct Hst as (?&?&?&?&?); repeat split; try done; try lia
  end.

Local Ltac settle := first [exact I|done|settle_state].

Lemma settled_play_song w p : ok (play_song w p).
Proof. unfold play_song. repeat respects_step; settle. Qed.

Lemma settled_play_current w : ok (play_current w).
Proof.
  unfold play_current. do 3 respects_step.
  repeat respects_step; [apply settled_play_song|settle].
Qed.

Lemma settled_play_queue_head w x rest : ok (play_queue_head w x rest).
Proof.
  unfold play_queue_head. repeat respects_step; try apply settled_play_song; settle.
Qed.

Lemma settled_advance w i :
  0 ≤ i → ok (modify (set_current_song_index i);; play_current w).
Proof. intros Hi. repeat respects_step; [settle|apply settled_play_current]. Qed.

Lemma mod_length_nonneg {A} (i : Z) (x : A) (l : list A) :
  0 ≤ i `mod` Z.of_nat (length (x :: l)).
Proof. apply Z.mod_pos_bound. simpl. lia. Qed.

Lemma settled_on_userevent w : ok (on_userevent w).
Proof.
  unfold on_userevent. do 2 respects_step.
  destruct (queue _); [|apply settled_play_queue_head].
  destruct (current_playlist _); [respects_step|].
  apply settled_advance, mod_length_nonneg.
Qed.

Lemma settled_poll_events w : ok (poll_events w).
Proof.
  unfold poll_events. apply respects_for_each.
  intros [|]; [apply settled_on_userevent|respects_step].
Qed.

Lemma settled_cmd_add w im : ok (cmd_add w im).
Proof.
  unfold cmd_add. repeat case_match; repeat respects_step; settle.
Qed.

Lemma settled_cmd_clear : ok cmd_clear.
Proof. unfold cmd_clear. repeat respects_step; settle. Qed.

Lemma settled_cmd_volume_up : ok cmd_volume_up.
Proof. unfold cmd_volume_up. repeat respects_step; settle. Qed.

Lemma settled_cmd_volume_down : ok cmd_volume_down.
Proof. unfold cmd_volume_down. repeat respects_step; settle. Qed.

Lemma settled_cmd_pause w : ok (cmd_pause w).
Proof. unfold cmd_pause. repeat respects_step; settle. Qed.

Lemma settled_cmd_next w : ok (cmd_next w).
Proof.
  unfold cmd_next. do 2 respects_step.
  destruct (queue _); [|apply settled_play_queue_head].
  destruct (current_playlist _); [respects_step|].
  respects_step; [respects_step|]. apply settled_advance, mod_length_nonneg.
Qed.

Lemma settled_cmd_previous w : ok (cmd_previous w).
Proof.
  unfold cmd_previous. do 2 respects_step.
  destruct (current_playlist _); [respects_step|].
  respects_step; [respects_step|]. apply settled_advance, mod_length_nonneg.
Qed.

Lemma settled_cmd_shuffle_play w vp : ok (cmd_shuffle_play w vp).
Proof.
  unfold cmd_shuffle_play. destruct vp; [respects_step|].
  repeat respects_step; try apply settled_play_current; settle.
Qed.

Lemma settled_rebuild_playlist w vp : ok (rebuild_playlist w vp).
Proof. unfold rebuild_playlist. repeat respects_step; settle. Qed.

Lemma index_default_bound {A} `{EqDecision A} (l : list A) (x : A) (d : Z) :
  -1 ≤ d → -1 ≤ default d (Py.index l x).
Proof.
  intros Hd. destruct (Py.index l x) as [k|] eqn:Hk; simpl; [|done].
  apply index_Some in Hk as (Hk & _). lia.
Qed.

Lemma settled_cmd_toggle_shuffle w vp : ok (cmd_toggle_shuffle w vp).
Proof.
  unfold cmd_toggle_shuffle.
  apply respects_bind; [respects_step; settle|intros _].
  apply respects_bind; [respects_step; settle|intros _].
  apply respects_bind; [apply settled_rebuild_playlist|intros _].
  do 3 respects_step; [|respects_step].
  destruct (now_playing_song _); repeat respects_step.
  pose proof (index_default_bound (current_playlist st) s (-1)). settle.
Qed.

Lemma settled_cmd_quit w : ok (cmd_quit w).
Proof. unfold cmd_quit. repeat respects_step; settle. Qed.

Lemma settled_cmd_next_page si af : ok (cmd_next_page si af).
Proof. unfold cmd_next_page. repeat respects_step; settle. Qed.

Lemma settled_cmd_previous_page : ok cmd_previous_page.
Proof. unfold cmd_previous_page. repeat respects_step; settle. Qed.

Lemma settled_cmd_select w vp im choice : ok (cmd_select w vp im choice).
Proof.
  unfold cmd_select. respects_step; [|respects_step; settle].
  respects_step. destruct (im !! _) as [selected|]; [|respects_step; settle].
  repeat respects_step;
    try apply settled_rebuild_playlist; try apply settled_play_current;
    try settle.
  apply index_default_bound. lia.
Qed.

Lemma settled_dispatch w vp af si im choice : ok (dispatch w vp af si im choice).
Proof.
  unfold dispatch.
  repeat (apply respects_decide;
          [apply respects_bind; [|intros; by apply respects_ret]|]);
    [..|apply respects_bind; [|intros; by apply respects_ret]];
    eauto using settled_cmd_add, settled_cmd_clear, settled_cmd_volume_up,
      settled_cmd_volume_down, settled_cmd_pause, settled_cmd_next,
      settled_cmd_previous, settled_cmd_shuffle_play, settled_cmd_toggle_shuffle,
      settled_cmd_quit, settled_cmd_next_page, settled_cmd_previous_page,
      settled_cmd_select.
Qed.

Lemma settled_iteration w : ok (iteration w).
Proof.
  unfold iteration. apply respects_bind; [apply settled_poll_events|intros _].
  do 2 respects_step.
  destruct (listdir w _); [apply settled_dispatch|repeat respects_step; settle|respects_step].
Qed.

Lemma settled_run ws : ok (run ws).
Proof.
  induction ws as [|w ws IH]; intros st Hst; simpl.
  - split; [done|constructor].
  - destruct (settled_iteration w st Hst) as [Hs Ho].
    unfold respects_from in *.
    destruct (iteration w st) as [[st1 out1] [[| |]|e]]; try done.
    destruct (IH st1 Hs) as [Hs2 Ho2].
    destruct (run ws st1) as [[st2 out2] r]. split; [done|].
    apply Forall_app. by split.
Qed.
End settled.

Lemma initial_settled c root :
  settled (music_folder c) (page_size c) root (Z.min 0 (current_page c))
    (initial c root).
Proof. unfold settled. simpl. repeat split; lia. Qed.

(** X8: From the start of the loop on, whatever happens, the index is -1 or a
    position counted from 0: it never drops below -1. *)
Theorem index_never_below_minus_one (c : Config) (root : string)
    (ws : list World) :
  -1 ≤ current_song_index (state_of (run ws (initial c root))).
Proof.
  destruct (settled_run (music_folder c) (page_size c) root
              (Z.min 0 (current_page c)) ltac:(lia) ws (initial c root)
              (initial_settled c root)) as [(_ & _ & _ & Hi & _) _].
  exact Hi.
Qed.

(** X9: The loop never writes [music_folder] or [page_size] and never moves the
    root; a page number that starts at 0 or above stays at 0 or above. *)
Theorem settings_kept (c : Config) (root : string) (ws : list World) :
  let st := state_of (run ws (initial c root)) in
  music_folder (config st) = music_folder c
  ∧ page_size (config st) = page_size c
  ∧ music_root st = root
  ∧ (0 ≤ current_page c → 0 ≤ current_page (config st)).
Proof.
  destruct (settled_run (music_folder c) (page_size c) root
              (Z.min 0 (current_page c)) ltac:(lia) ws (initial c root)
              (initial_settled c root)) as [(Hf & Hs & Hr & _ & Hp) _].
  simpl. split; [done|]. split; [done|]. split; [done|]. lia.
Qed.

Lemma settings_kept_witness :
  0 ≤ current_page
        (config (state_of (run [big_world "p"; big_world "n"; big_world "p";
                                big_world "p"] (on_page 0)))).
Proof.
  destruct (settings_kept (set_current_page 0 sample_config) "/m"
              [big_world "p"; big_world "n"; big_world "p"; big_world "p"])
    as (_ & _ & _ & Hpage).
  apply Hpage. simpl. lia.
Defined.

(** ** Exceptions and the end of the loop *)

(** [raises_only P m]: if [m] ends by raising, the exception satisfies
    [P]. *)
Definition raises_only {A} (P : Exn → Prop) (m : M A) : Prop :=
  ∀ st, match result_of (m st) with Ok _ => True | Raised e => P e end.

Section raises_only.
Context (P : Exn → Prop).

Lemma raises_ret {A} (a : A) : raises_only P (mret a).
Proof. by intros st. Qed.

Lemma raises_get : raises_only P get.
Proof. by intros st. Qed.

Lemma raises_modify g : raises_only P (modify g).
Proof. by intros st. Qed.

Lemma raises_emit e : raises_only P (emit e).
Proof. by intros st. Qed.

Lemma raises_raise {A} e : P e → raises_only P (@raise A e).
Proof. by intros He st. Qed.

Lemma raises_bind {A B} (m : M A) (f : A → M B) :
  raises_only P m → (∀ a, raises_only P (f a)) → raises_only P (m ≫= f).
Proof.
  intros Hm Hf st. specialize (Hm st). munfold.
  destruct (m st) as [[st1 out1] [a|e]]; [|done].
  specialize (Hf a st1). by destruct (f a st1) as [[st2 out2] r].
Qed.

Lemma raises_if {A} (b : bool) (m1 m2 : M A) :
  raises_only P m1 → raises_only P m2 → raises_only P (if b then m1 else m2).
Proof. by destruct b. Qed.

Lemma raises_decide {A} (R : Prop) `{!Decision R} (m1 m2 : M A) :
  raises_only P m1 → raises_only P m2 →
  raises_only P (if decide R then m1 else m2).
Proof. by case_decide. Qed.

Lemma raises_for_each {A} (l : list A) (body : A → M unit) :
  (∀ x, raises_only P (body x)) → raises_only P (for_each l body).
Proof.
  intros Hbody. induction l as [|x l IH]; simpl.
  - apply raises_ret.
  - apply raises_bind; [apply Hbody|done].
Qed.

End raises_only.

Ltac raises_step :=
  lazymatch goal with
  | |- raises_only _ (_ ≫= _) => apply raises_bind; [|intros ?]
  | |- raises_only _ (mret _) => apply raises_ret
  | |- raises_only _ get => apply raises_get
  | |- raises_only _ (emit _) => apply raises_emit
  | |- raises_only _ (modify _) => apply raises_modify
  | |- raises_only _ (modify_config _) => apply raises_modify
  | |- raises_only _ save_config => unfold save_config
  | |- raises_only _ (if decide _ then _ else _) => apply raises_decide
  | |- raises_only _ (if _ then _ else _) => apply raises_if
  | |- raises_only _ (match ?x with _ => _ end) => destruct x
  end.

Abbreviation never_raises := (raises_only (λ _, False)).


Lemma never_raises_result {A} (m : M A) st st1 out r :
  m st = (st1, out, Ok r) →
  match result_of (m st) with Ok _ => True | Raised _ => False end.
Proof. by intros ->. Qed.

Lemma play_song_never_raises w p : never_raises (play_song w p).
Proof. unfold play_song. repeat raises_step. Qed.













(** ** Pages *)

Lemma slice_lookup {A} (l : list A) (a b : Z) (i : nat) :
  0 ≤ a → a ≤ b →
  Py.slice l a b !! i
  = if decide (a + Z.of_nat i < b) then l !! (Z.to_nat a + i)%nat else None.
Proof.
  intros Ha Hb. unfold Py.slice, Py.slice_bound.
  destruct (Z.ltb_spec a 0); [lia|]. destruct (Z.ltb_spec b 0); [lia|].
  rewrite lookup_take, lookup_drop.
  set (n := Z.of_nat (length l)).
  unfold n. repeat case_decide; try lia;
    first [ f_equal; lia
          | symmetry; apply lookup_ge_None; lia
          | apply lookup_ge_None; lia
          | done ].
Qed.

Lemma paginated_lookup c af (i : nat) :
  0 ≤ page_size c → 0 ≤ start_index_of c →
  paginated_of c af !! i
  = if decide (Z.of_nat i < page_size c)
    then af !! (Z.to_nat (start_index_of c) + i)%nat else None.
Proof.
  intros Hps Hs. unfold paginated_of. rewrite slice_lookup by lia.
  repeat case_decide; try done; lia.
Qed.

(** X13: The pages cut the audio listing into consecutive windows: with a
    positive page size, the file at position [j] is shown on page
    [j / page_size] at place [j mod page_size], and whatever page [k >= 0]
    shows at place [i] is the file at position [k * page_size + i]. *)
Theorem pages_cover_listing (c : Config) (af : list string) :
  0 < page_size c →
  (∀ (j : nat) f, af !! j = Some f →
     paginated_of (set_current_page (Z.of_nat j / page_size c) c) af
       !! Z.to_nat (Z.of_nat j `mod` page_size c) = Some f)
  ∧ (∀ k (i : nat) f, 0 ≤ k →
       paginated_of (set_current_page k c) af !! i = Some f →
       Z.of_nat i < page_size c
       ∧ af !! Z.to_nat (k * page_size c + Z.of_nat i) = Some f).
Proof.
  intros Hps. split.
  - intros j f Hj.
    pose proof (Z.mod_pos_bound (Z.of_nat j) (page_size c) Hps) as Hmod.
    pose proof (Z.div_mod (Z.of_nat j) (page_size c)) as Hdiv.
    assert (0 ≤ Z.of_nat j / page_size c) by (apply Z.div_pos; lia).
    rewrite paginated_lookup; unfold start_index_of; simpl; [|lia|nia].
    rewrite decide_True by lia. rewrite <-Hj. f_equal. nia.
  - intros k i f Hk Hi.
    rewrite paginated_lookup in Hi; unfold start_index_of in *; simpl in *;
      [|lia|nia].
    case_decide; [|done]. split; [done|]. rewrite <-Hi. f_equal. nia.
Qed.

Lemma pages_cover_listing_witness :
  paginated_of (set_current_page 2 sample_config) big_directory !! 3%nat
  = Some "x.mp3".
Proof.
  destruct (pages_cover_listing sample_config big_directory) as [Hpage _];
    [simpl; lia|].
  exact (Hpage 23%nat "x.mp3" eq_refl).
Defined.

Lemma cmd_next_page_run af st :
  let c := config st in
  let next := if bool_decide (start_index_of c + page_size c < Z.of_nat (length af))
              then current_page c + 1 else 0 in
  cmd_next_page (start_index_of c) af st
  = (set_config (set_current_page next c) st,
     [SaveConfig (set_current_page next c)], Ok tt).
Proof.
  intros c next. unfold cmd_next_page. munfold. fold c. subst next.
  by case_bool_decide.
Qed.

(** X14: ['n'] never turns to an empty page: with a positive page size, a page
    number that is not negative and at least one audio file, the page
    shown after ['n'] holds a file. *)
Theorem next_page_is_not_empty (st : Player) (af : list string) :
  0 < page_size (config st) → 0 ≤ current_page (config st) → af ≠ [] →
  let st' := state_of (cmd_next_page (start_index_of (config st)) af st) in
  0 ≤ current_page (config st')
  ∧ is_Some (paginated_of (config st') af !! 0%nat).
Proof.
  intros Hps Hcp Haf st'. subst st'. rewrite cmd_next_page_run. simpl.
  unfold start_index_of.
  assert (0 < Z.of_nat (length af)) by (destruct af; [done|simpl; lia]).
  case_bool_decide as Hmore.
  - split; [simpl; lia|].
    rewrite paginated_lookup; unfold start_index_of; simpl; [|lia|nia].
    rewrite decide_True by lia. apply lookup_lt_is_Some. nia.
  - split; [simpl; lia|].
    rewrite paginated_lookup; unfold start_index_of; simpl; [|lia|nia].
    rewrite decide_True by lia. apply lookup_lt_is_Some. lia.
Qed.

Lemma next_page_is_not_empty_witness :
  is_Some (paginated_of
             (config (state_of (cmd_next_page 20 big_directory (on_page 2))))
             big_directory !! 0%nat).
Proof.
  destruct (next_page_is_not_empty (on_page 2) big_directory) as [_ Hfile];
    [simpl; lia|simpl; lia|done|].
  exact Hfile.
Defined.

(** ** What ['add'] can queue *)

(** X15: When [".."] is not a regular file, ['add'] either leaves the queue as
    it is or appends the path of one audio file of the page on display,
    which is a regular file: a folder, the parent entry or a file of
    another page is never queued. *)
Theorem add_queues_page_entries (w : World) (st : Player) (names : list string) :
  event_get w = [] → listdir w (current_path st) = Listed names →
  choice_of w = "add" → isfile w ".." = false →
  let r := iteration w st in
  queue (state_of r) = queue st
  ∨ ∃ f, f ∈ paginated_of (config st) (audio_files_of (Py.sorted names))
         ∧ isfile w (OsPath.join (current_path st) f) = true
         ∧ queue (state_of r) = queue st ++ [OsPath.join (current_path st) f].
Proof.
  intros Hev Hls Hchoice Hparent r. subst r.
  rewrite (iteration_listed w st names Hev Hls), Hchoice.
  rewrite dispatch_add, state_of_then.
  destruct (cmd_add_cases w (menu_of w st names) st)
    as [(p & (k & _ & Hk & Hfile) & Hq)| ->]; [|by left].
  unfold menu_of in Hk.
  apply item_map_of_lookup in Hk as [->|[(d & Hd & ->)|(f & Hf & ->)]].
  - by rewrite Hparent in Hfile.
  - apply elem_of_filter_bool in Hd as [_ Hd].
    by rewrite (isfile_not_dir _ _ Hfile) in Hd.
  - right. by exists f.
Qed.

Lemma add_queues_page_entries_witness :
  let st := initial sample_config "/m" in
  queue (state_of (iteration (album_world "add" "1") st)) = []
  ∨ ∃ f, f ∈ ["1.mp3"; "2.mp3"]
         ∧ isfile (album_world "add" "1") (OsPath.join "/m" f) = true
         ∧ queue (state_of (iteration (album_world "add" "1") st))
           = [] ++ [OsPath.join "/m" f].
Proof.
  intros st.
  exact (add_queues_page_entries (album_world "add" "1") st
           ["2.mp3"; "B"; "1.mp3"; "A"; "cover.jpg"]
           eq_refl eq_refl eq_refl eq_refl).
Defined.

(** * The configuration file ([load_config] and [save_config])

    The file is modelled by what [json.load] makes of it; that [json.load]
    reads back what [json.dump] wrote is taken from the library. *)

Module ConfigStore.

#[warnings="-register-all"]
Inductive JValue :=
| JNull
| JBool (b : bool)
| JInt (n : Z)
| JFloat (x : float)
| JStr (s : string)
| JArr (l : list JValue)
| JObj (m : gmap string JValue).

(** Lines 25-31, in the order of the dictionary. *)
Definition default_items : list (string * JValue) :=
  [("music_folder", JStr "audio"); ("volume", JFloat 0.5%float);
   ("shuffle_on", JBool false); ("page_size", JInt 10); ("current_page", JInt 0)].

Definition default_config : gmap string JValue := list_to_map default_items.

(** What [open(config_file, 'r')] and [json.load] find: no file
    ([FileNotFoundError]), a file that cannot be opened or decoded for
    another reason, text that is not JSON ([JSONDecodeError]), or a JSON
    value. *)
Inductive StoredFile :=
| NoFile
| Unreadable
| NotJson
| Json (v : JValue).

Record Disk := mkDisk {
  stored : StoredFile;
  writable : bool;
}.

Inductive LoadError := TypeError | OpenError.

Inductive Notice := ErrorSaving.

(** [sub in s] on strings. *)
Fixpoint contains (s sub : string) : bool :=
  if String.prefix sub s then true
  else match s with
       | EmptyString => false
       | String _ r => contains r sub
       end.

(** [save_config] (lines 44-51): a failure is printed, not raised. *)
Definition save_config (config : JValue) (d : Disk) : Disk * list Notice :=
  if writable d then (mkDisk (Json config) true, [])
  else (d, [ErrorSaving]).

(** [if key not in config: config[key] = default_config[key]] for one key,
    whatever kind of value [json.load] answered: a list is searched for
    the key and a string for the substring, neither can be assigned to by
    key, and the other values cannot be searched at all. *)
Definition backfill_key (config : JValue) (item : string * JValue)
    : LoadError + JValue :=
  match config with
  | JObj m =>
      match m !! item.1 with
      | Some _ => inr config
      | None => inr (JObj (<[item.1 := item.2]> m))
      end
  | JArr l =>
      if existsb (λ v, match v with JStr s => String.eqb s item.1 | _ => false end) l
      then inr config else inl TypeError
  | JStr s => if contains s item.1 then inr config else inl TypeError
  | JNull | JBool _ | JInt _ | JFloat _ => inl TypeError
  end.

(** [for key in default_config: ...] (lines 36-38). *)
Fixpoint backfill (items : list (string * JValue)) (config : JValue)
    : LoadError + JValue :=
  match items with
  | [] => inr config
  | item :: rest =>
      match backfill_key config item with
      | inr config' => backfill rest config'
      | inl e => inl e
      end
  end.

(** [load_config] (lines 22-42). *)
Definition load_config (d : Disk) : Disk * list Notice * (LoadError + JValue) :=
  match stored d with
  | Json v => (d, [], backfill default_items v)
  | NoFile | NotJson =>
      let '(d', out) := save_config (JObj default_config) d in
      (d', out, inr (JObj default_config))
  | Unreadable => (d, [], inl OpenError)
  end.

Definition default_keys : list string := default_items.*1.

Lemma backfill_object items m :
  ∃ m', backfill items (JObj m) = inr (JObj m')
        ∧ ∀ k, m' !! k = match m !! k with
                         | Some v => Some v
                         | None => (list_to_map items : gmap string JValue) !! k
                         end.
Proof.
  revert m. induction items as [|[key v] items IH]; intros m.
  - exists m. split; [done|]. intros k. simpl. rewrite lookup_empty.
    by destruct (m !! k).
  - simpl. destruct (m !! key) as [old|] eqn:Hkey.
    + destruct (IH m) as (m' & Hrun & Hm'). exists m'. split; [done|].
      intros k. rewrite Hm'. destruct (m !! k) eqn:Hk; [done|].
      rewrite lookup_insert_ne; [done|]. intros ->. congruence.
    + destruct (IH (<[key := v]> m)) as (m' & Hrun & Hm'). exists m'.
      split; [done|]. intros k. rewrite Hm'.
      destruct (decide (key = k)) as [->|Hne].
      * by rewrite !lookup_insert_eq, Hkey.
      * by rewrite !lookup_insert_ne by done.
Qed.

(** X16: A file that holds a JSON object is read without being rewritten:
    every key it has keeps its value, also keys the player does not know,
    and each of the five settings it lacks gets its default, so all five
    are present in the result. *)
Theorem load_backfills (d : Disk) (m : gmap string JValue) :
  stored d = Json (JObj m) →
  ∃ m', load_config d = (d, [], inr (JObj m'))
        ∧ (∀ k v, m !! k = Some v → m' !! k = Some v)
        ∧ (∀ k, m !! k = None → m' !! k = default_config !! k)
        ∧ (∀ k, k ∈ default_keys → is_Some (m' !! k)).
Proof.
  intros Hd. destruct (backfill_object default_items m) as (m' & Hrun & Hm').
  exists m'. unfold load_config. rewrite Hd, Hrun.
  split; [done|]. split; [|split].
  - intros k v Hk. by rewrite Hm', Hk.
  - intros k Hk. by rewrite Hm', Hk.
  - intros k Hk. rewrite Hm'. destruct (m !! k); [done|].
    unfold default_keys, default_items in Hk. simpl in Hk.
    repeat (apply elem_of_cons in Hk as [->|Hk]; [vm_compute; by eexists|]).
    by apply elem_of_nil in Hk.
Qed.

Definition partial_file : gmap string JValue :=
  <["volume" := JFloat 1%float]> (<["theme" := JStr "dark"]> ∅).

Lemma load_backfills_witness :
  ∃ m', load_config (mkDisk (Json (JObj partial_file)) false)
        = (mkDisk (Json (JObj partial_file)) false, [], inr (JObj m'))
        ∧ m' !! "volume" = Some (JFloat 1%float)
        ∧ m' !! "theme" = Some (JStr "dark")
        ∧ m' !! "page_size" = Some (JInt 10).
Proof.
  destruct (load_backfills (mkDisk (Json (JObj partial_file)) false) partial_file
              eq_refl) as (m' & Hrun & Hkeep & Hfill & _).
  exists m'. split; [exact Hrun|]. split; [|split].
  - apply Hkeep. by vm_compute.
  - apply Hkeep. by vm_compute.
  - rewrite Hfill; by vm_compute.
Defined.

Lemma backfill_complete items m :
  Forall (λ k, is_Some (m !! k)) items.*1 → backfill items (JObj m) = inr (JObj m).
Proof.
  induction items as [|[key v] items IH]; simpl; [done|].
  intros [[old Hkey] Hrest]%Forall_cons. simpl in Hkey. rewrite Hkey. by apply IH.
Qed.

(** X17: What is saved is what is loaded next: on a writable disk, a
    configuration with the five settings is read back as it was written,
    with any further key it carries; on a disk that cannot be written the
    failure is reported and the file stays as it was. *)
Theorem save_load_round_trip (d : Disk) (m : gmap string JValue) :
  (writable d = true →
   Forall (λ k, is_Some (m !! k)) default_keys →
   ∃ d', save_config (JObj m) d = (d', [])
         ∧ load_config d' = (d', [], inr (JObj m)))
  ∧ (writable d = false → save_config (JObj m) d = (d, [ErrorSaving])).
Proof.
  split.
  - intros Hw Hkeys. unfold save_config. rewrite Hw.
    eexists. split; [done|]. unfold load_config. cbn [stored].
    by rewrite backfill_complete.
  - intros Hw. unfold save_config. by rewrite Hw.
Qed.

Definition full_file : gmap string JValue :=
  <["theme" := JStr "dark"]> (<["page_size" := JInt 25]> default_config).

Lemma save_load_round_trip_witness :
  ∃ d', save_config (JObj full_file) (mkDisk NoFile true) = (d', [])
        ∧ load_config d' = (d', [], inr (JObj full_file)).
Proof.
  destruct (save_load_round_trip (mkDisk NoFile true) full_file) as [Hok _].
  apply Hok; [reflexivity|].
  unfold default_keys. simpl.
  repeat (apply Forall_cons; split; [vm_compute; by eexists|]).
  apply Forall_nil_2.
Defined.

(** X18: A missing file and a file that is not JSON give the defaults, which
    are written back at once; and loading is repeatable: after a load that
    returned, loading again returns the same configuration and leaves the
    file as the first load left it. *)
Theorem load_is_repeatable (d : Disk) :
  (stored d = NoFile ∨ stored d = NotJson →
   load_config d
   = (if writable d then mkDisk (Json (JObj default_config)) true else d,
      if writable d then [] else [ErrorSaving],
      inr (JObj default_config)))
  ∧ (∀ d' out v, load_config d = (d', out, inr v) →
       ∃ out', load_config d' = (d', out', inr v)).
Proof.
  split.
  - intros Hd. unfold load_config, save_config.
    destruct Hd as [-> | ->]; by destruct (writable d).
  - intros d' out v. unfold load_config, save_config.
    destruct (stored d) as [| | |v0] eqn:Hd.
    + destruct (writable d) eqn:Hw; intros [= <- <- <-].
      * exists []. simpl. by vm_compute.
      * exists [ErrorSaving]. by rewrite Hd, Hw.
    + done.
    + destruct (writable d) eqn:Hw; intros [= <- <- <-].
      * exists []. simpl. by vm_compute.
      * exists [ErrorSaving]. by rewrite Hd, Hw.
    + intros Heq.
      assert (Hd' : d' = d) by (symmetry; by injection Heq). subst d'.
      assert (Hv : backfill default_items v0 = inr v) by by injection Heq.
      exists []. by rewrite Hd, Hv.
Qed.

Lemma load_is_repeatable_witness :
  load_config (mkDisk NotJson true)
  = (mkDisk (Json (JObj default_config)) true, [], inr (JObj default_config))
  ∧ ∃ out', load_config (mkDisk (Json (JObj default_config)) true)
            = (mkDisk (Json (JObj default_config)) true, out',
               inr (JObj default_config)).
Proof.
  destruct (load_is_repeatable (mkDisk NotJson true)) as [Hdefault Hagain].
  split.
  - apply Hdefault. by right.
  - apply (Hagain _ []). apply Hdefault. by right.
Defined.

Definition mentions (l : list JValue) (key : string) : bool :=
  existsb (λ v, match v with JStr s => String.eqb s key | _ => false end) l.

Lemma backfill_array items l :
  backfill items (JArr l)
  = if forallb (mentions l) items.*1 then inr (JArr l) else inl TypeError.
Proof.
  induction items as [|[key v] items IH]; simpl; [done|].
  fold (mentions l key). destruct (mentions l key); [exact IH|done].
Qed.

Lemma backfill_string items s :
  backfill items (JStr s)
  = if forallb (contains s) items.*1 then inr (JStr s) else inl TypeError.
Proof.
  induction items as [|[key v] items IH]; simpl; [done|].
  destruct (contains s key); [exact IH|done].
Qed.

(** X19: Valid JSON that is not an object is not replaced by the defaults.  A
    number, a boolean or [null] makes [load_config] raise [TypeError]; a
    list or a string is handed back as it is when it mentions all five
    keys, and raises [TypeError] otherwise.  The file is left alone. *)
Theorem load_non_object (d : Disk) (v : JValue) :
  stored d = Json v →
  match v with
  | JObj _ => True
  | JArr l =>
      load_config d
      = (d, [], if forallb (mentions l) default_keys then inr v else inl TypeError)
  | JStr s =>
      load_config d
      = (d, [], if forallb (contains s) default_keys then inr v else inl TypeError)
  | JNull | JBool _ | JInt _ | JFloat _ => load_config d = (d, [], inl TypeError)
  end.
Proof.
  intros Hd. unfold load_config. rewrite Hd.
  destruct v as [| | | |s|l|m]; try done.
  - by rewrite backfill_string.
  - by rewrite backfill_array.
Qed.

Lemma load_non_object_witness :
  load_config (mkDisk (Json (JInt 3)) true)
    = (mkDisk (Json (JInt 3)) true, [], inl TypeError)
  ∧ load_config (mkDisk (Json (JArr [JStr "volume"])) true)
    = (mkDisk (Json (JArr [JStr "volume"])) true, [], inl TypeError).
Proof.
  split.
  - exact (load_non_object (mkDisk (Json (JInt 3)) true) (JInt 3) eq_refl).
  - exact (load_non_object (mkDisk (Json (JArr [JStr "volume"])) true)
             (JArr [JStr "volume"]) eq_refl).
Defined.

End ConfigStore.

(** * The multi-column printer ([print_in_columns])

    [plain_len item] stands for [len(Text.from_markup(item).plain)], which
    the rich library computes.  What is printed is kept as the list of
    lines, each with its indentation and its cells: an item and the number
    of spaces appended to it. *)

Module Columns.
Section layout.
Context (plain_len : string → Z).

(** [max(len(Text.from_markup(item).plain) for item in items)] *)
Definition max_plain_len (first : string) (rest : list string) : Z :=
  foldl (λ acc item, Z.max acc (plain_len item)) (plain_len first) rest.

(** The values [idx = col * n_rows + row] of the inner loop that pass the
    test [idx < len(items)] (lines 127-129). *)
Definition row_indices (n_rows n_cols len row : nat) : list nat :=
  filter (λ idx, idx < len)%nat ((λ col, col * n_rows + row)%nat <$> seq 0 n_cols).

(** Lines 130-138. *)
Definition cell (col_width : Z) (item : string) : string * Z :=
  (item, Z.max 0 (col_width - plain_len item)).

(** [print_in_columns] (lines 103-140); [None] is the [ZeroDivisionError]
    of line 119. *)
Definition print_in_columns (term_width indent pad : Z) (items : list string)
    : option (list (Z * list (string * Z))) :=
  match items with
  | [] => Some []
  | first :: rest =>
      let col_width := max_plain_len first rest + pad in
      if decide (col_width = 0) then None
      else
        let n_cols := Z.max 1 ((term_width - indent) `div` col_width) in
        let n_rows := (Z.of_nat (length items) + n_cols - 1) `div` n_cols in
        Some ((λ row,
                (indent,
                 (λ idx, cell col_width (items !!! idx))
                   <$> row_indices (Z.to_nat n_rows) (Z.to_nat n_cols)
                         (length items) row))
                <$> seq 0 (Z.to_nat n_rows))
  end.

Lemma max_plain_len_ge first rest :
  plain_len first ≤ max_plain_len first rest
  ∧ Forall (λ item, plain_len item ≤ max_plain_len first rest) rest.
Proof.
  unfold max_plain_len. generalize (plain_len first) as acc.
  induction rest as [|x rest IH]; intros acc; simpl; [by split|].
  destruct (IH (Z.max acc (plain_len x))) as [Hacc Hrest]. split; [lia|].
  constructor; [lia|done].
Qed.

(** The grid of indices holds each position of the list once. *)
Lemma grid_Permutation (n_rows n_cols len : nat) :
  (0 < n_rows)%nat → (len ≤ n_rows * n_cols)%nat →
  seq 0 n_rows ≫= row_indices n_rows n_cols len ≡ₚ seq 0 len.
Proof.
  intros Hr Hlen. apply NoDup_Permutation.
  - apply NoDup_bind; [| |apply NoDup_seq].
    + intros r1 r2 y Hr1%elem_of_seq Hr2%elem_of_seq.
      unfold row_indices.
      intros [_ (c1 & -> & _)%list_elem_of_fmap]%list_elem_of_filter.
      intros [_ (c2 & Heq & _)%list_elem_of_fmap]%list_elem_of_filter.
      assert ((c1 * n_rows + r1) `mod` n_rows = (c2 * n_rows + r2) `mod` n_rows)%nat
        as Hmod by by rewrite Heq.
      rewrite !(Nat.add_comm (_ * n_rows)) in Hmod.
      rewrite !Nat.Div0.mod_add, !Nat.mod_small in Hmod by lia. done.
    + intros r Hr'%elem_of_seq. unfold row_indices.
      apply NoDup_filter, NoDup_fmap_2_strong; [|apply NoDup_seq].
      intros c1 c2 _ _ Heq. nia.
  - apply NoDup_seq.
  - intros x. rewrite list_elem_of_bind, elem_of_seq. split.
    + intros (r & [Hx _]%list_elem_of_filter & _). lia.
    + intros [_ Hx]. exists (x `mod` n_rows)%nat. split.
      * unfold row_indices. apply list_elem_of_filter. split; [lia|].
        apply list_elem_of_fmap. exists (x `div` n_rows)%nat. split.
        -- pose proof (Nat.div_mod_eq x n_rows). lia.
        -- apply elem_of_seq. split; [lia|]. simpl.
           apply Nat.Div0.div_lt_upper_bound. lia.
      * apply elem_of_seq. split; [lia|]. simpl.
        apply Nat.mod_upper_bound. lia.
Qed.

Lemma fmap_lookup_total_seq (items : list string) :
  (λ idx, items !!! idx) <$> seq 0 (length items) = items.
Proof.
  apply list_eq. intros i. rewrite list_lookup_fmap.
  destruct (items !! i) as [x|] eqn:Hi.
  - rewrite lookup_seq_lt by by eapply lookup_lt_Some.
    simpl. f_equal. by apply list_lookup_total_correct.
  - rewrite (proj2 (lookup_ge_None _ _)); [done|].
    rewrite length_seq. by apply lookup_ge_None.
Qed.

(** X20: With a positive [pad] (the call of line 285 uses the default, 3) the
    printer does not divide by zero, prints every item exactly once, and
    pads every cell to the same width. *)
Theorem every_item_once (term_width indent pad : Z) (items : list string) :
  0 < pad → (∀ item, 0 ≤ plain_len item) →
  ∃ rows col_width,
    print_in_columns term_width indent pad items = Some rows
    ∧ (rows ≫= snd).*1 ≡ₚ items
    ∧ Forall (λ line, line.1 = indent) rows
    ∧ Forall (λ c, plain_len c.1 + c.2 = col_width) (rows ≫= snd).
Proof.
  intros Hpad Hlen. destruct items as [|first rest].
  { exists [], 0. by repeat split. }
  unfold print_in_columns. set (items := first :: rest).
  assert (Hitems : items = first :: rest) by done. clearbody items.
  set (col_width := max_plain_len first rest + pad).
  destruct (max_plain_len_ge first rest) as [Hfirst Hrest].
  assert (Hwidth : 0 < col_width) by (specialize (Hlen first); lia).
  rewrite decide_False by lia. cbv zeta.
  set (n_cols := Z.max 1 ((term_width - indent) `div` col_width)).
  set (n_rows := (Z.of_nat (length items) + n_cols - 1) `div` n_cols).
  assert (Hcols : 1 ≤ n_cols) by lia.
  assert (Hitems_len : 1 ≤ Z.of_nat (length items)) by (rewrite Hitems; simpl; lia).
  assert (Hrows : 1 ≤ n_rows ∧ Z.of_nat (length items) ≤ n_rows * n_cols).
  { pose proof (Z.div_mod (Z.of_nat (length items) + n_cols - 1) n_cols) as Hdiv.
    pose proof (Z.mod_pos_bound (Z.of_nat (length items) + n_cols - 1) n_cols) as Hmod.
    fold n_rows in Hdiv. split; [|nia].
    apply Z.div_le_lower_bound; lia. }
  eexists _, col_width. split; [done|].
  assert (Hbind : ∀ (f : nat → list (string * Z)) l,
            ((λ row, (indent, f row)) <$> l) ≫= snd = l ≫= f).
  { intros f l. induction l as [|x l IH]; [done|]. by rewrite fmap_cons, !bind_cons, IH. }
  rewrite Hbind.
  assert (Hcells : ∀ l : list nat,
            l ≫= (λ row, (λ idx, cell col_width (items !!! idx))
                           <$> row_indices (Z.to_nat n_rows) (Z.to_nat n_cols)
                                 (length items) row)
            = (λ idx, cell col_width (items !!! idx))
                <$> (l ≫= row_indices (Z.to_nat n_rows) (Z.to_nat n_cols)
                           (length items))).
  { intros l. induction l as [|x l IH]; [done|].
    by rewrite !bind_cons, fmap_app, IH. }
  rewrite Hcells.
  assert (Hgrid := grid_Permutation (Z.to_nat n_rows) (Z.to_nat n_cols)
                     (length items) ltac:(lia) ltac:(nia)).
  split; [|split].
  - rewrite <-list_fmap_compose, Hgrid. simpl.
    change (fst ∘ _) with (λ idx, items !!! idx).
    by rewrite fmap_lookup_total_seq.
  - apply Forall_fmap, Forall_true. done.
  - rewrite Hgrid. apply Forall_fmap, Forall_forall.
    intros idx Hidx%elem_of_seq. simpl.
    assert (Hin : items !!! idx ∈ items)
      by (apply list_elem_of_lookup_total_2; lia).
    set (x := items !!! idx) in *. clearbody x.
    assert (plain_len x ≤ max_plain_len first rest).
    { rewrite Hitems in Hin. apply elem_of_cons in Hin as [->|Hin]; [done|].
      rewrite Forall_forall in Hrest. by apply Hrest. }
    specialize (Hlen x). unfold col_width. lia.
Qed.

Lemma filter_prefix_lookup {A} (P : A → Prop) `{∀ x, Decision (P x)}
    (l : list A) (c : nat) (x : A) :
  l !! c = Some x → (∀ i y, (i ≤ c)%nat → l !! i = Some y → P y) →
  filter P l !! c = Some x.
Proof.
  revert c. induction l as [|y l IH]; intros c Hc Hpre; [done|].
  assert (P y) by (apply (Hpre 0%nat); [lia|done]).
  rewrite filter_cons_True by done. destruct c as [|c]; [done|].
  simpl in *. apply IH; [done|]. intros i z Hi Hz. apply (Hpre (S i)); [lia|done].
Qed.

Lemma row_indices_lookup (n_rows n_cols len row col : nat) :
  (col < n_cols)%nat → (col * n_rows + row < len)%nat →
  row_indices n_rows n_cols len row !! col = Some (col * n_rows + row)%nat.
Proof.
  intros Hcol Hidx. unfold row_indices. apply filter_prefix_lookup.
  - by rewrite list_lookup_fmap, lookup_seq_lt.
  - intros i y Hi. rewrite list_lookup_fmap.
    destruct (seq 0 n_cols !! i) as [k|] eqn:Hk; [|done].
    apply lookup_seq in Hk as [-> _]. intros [= <-]. simpl. nia.
Qed.

(** X21: The items run down the columns: with [n] lines printed, the item at
    position [j] of the list is in line [j mod n], at place [j / n] of
    that line. *)
Theorem items_run_down_columns (term_width indent pad : Z) (items : list string)
    (rows : list (Z * list (string * Z))) (j : nat) (item : string) :
  print_in_columns term_width indent pad items = Some rows →
  items !! j = Some item →
  (0 < length rows)%nat
  ∧ ∃ cells, rows !! (j `mod` length rows)%nat = Some (indent, cells)
             ∧ cells.*1 !! (j `div` length rows)%nat = Some item.
Proof.
  intros Hprint Hj. destruct items as [|first rest]; [done|].
  unfold print_in_columns in Hprint. set (items := first :: rest) in *.
  assert (Hitems_len : 1 ≤ Z.of_nat (length items)) by (simpl; lia).
  clearbody items. case_decide as Hwidth; [done|]. cbv zeta in Hprint.
  set (col_width := max_plain_len first rest + pad) in *.
  set (n_cols := Z.max 1 ((term_width - indent) `div` col_width)) in *.
  set (n_rows := (Z.of_nat (length items) + n_cols - 1) `div` n_cols) in *.
  assert (Hcols : 1 ≤ n_cols) by lia.
  assert (Hrows : 1 ≤ n_rows ∧ Z.of_nat (length items) ≤ n_rows * n_cols).
  { pose proof (Z.div_mod (Z.of_nat (length items) + n_cols - 1) n_cols) as Hdiv.
    pose proof (Z.mod_pos_bound (Z.of_nat (length items) + n_cols - 1) n_cols) as Hmod.
    fold n_rows in Hdiv. split; [|nia].
    apply Z.div_le_lower_bound; lia. }
  injection Hprint as <-. rewrite length_fmap, length_seq.
  set (nr := Z.to_nat n_rows). assert (0 < nr)%nat by lia.
  split; [done|].
  pose proof (lookup_lt_Some _ _ _ Hj) as Hlt.
  pose proof (Nat.mod_upper_bound j nr ltac:(lia)) as Hmod.
  pose proof (Nat.div_mod_eq j nr) as Hdiv.
  eexists. split.
  - rewrite list_lookup_fmap, lookup_seq_lt by done. done.
  - rewrite <-list_fmap_compose, list_lookup_fmap. cbn [Nat.add].
    rewrite (row_indices_lookup nr (Z.to_nat n_cols) (length items)
               (j `mod` nr) (j `div` nr)).
    + simpl. f_equal. replace (j `div` nr * nr + j `mod` nr)%nat with j by lia.
      by apply list_lookup_total_correct.
    + apply Nat.Div0.div_lt_upper_bound. nia.
    + lia.
Qed.

End layout.

Lemma items_run_down_columns_witness :
  ∃ cells,
    [(2, [("a", 5); ("ccc", 3); ("e", 5)]); (2, [("bb", 4); ("dd", 4)])]
      !! (3 `mod` 2)%nat = Some (2, cells)
    ∧ cells.*1 !! (3 `div` 2)%nat = Some "dd".
Proof.
  destruct (items_run_down_columns (λ s, Z.of_nat (String.length s)) 20 2 3
              ["a"; "bb"; "ccc"; "dd"; "e"]
              [(2, [("a", 5); ("ccc", 3); ("e", 5)]); (2, [("bb", 4); ("dd", 4)])]
              3 "dd" eq_refl eq_refl) as [_ Hcells].
  exact Hcells.
Defined.

Lemma every_item_once_witness :
  ∃ rows col_width,
    print_in_columns (λ s, Z.of_nat (String.length s)) 20 2 3
      ["a"; "bb"; "ccc"; "dd"; "e"] = Some rows
    ∧ (rows ≫= snd).*1 ≡ₚ ["a"; "bb"; "ccc"; "dd"; "e"]
    ∧ Forall (λ line, line.1 = 2) rows
    ∧ Forall (λ c, Z.of_nat (String.length c.1) + c.2 = col_width) (rows ≫= snd).
Proof.
  apply (every_item_once (λ s, Z.of_nat (String.length s)) 20 2 3
           ["a"; "bb"; "ccc"; "dd"; "e"]); [lia|intros; lia].
Defined.

Example three_columns :
  print_in_columns (λ s, Z.of_nat (String.length s)) 20 2 3
    ["a"; "bb"; "ccc"; "dd"; "e"]
  = Some [(2, [("a", 5); ("ccc", 3); ("e", 5)]); (2, [("bb", 4); ("dd", 4)])].
Proof. by vm_compute. Qed.

End Columns.

(** * The playlist and the screen *)

(** What [os.path.join] puts in front of a name that does not start with
    the separator. *)
Definition join_head (cp : string) : string :=
  if decide (cp = "") then ""
  else if Py.endswith cp "/" then cp
  else cp +:+ "/".

Lemma append_assoc (a b c : string) : (a +:+ b) +:+ c = a +:+ (b +:+ c).
Proof. apply chars_inj. by rewrite !chars_app, (assoc_L (++)). Qed.

Lemma join_relative cp f :
  Py.startswith f "/" = false → OsPath.join cp f = join_head cp +:+ f.
Proof.
  unfold OsPath.join, join_head. intros ->.
  destruct (decide (cp = "")); [done|].
  destruct (Py.endswith cp "/"); [done|]. by rewrite append_assoc.
Qed.

Lemma compare_append p a b : String.compare (p +:+ a) (p +:+ b) = String.compare a b.
Proof.
  induction p as [|x p IH]; simpl; [done|].
  unfold Ascii.compare. by rewrite N.compare_refl.
Qed.

Lemma le_append p a b : String.le a b → String.le (p +:+ a) (p +:+ b).
Proof. unfold String.le, String.leb. by rewrite compare_append. Qed.

(** Joined to the same directory, names in order give paths in order, so
    sorting the view playlist leaves it as it is. *)
Lemma sorted_view_playlist cp names :
  Forall (λ f, Py.startswith f "/" = false) names →
  Py.sorted (view_playlist_of cp (audio_files_of (Py.sorted names)))
  = view_playlist_of cp (audio_files_of (Py.sorted names)).
Proof.
  intros Hrel.
  apply (StronglySorted_unique String.le);
    [apply sorted_StronglySorted| |apply sorted_Permutation].
  unfold view_playlist_of.
  assert (Haf : Forall (λ f, Py.startswith f "/" = false)
                  (audio_files_of (Py.sorted names))).
  { rewrite Forall_forall in Hrel |- *. intros f Hf. apply Hrel.
    unfold audio_files_of in Hf. apply elem_of_filter_bool in Hf as [Hf _].
    by rewrite elem_of_sorted in Hf. }
  rewrite (Forall_fmap_ext_1 (OsPath.join cp) (String.append (join_head cp))).
  - apply (StronglySorted_fmap _ String.le String.le); [apply le_append|].
    apply filter_StronglySorted, sorted_StronglySorted.
  - eapply Forall_impl; [exact Haf|]. intros f Hf. by apply join_relative.
Qed.

(** X22: With shuffle off the playlist is the list on the screen.  Both places
    that rebuild the playlist sort the view playlist, and that list is in
    order already, since [os.listdir] answers names without a leading
    separator: choosing a file makes the playlist the audio files of the
    directory, all pages, top to bottom, with the index at the first
    entry equal to the chosen one; switching shuffle off with ['t'] does
    the same to the playlist. *)
Theorem playlist_in_display_order (w : World) (st : Player) (names : list string) :
  event_get w = [] → listdir w (current_path st) = Listed names →
  Forall (λ f, Py.startswith f "/" = false) names →
  let vp := view_playlist_of (current_path st) (audio_files_of (Py.sorted names)) in
  let r := iteration w st in
  (∀ k p, shuffle_on (config st) = false →
     Py.int (choice_of w) = Some k → menu_of w st names !! k = Some p →
     p ≠ ".." → isfile w p = true →
     current_playlist (state_of r) = vp
     ∧ ∃ i : nat, current_song_index (state_of r) = Z.of_nat i
                  ∧ vp !! i = Some p
                  ∧ ∀ j, (j < i)%nat → vp !! j ≠ Some p)
  ∧ (shuffle_on (config st) = true → choice_of w = "t" →
     current_playlist (state_of r) = vp
     ∧ shuffle_on (config (state_of r)) = false).
Proof.
  intros Hev Hls Hrel vp r. subst r.
  rewrite (iteration_listed w st names Hev Hls). fold vp. split.
  - intros k p Hoff Hk Hmenu Hp Hfile.
    assert (Hin : p ∈ vp).
    { unfold menu_of in Hmenu.
      apply item_map_of_lookup in Hmenu as [?|[(d & Hd & ->)|(f & Hf & ->)]]; [done|..].
      - apply elem_of_filter_bool in Hd as [_ Hd].
        by rewrite (isfile_not_dir _ _ Hfile) in Hd.
      - apply list_elem_of_fmap. exists f. split; [done|].
        by apply slice_subseteq in Hf. }
    destruct (cmd_select_file w vp _ _ k p st Hk Hmenu Hp Hfile Hin) as (i & Hi & Hrun).
    rewrite dispatch_other by by eapply number_not_command.
    rewrite (then_run _ Continue _ _ _ _ Hrun). simpl.
    unfold session_playlist in *. rewrite Hoff in *.
    unfold vp in *. rewrite (sorted_view_playlist _ _ Hrel) in *.
    split; [done|].
    apply index_Some in Hi as (Hr & Hl & Hfirst).
    exists (Z.to_nat i). split; [lia|done].
  - intros Hon Ht. rewrite Ht.
    change (dispatch w vp _ _ _ "t") with (cmd_toggle_shuffle w vp;; mret Continue).
    unfold cmd_toggle_shuffle, rebuild_playlist. munfold. simpl. rewrite Hon. simpl.
    munfold. unfold vp. rewrite (sorted_view_playlist _ _ Hrel). simpl.
    destruct (Py.truthy (now_playing_song st) && get_busy w
              && negb (bool_decide (current_song_index st = -1)));
      munfold; [destruct (now_playing_song st)|]; munfold; done.
Qed.

Lemma playlist_in_display_order_witness :
  let names := ["2.mp3"; "B"; "1.mp3"; "A"; "cover.jpg"] in
  let off := initial sample_config "/m" in
  let on := initial (set_shuffle_on true sample_config) "/m" in
  (current_playlist (state_of (iteration (album_world "4" "") off))
     = ["/m/1.mp3"; "/m/2.mp3"]
   ∧ current_song_index (state_of (iteration (album_world "4" "") off)) = 1)
  ∧ current_playlist (state_of (iteration (album_world "t" "") on))
     = ["/m/1.mp3"; "/m/2.mp3"].
Proof.
  intros names off on.
  assert (Hrel : Forall (λ f, Py.startswith f "/" = false) names)
    by (repeat constructor).
  split.
  - destruct (playlist_in_display_order (album_world "4" "") off names
                eq_refl eq_refl Hrel) as [Hsel _].
    assert (Hmenu : menu_of (album_world "4" "") off names !! 4 = Some "/m/2.mp3")
      by by vm_compute.
    destruct (Hsel 4 "/m/2.mp3" eq_refl eq_refl Hmenu) as [Hpl _];
      [discriminate|reflexivity|].
    split; [exact Hpl|by vm_compute].
  - destruct (playlist_in_display_order (album_world "t" "") on names
                eq_refl eq_refl Hrel) as [_ Htog].
    destruct (Htog eq_refl eq_refl) as [Hpl _]. exact Hpl.
Defined.

(** * Album art (lines 66-74) *)

Module AlbumArt.

(** [s.rfind(c)] for a single character: the last position of [c], or -1. *)
Fixpoint rfind (c : ascii) (s : list ascii) : Z :=
  match s with
  | [] => -1
  | d :: r =>
      let i := rfind c r in
      if 0 <=? i then i + 1 else if Ascii.eqb d c then 0 else -1
  end.

(** [os.path.splitext(p)]: split at the last dot when it comes after the
    last separator and some character between the two is not a dot;
    otherwise the extension is empty. *)
Definition splitext (p : string) : string * string :=
  let cs := Py.chars p in
  let sep_index := rfind "/" cs in
  let dot_index := rfind "." cs in
  if (sep_index <? dot_index)
     && existsb (λ c, negb (Ascii.eqb c ".")) (Py.slice cs (sep_index + 1) dot_index)
  then (string_of_list_ascii (take (Z.to_nat dot_index) cs),
        string_of_list_ascii (drop (Z.to_nat dot_index) cs))
  else (p, "").

Definition album_art_names : list string := ["folder"; "cover"; "front"].

Definition image_extensions : list string :=
  [".jpg"; ".jpeg"; ".png"; ".gif"; ".bmp"; ".tiff"].

(** The test of the loop body on one [filename] (lines 70-72). *)
Definition is_album_art (filename : string) : bool :=
  let '(name, ext) := splitext (Py.lower filename) in
  bool_decide (ext ∈ image_extensions)
  && existsb (λ art_name, ConfigStore.contains name art_name) album_art_names.

(** [get_album_art_path]: the listing is read in the order [os.listdir]
    answers it, and an error of [os.listdir] is not caught. *)
Definition get_album_art_path (w : World) (current_path : string) : Exn + option string :=
  match listdir w current_path with
  | Listed names => inr (OsPath.join current_path <$> List.find is_album_art names)
  | FileNotFound | OtherOSError => inl OSError
  end.

(** [sub in s] as a property of the strings. *)
Definition within (sub s : string) : Prop := ∃ pre post, s = pre +:+ sub +:+ post.

(** What the test looks for: lowered, the name is an image extension after
    a stem in which one of the three words occurs. *)
Definition looks_like_art (filename : string) : Prop :=
  ∃ name ext art_name,
    Py.lower filename = name +:+ ext ∧ ext ∈ image_extensions
    ∧ art_name ∈ album_art_names ∧ within art_name name.

Lemma rfind_absent c s : c ∉ s → rfind c s = -1.
Proof.
  induction s as [|d s IH]; [done|]. intros [Hd Hs]%not_elem_of_cons.
  simpl. rewrite (IH Hs). simpl.
  destruct (Ascii.eqb_spec d c); [congruence|done].
Qed.

Lemma rfind_last c l r : c ∉ r → rfind c (l ++ c :: r) = Z.of_nat (length l).
Proof.
  intros Hr. induction l as [|d l IH].
  - simpl. rewrite (rfind_absent _ _ Hr). simpl. by rewrite Ascii.eqb_refl.
  - cbn [app rfind length]. rewrite IH.
    destruct (Z.leb_spec 0 (Z.of_nat (length l))); lia.
Qed.

Lemma prefix_spec a s : String.prefix a s = true ↔ ∃ post, s = a +:+ post.
Proof.
  revert s. induction a as [|x a IH]; intros s.
  - split; [intros _; by exists s|by destruct s].
  - destruct s as [|y s]; simpl.
    + split; [done|]. intros [post Hpost]. discriminate Hpost.
    + destruct (ascii_dec x y) as [->|Hne].
      * rewrite IH. split; intros [post Hpost]; exists post.
        -- change (String y s = String y (a +:+ post)). by rewrite Hpost.
        -- change (String y s = String y (a +:+ post)) in Hpost. by injection Hpost.
      * split; [done|]. intros [post Hpost].
        change (String y s = String x (a +:+ post)) in Hpost. congruence.
Qed.

Lemma contains_unfold s sub :
  ConfigStore.contains s sub
  = if String.prefix sub s then true
    else match s with
         | EmptyString => false
         | String _ r => ConfigStore.contains r sub
         end.
Proof. by destruct s. Qed.

Lemma contains_spec s sub : ConfigStore.contains s sub = true ↔ within sub s.
Proof.
  unfold within. induction s as [|c s IH].
  - rewrite contains_unfold. destruct (String.prefix sub "") eqn:Hp.
    + apply prefix_spec in Hp as [post Hpost]. split; [|done].
      intros _. by exists "", post.
    + split; [done|]. intros (pre & post & Hs).
      destruct pre; [|done]. cbn in Hs.
      assert (String.prefix sub "" = true) by (apply prefix_spec; eauto).
      congruence.
  - rewrite contains_unfold. destruct (String.prefix sub (String c s)) eqn:Hp.
    + apply prefix_spec in Hp as [post Hpost]. split; [|done].
      intros _. by exists "", post.
    + rewrite IH. split.
      * intros (pre & post & ->). by exists (String c pre), post.
      * intros (pre & post & Hs). destruct pre as [|d pre].
        -- cbn in Hs.
           assert (String.prefix sub (String c s) = true) by (apply prefix_spec; eauto).
           congruence.
        -- cbn in Hs. injection Hs as _ ->. eauto.
Qed.

Lemma lower_char_sep c : Py.lower_char c = "/"%char → c = "/"%char.
Proof.
  unfold Py.lower_char. intros Hc.
  case_match eqn:Hrange; [|done].
  apply (f_equal nat_of_ascii) in Hc.
  apply andb_prop in Hrange as [Hlo%Nat.leb_le Hhi%Nat.leb_le].
  rewrite nat_ascii_embedding in Hc by lia.
  change (nat_of_ascii "/") with 47%nat in Hc. lia.
Qed.

Lemma splitext_whole p : (splitext p).1 +:+ (splitext p).2 = p.
Proof.
  unfold splitext. case_match; simpl.
  - apply chars_inj. rewrite chars_app. unfold Py.chars.
    rewrite !list_ascii_of_string_of_list_ascii. apply take_drop.
  - apply chars_inj. rewrite chars_app. simpl. apply app_nil_r.
Qed.

Lemma splitext_extension name ext rest :
  "/"%char ∉ Py.chars (name +:+ ext) →
  Py.chars ext = "."%char :: rest → "."%char ∉ rest →
  existsb (λ c, negb (Ascii.eqb c ".")) (Py.chars name) = true →
  splitext (name +:+ ext) = (name, ext).
Proof.
  intros Hsep Hext Hrest Hstem. unfold splitext.
  rewrite (rfind_absent _ _ Hsep), chars_app, Hext, (rfind_last _ _ _ Hrest).
  assert (Py.slice (Py.chars name ++ "."%char :: rest) (-1 + 1)
            (Z.of_nat (length (Py.chars name))) = Py.chars name) as ->.
  { unfold Py.slice, Py.slice_bound. rewrite length_app. cbn [length].
    change (-1 + 1) with 0. change (0 <? 0) with false. cbn iota.
    destruct (Z.ltb_spec (Z.of_nat (length (Py.chars name))) 0); [lia|].
    rewrite (Z.min_l 0), Z.min_l by lia.
    rewrite Z.sub_0_r, Nat2Z.id. change (Z.to_nat 0) with 0%nat.
    by rewrite drop_0, take_app_length. }
  rewrite Hstem, andb_true_r.
  destruct (Z.ltb_spec (-1) (Z.of_nat (length (Py.chars name)))); [|lia].
  rewrite Nat2Z.id, take_app_length, drop_app_length, <-Hext.
  unfold Py.chars. by rewrite !string_of_list_ascii_of_string.
Qed.

Lemma is_album_art_spec filename :
  "/"%char ∉ Py.chars filename →
  is_album_art filename = true ↔ looks_like_art filename.
Proof.
  intros Hsep. unfold is_album_art, looks_like_art. split.
  - pose proof (splitext_whole (Py.lower filename)) as Hwhole.
    destruct (splitext (Py.lower filename)) as [name ext]. simpl in Hwhole.
    intros [Hext%bool_decide_eq_true (a & Ha & Hin)%existsb_exists]%andb_prop.
    exists name, ext, a. split; [done|]. split; [done|].
    split; [by apply list_elem_of_In|by apply contains_spec].
  - intros (name & ext & a & Hlow & Hext & Ha & Hin).
    assert (Hsep' : "/"%char ∉ Py.chars (name +:+ ext)).
    { rewrite <-Hlow, chars_lower. intros (c & Hc & Hin')%list_elem_of_fmap.
      symmetry in Hc. apply lower_char_sep in Hc. by subst. }
    assert (Hstem : existsb (λ c, negb (Ascii.eqb c ".")) (Py.chars name) = true).
    { destruct Hin as (pre & post & ->). rewrite !chars_app, !existsb_app.
      unfold album_art_names in Ha.
      repeat (apply elem_of_cons in Ha as [->|Ha];
              [simpl; by rewrite orb_true_r|]).
      by apply elem_of_nil in Ha. }
    assert (Hsplit : splitext (name +:+ ext) = (name, ext)).
    { unfold image_extensions in Hext.
      repeat (apply elem_of_cons in Hext as [->|Hext];
              [eapply splitext_extension; [done|reflexivity| |done];
               apply (bool_decide_unpack _); by vm_compute|]).
      by apply elem_of_nil in Hext. }
    rewrite Hlow, Hsplit. apply andb_true_intro. split.
    + by apply bool_decide_eq_true.
    + apply existsb_exists. exists a. split; [by apply list_elem_of_In|].
      by apply contains_spec.
Qed.

Lemma find_first {A} (f : A → bool) (l : list A) (x : A) :
  List.find f l = Some x
  ↔ ∃ pre post, l = pre ++ x :: post ∧ f x = true ∧ Forall (λ y, f y = false) pre.
Proof.
  induction l as [|y l IH]; simpl.
  - split; [done|]. intros (pre & post & Hl & _). by destruct pre.
  - destruct (f y) eqn:Hy.
    + split.
      * intros [= ->]. by exists [], l.
      * intros ([|z pre] & post & Hl & Hx & Hpre).
        -- by injection Hl as -> _.
        -- injection Hl as -> _. apply Forall_cons in Hpre as [Hz _]. congruence.
    + rewrite IH. split.
      * intros (pre & post & -> & Hx & Hpre). exists (y :: pre), post.
        split; [done|]. split; [done|]. by constructor.
      * intros ([|z pre] & post & Hl & Hx & Hpre).
        -- injection Hl as -> _. congruence.
        -- injection Hl as -> ->. apply Forall_cons in Hpre as [_ Hpre]. eauto.
Qed.

(** X23: Which file is found: the first entry, in the order of the listing,
    whose name, lowered, is one of the six image extensions after a stem
    in which [folder], [cover] or [front] occurs; the path answered keeps
    the case of the entry.  [None] is answered exactly when no entry is of
    that kind.  The names of [os.listdir] hold no separator. *)
Theorem album_art_first_match (w : World) (cp : string) (names : list string) :
  listdir w cp = Listed names →
  Forall (λ f, "/"%char ∉ Py.chars f) names →
  (get_album_art_path w cp = inr None ↔ ∀ f, f ∈ names → ¬ looks_like_art f)
  ∧ (∀ p, get_album_art_path w cp = inr (Some p) ↔
       ∃ pre f post, names = pre ++ f :: post ∧ p = OsPath.join cp f
                     ∧ looks_like_art f ∧ ∀ g, g ∈ pre → ¬ looks_like_art g).
Proof.
  intros Hls Hsep. unfold get_album_art_path. rewrite Hls.
  rewrite Forall_forall in Hsep. split.
  - destruct (List.find is_album_art names) as [f|] eqn:Hfind; simpl.
    + split; [done|]. intros Hnone. exfalso.
      apply find_some in Hfind as [Hf%list_elem_of_In Hart].
      apply (Hnone f Hf), is_album_art_spec; auto.
    + split; [|done]. intros _ f Hf Hart.
      apply is_album_art_spec in Hart; [|auto].
      apply list_elem_of_In in Hf.
      pose proof (find_none _ _ Hfind f Hf). congruence.
  - intros p. split.
    + destruct (List.find is_album_art names) as [f|] eqn:Hfind; [|done].
      intros [= <-]. apply find_first in Hfind as (pre & post & -> & Hart & Hpre).
      exists pre, f, post. split; [done|]. split; [done|]. split.
      * apply is_album_art_spec; [|done]. apply Hsep.
        apply elem_of_app. right. left.
      * intros g Hg Hgart. rewrite Forall_forall in Hpre.
        apply is_album_art_spec in Hgart; [|apply Hsep, elem_of_app; by left].
        specialize (Hpre g Hg). congruence.
    + intros (pre & f & post & Hnames & -> & Hart & Hpre).
      assert (List.find is_album_art names = Some f) as ->; [|done].
      apply find_first. exists pre, post. split; [done|]. split.
      * apply is_album_art_spec; [|done]. apply Hsep. subst names.
        apply elem_of_app. right. left.
      * apply Forall_forall. intros g Hg.
        destruct (is_album_art g) eqn:Hgart; [|done].
        apply is_album_art_spec in Hgart; [|apply Hsep; subst names; apply elem_of_app; by left].
        by destruct (Hpre g Hg).
Qed.

Definition art_world : World :=
  mkWorld [] (λ _, true) false
    (λ _, Listed ["notes.txt"; "Front.PNG"; "cover.jpg"])
    (λ _, Some RegularFile) "" "" [].

Lemma album_art_first_match_witness :
  ∃ pre f post,
    ["notes.txt"; "Front.PNG"; "cover.jpg"] = pre ++ f :: post
    ∧ "/m/Front.PNG" = OsPath.join "/m" f
    ∧ looks_like_art f ∧ ∀ g, g ∈ pre → ¬ looks_like_art g.
Proof.
  assert (Hsep : Forall (λ f, "/"%char ∉ Py.chars f)
                   ["notes.txt"; "Front.PNG"; "cover.jpg"]).
  { repeat constructor; apply (bool_decide_unpack _); by vm_compute. }
  apply (proj1 (proj2 (album_art_first_match art_world "/m" _ eq_refl Hsep)
                  "/m/Front.PNG")).
  reflexivity.
Defined.

(** Leading dots are not an extension, and a dot before the last separator
    is none either. *)
Example splitext_cases :
  splitext "cover.front.jpg" = ("cover.front", ".jpg")
  ∧ splitext ".cover" = (".cover", "")
  ∧ splitext "...jpg" = ("...jpg", "")
  ∧ splitext "a.d/cover" = ("a.d/cover", "")
  ∧ splitext "a/.b.c" = ("a/.b", ".c").
Proof. by vm_compute. Qed.

End AlbumArt.

(** * Start-up (lines 168-220) *)

Module Startup.

Inductive Failure := TypeError | KeyError | OpenError | LibraryError.

(** What start-up finds outside the program: whether [pygame] can be
    imported and its mixer and display initialised, what the mixer,
    [os.path.isdir] and [os.path.abspath] do with the value they are handed
    (a configuration file may hold any JSON value under a key), and the
    line typed at the prompt. *)
Record Host := mkHost {
  pygame_installed : bool;
  mixer_starts : bool;
  set_volume : ConfigStore.JValue → option Failure;
  folder_line : string;
  isdir : ConfigStore.JValue → Failure + bool;
  abspath : ConfigStore.JValue → Failure + string;
}.

Inductive Event :=
| SetTitle
| PrintNoPygame
| PrintMixerError
| NoticeOf (n : ConfigStore.Notice)
| SetVolume (v : ConfigStore.JValue)
| SetEndEvent
| PrintWelcome (last_used_path : ConfigStore.JValue)
| PrintNotDirectory (music_folder : ConfigStore.JValue).

(** How start-up ends: by [return], by an exception nobody catches, or at
    the loop with the configuration and the current path. *)
Inductive Outcome :=
| Stopped
| Raised (e : Failure)
| Enter (config : gmap string ConfigStore.JValue) (current_path : string).

Definition of_load_error (e : ConfigStore.LoadError) : Failure :=
  match e with
  | ConfigStore.TypeError => TypeError
  | ConfigStore.OpenError => OpenError
  end.

(** [music_folder_input or last_used_path] (line 209). *)
Definition chosen_folder (line : string) (last_used_path : ConfigStore.JValue)
    : ConfigStore.JValue :=
  if decide (Py.strip line = "") then last_used_path
  else ConfigStore.JStr (Py.strip line).

Definition startup (h : Host) (d : ConfigStore.Disk)
    : ConfigStore.Disk * list Event * Outcome :=
  if negb (pygame_installed h) then (d, [SetTitle; PrintNoPygame], Stopped)
  else if negb (mixer_starts h) then (d, [SetTitle; PrintMixerError], Stopped)
  else
    let '(d1, notes, loaded) := ConfigStore.load_config d in
    let out1 := SetTitle :: (NoticeOf <$> notes) in
    match loaded with
    | inl e => (d1, out1, Raised (of_load_error e))
    | inr (ConfigStore.JObj config) =>
        match config !! "volume" with
        | None => (d1, out1, Raised KeyError)
        | Some v =>
            match set_volume h v with
            | Some e => (d1, out1, Raised e)
            | None =>
                let out2 := out1 ++ [SetVolume v; SetEndEvent] in
                match config !! "music_folder" with
                | None => (d1, out2, Raised KeyError)
                | Some last_used_path =>
                    let music_folder := chosen_folder (folder_line h) last_used_path in
                    let config' := <["music_folder" := music_folder]> config in
                    let '(d2, notes2) :=
                      ConfigStore.save_config (ConfigStore.JObj config') d1 in
                    let out3 :=
                      out2 ++ [PrintWelcome last_used_path] ++ (NoticeOf <$> notes2) in
                    match isdir h music_folder with
                    | inl e => (d2, out3, Raised e)
                    | inr false => (d2, out3 ++ [PrintNotDirectory music_folder], Stopped)
                    | inr true =>
                        match abspath h music_folder with
                        | inl e => (d2, out3, Raised e)
                        | inr current_path => (d2, out3, Enter config' current_path)
                        end
                    end
                end
            end
        end
    | inr _ => (d1, out1, Raised TypeError)
    end.

(** The settings as the loop reads them, when each has the type the loop
    expects. *)
Definition typed (config : gmap string ConfigStore.JValue) : option Config :=
  match config !! "music_folder", config !! "volume", config !! "shuffle_on",
        config !! "page_size", config !! "current_page" with
  | Some (ConfigStore.JStr f), Some (ConfigStore.JFloat v),
    Some (ConfigStore.JBool s), Some (ConfigStore.JInt ps),
    Some (ConfigStore.JInt cp) => Some (mkConfig f v s ps cp)
  | _, _, _, _, _ => None
  end.

(** The state the loop starts in (lines 191-193 and 218-220). *)
Definition entered (o : Outcome) : option Player :=
  match o with
  | Enter config current_path => (λ c, initial c current_path) <$> typed config
  | _ => None
  end.

Definition disk_after (r : ConfigStore.Disk * list Event * Outcome) : ConfigStore.Disk := r.1.1.
Definition events_of (r : ConfigStore.Disk * list Event * Outcome) : list Event := r.1.2.
Definition outcome_of (r : ConfigStore.Disk * list Event * Outcome) : Outcome := r.2.

Lemma startup_loaded h d d1 notes config v last_used_path :
  pygame_installed h = true → mixer_starts h = true →
  ConfigStore.load_config d = (d1, notes, inr (ConfigStore.JObj config)) →
  config !! "volume" = Some v → set_volume h v = None →
  config !! "music_folder" = Some last_used_path →
  let music_folder := chosen_folder (folder_line h) last_used_path in
  let config' := <["music_folder" := music_folder]> config in
  let saved := ConfigStore.save_config (ConfigStore.JObj config') d1 in
  let out3 := SetTitle :: (NoticeOf <$> notes)
              ++ [SetVolume v; SetEndEvent; PrintWelcome last_used_path]
              ++ (NoticeOf <$> saved.2) in
  startup h d
  = match isdir h music_folder with
    | inl e => (saved.1, out3, Raised e)
    | inr false => (saved.1, out3 ++ [PrintNotDirectory music_folder], Stopped)
    | inr true =>
        match abspath h music_folder with
        | inl e => (saved.1, out3, Raised e)
        | inr current_path => (saved.1, out3, Enter config' current_path)
        end
    end.
Proof.
  intros Hpy Hmix Hload Hv Hvol Hlast music_folder config' saved out3.
  unfold startup. rewrite Hpy, Hmix, Hload. cbn [negb].
  rewrite Hv, Hvol, Hlast. fold music_folder. fold config'. fold saved.
  destruct saved as [d2 notes2] eqn:Hsaved. subst out3. cbn [fst snd].
  rewrite <-!app_assoc, <-!app_comm_cons. cbn [app].
  rewrite <-!app_assoc. cbn [app].
  destruct (isdir h music_folder) as [e|[]]; [done| |done].
  destruct (abspath h music_folder); done.
Qed.

(** X24: The folder is written to the configuration file before it is looked
    at.  With a configuration that loads and a file that can be written,
    the file holds the loaded settings with [music_folder] replaced by the
    line typed, stripped, or by the stored folder when that line is blank,
    and this is so also when the folder turns out not to be a directory
    and the player stops; a blank line leaves the settings as loaded.  The
    loop is entered, at the absolute path of the folder, exactly on a
    directory. *)
Theorem folder_saved_before_checked (h : Host) (d d1 : ConfigStore.Disk)
    (notes : list ConfigStore.Notice) (config : gmap string ConfigStore.JValue)
    (v last_used_path : ConfigStore.JValue) :
  pygame_installed h = true → mixer_starts h = true →
  ConfigStore.load_config d = (d1, notes, inr (ConfigStore.JObj config)) →
  config !! "volume" = Some v → set_volume h v = None →
  config !! "music_folder" = Some last_used_path →
  ConfigStore.writable d1 = true →
  let music_folder := chosen_folder (folder_line h) last_used_path in
  let config' := <["music_folder" := music_folder]> config in
  let r := startup h d in
  ConfigStore.stored (disk_after r) = ConfigStore.Json (ConfigStore.JObj config')
  ∧ (Py.strip (folder_line h) = "" → config' = config)
  ∧ (isdir h music_folder = inr false →
     outcome_of r = Stopped ∧ last (events_of r) = Some (PrintNotDirectory music_folder))
  ∧ (∀ current_path, isdir h music_folder = inr true →
       abspath h music_folder = inr current_path →
       outcome_of r = Enter config' current_path)
  ∧ (∀ c p, outcome_of r = Enter c p →
       isdir h music_folder = inr true ∧ abspath h music_folder = inr p ∧ c = config').
Proof.
  intros Hpy Hmix Hload Hv Hvol Hlast Hw music_folder config' r.
  pose proof (startup_loaded h d d1 notes config v last_used_path
                Hpy Hmix Hload Hv Hvol Hlast) as Hrun.
  cbv zeta in Hrun. fold music_folder in Hrun. fold config' in Hrun. fold r in Hrun.
  unfold ConfigStore.save_config in Hrun. rewrite Hw in Hrun. cbn [fst snd] in Hrun.
  split; [|split; [|split; [|split]]].
  - rewrite Hrun. destruct (isdir h music_folder) as [e|[]]; [done| |done].
    by destruct (abspath h music_folder).
  - intros Hblank. unfold config', music_folder, chosen_folder.
    rewrite decide_True by done. by apply insert_id.
  - intros Hdir. rewrite Hrun, Hdir. split; [done|].
    unfold events_of. cbn [fst snd]. rewrite app_comm_cons. apply last_snoc.
  - intros p Hdir Habs. by rewrite Hrun, Hdir, Habs.
  - intros c p. rewrite Hrun.
    destruct (isdir h music_folder) as [e|[]]; [done| |done].
    destruct (abspath h music_folder); [done|].
    unfold outcome_of. cbn [snd]. by intros [= <- <-].
Qed.

Definition stored_settings : gmap string ConfigStore.JValue :=
  list_to_map
    [("music_folder", ConfigStore.JStr "/music"); ("volume", ConfigStore.JFloat 0.5%float);
     ("shuffle_on", ConfigStore.JBool true); ("page_size", ConfigStore.JInt 10);
     ("current_page", ConfigStore.JInt 2)].

(** A host on which [/music] is the only directory and the line typed
    is [line]. *)
Definition host_typing (line : string) : Host :=
  mkHost true true (λ _, None) line
    (λ v, match v with
          | ConfigStore.JStr s => inr (String.eqb s "/music")
          | _ => inl TypeError
          end)
    (λ v, match v with
          | ConfigStore.JStr s => inr s
          | _ => inl TypeError
          end).

Lemma folder_saved_before_checked_witness :
  let d := ConfigStore.mkDisk (ConfigStore.Json (ConfigStore.JObj stored_settings)) true in
  let r := startup (host_typing " /musci ") d in
  ConfigStore.stored (disk_after r)
  = ConfigStore.Json (ConfigStore.JObj
      (<["music_folder" := ConfigStore.JStr "/musci"]> stored_settings))
  ∧ outcome_of r = Stopped.
Proof.
  intros d r.
  assert (Hload : ConfigStore.load_config d
                  = (d, [], inr (ConfigStore.JObj stored_settings)))
    by by vm_compute.
  destruct (folder_saved_before_checked (host_typing " /musci ") d d []
              stored_settings (ConfigStore.JFloat 0.5%float)
              (ConfigStore.JStr "/music") eq_refl eq_refl Hload)
    as (Hdisk & _ & Hstop & _); [by vm_compute|reflexivity|by vm_compute|reflexivity|].
  split; [exact Hdisk|]. apply Hstop. reflexivity.
Defined.

(** X25: The first run.  With no configuration file, or one that is not JSON,
    and a directory the file can be written in, the defaults are used:
    the volume is set to 0.5, the folder is the line typed or [audio] on a
    blank line, the file ends up holding the defaults with that folder,
    and on a directory the loop starts idle on the first page with
    shuffle off. *)
Theorem first_run_uses_defaults (h : Host) (d : ConfigStore.Disk) :
  pygame_installed h = true → mixer_starts h = true →
  ConfigStore.stored d = ConfigStore.NoFile ∨ ConfigStore.stored d = ConfigStore.NotJson →
  ConfigStore.writable d = true →
  set_volume h (ConfigStore.JFloat 0.5%float) = None →
  let folder := if decide (Py.strip (folder_line h) = "") then "audio"
                else Py.strip (folder_line h) in
  let r := startup h d in
  ConfigStore.stored (disk_after r)
  = ConfigStore.Json (ConfigStore.JObj
      (<["music_folder" := ConfigStore.JStr folder]> ConfigStore.default_config))
  ∧ SetVolume (ConfigStore.JFloat 0.5%float) ∈ events_of r
  ∧ (isdir h (ConfigStore.JStr folder) = inr false → outcome_of r = Stopped)
  ∧ (∀ p, isdir h (ConfigStore.JStr folder) = inr true →
       abspath h (ConfigStore.JStr folder) = inr p →
       entered (outcome_of r)
       = Some (initial (mkConfig folder 0.5%float false 10 0) p)).
Proof.
  intros Hpy Hmix Hfile Hw Hvol folder r.
  assert (Hload : ConfigStore.load_config d
                  = (ConfigStore.mkDisk
                       (ConfigStore.Json (ConfigStore.JObj ConfigStore.default_config)) true,
                     [], inr (ConfigStore.JObj ConfigStore.default_config))).
  { unfold ConfigStore.load_config, ConfigStore.save_config.
    destruct Hfile as [-> | ->]; by rewrite Hw. }
  pose proof (startup_loaded h d _ [] ConfigStore.default_config
                (ConfigStore.JFloat 0.5%float) (ConfigStore.JStr "audio")
                Hpy Hmix Hload eq_refl Hvol eq_refl) as Hrun.
  cbv zeta in Hrun. fold r in Hrun.
  assert (Hfolder : chosen_folder (folder_line h) (ConfigStore.JStr "audio")
                    = ConfigStore.JStr folder).
  { unfold chosen_folder, folder. by destruct (decide _). }
  rewrite Hfolder in Hrun.
  unfold ConfigStore.save_config in Hrun. cbn [ConfigStore.writable fst snd] in Hrun.
  split; [|split; [|split]].
  - rewrite Hrun. destruct (isdir h _) as [e|[]]; [done| |done].
    by destruct (abspath h _).
  - rewrite Hrun.
    destruct (isdir h _) as [e|[]].
    + unfold events_of. cbn. apply elem_of_cons. right. apply elem_of_cons. by left.
    + destruct (abspath h _);
        unfold events_of; cbn; apply elem_of_cons; right; apply elem_of_cons; by left.
    + unfold events_of. cbn. apply elem_of_cons. right. apply elem_of_cons. by left.
  - intros Hdir. by rewrite Hrun, Hdir.
  - intros p Hdir Habs. rewrite Hrun, Hdir, Habs. unfold outcome_of. cbn [snd entered].
    unfold typed. rewrite lookup_insert_eq.
    by rewrite !lookup_insert_ne by done.
Qed.

Lemma first_run_uses_defaults_witness :
  let r := startup (host_typing "/music") (ConfigStore.mkDisk ConfigStore.NoFile true) in
  ConfigStore.stored (disk_after r)
  = ConfigStore.Json (ConfigStore.JObj
      (<["music_folder" := ConfigStore.JStr "/music"]> ConfigStore.default_config))
  ∧ entered (outcome_of r)
    = Some (initial (mkConfig "/music" 0.5%float false 10 0) "/music").
Proof.
  intros r.
  destruct (first_run_uses_defaults (host_typing "/music")
              (ConfigStore.mkDisk ConfigStore.NoFile true) eq_refl eq_refl
              (or_introl eq_refl) eq_refl eq_refl) as (Hdisk & _ & _ & Hloop).
  split; [exact Hdisk|]. apply Hloop; reflexivity.
Defined.

(** X26: Where the loop starts.  Whenever start-up reaches the loop with
    settings of the types the loop expects, nothing is playing, the queue
    and the playlist are empty, the index is -1, the player is not paused
    and the current directory is the root; and if the configuration file
    can be written, it holds exactly the settings the loop starts with. *)
Theorem loop_starts_idle_and_saved (h : Host) (d : ConfigStore.Disk) (st : Player) :
  let r := startup h d in
  entered (outcome_of r) = Some st →
  st = initial (config st) (current_path st)
  ∧ (ConfigStore.writable (disk_after r) = true →
     ∃ m, ConfigStore.stored (disk_after r) = ConfigStore.Json (ConfigStore.JObj m)
          ∧ typed m = Some (config st)).
Proof.
  intros r. subst r. unfold startup.
  destruct (pygame_installed h); [|done]. destruct (mixer_starts h); [|done].
  cbn [negb].
  destruct (ConfigStore.load_config d) as [[d1 notes] [e|v]]; [done|].
  destruct v as [| | | | | |m]; try done.
  destruct (m !! "volume") as [v|]; [|done].
  destruct (set_volume h v); [done|].
  destruct (m !! "music_folder") as [last_used_path|]; [|done].
  set (config' := <["music_folder" := _]> m).
  destruct (ConfigStore.save_config (ConfigStore.JObj config') d1)
    as [d2 notes2] eqn:Hsave.
  destruct (isdir h _) as [e|[]]; [done| |done].
  destruct (abspath h _) as [e|p]; [done|].
  unfold outcome_of, disk_after. cbn [fst snd entered].
  destruct (typed config') as [c|] eqn:Htyped; [|done].
  intros [= <-]. split; [done|].
  intros Hw. exists config'. split; [|done].
  unfold ConfigStore.save_config in Hsave.
  destruct (ConfigStore.writable d1) eqn:Hw1.
  - by injection Hsave as <- _.
  - injection Hsave as <- _. congruence.
Qed.

Lemma loop_starts_idle_and_saved_witness :
  let d := ConfigStore.mkDisk (ConfigStore.Json (ConfigStore.JObj stored_settings)) true in
  let r := startup (host_typing "") d in
  let st := initial (mkConfig "/music" 0.5%float true 10 2) "/music" in
  st = initial (config st) (current_path st)
  ∧ (ConfigStore.writable (disk_after r) = true →
     ∃ m, ConfigStore.stored (disk_after r) = ConfigStore.Json (ConfigStore.JObj m)
          ∧ typed m = Some (config st)).
Proof.
  intros d r st.
  apply (loop_starts_idle_and_saved (host_typing "") d st). by vm_compute.
Defined.

End Startup.
